(** * In-memory B-tree (src/main.cpp): shallow embedding and verification

  The C++ program keeps its nodes on the free store and links them with
  raw pointers (children, parent, index in parent).  The embedding keeps
  that shape: a store of nodes indexed by addresses, [new] as allocation
  of a fresh address, [delete] as removal, and every member function as a
  function over the store in the [option] monad ([None] is a null or
  dangling dereference, an out-of-bounds array access, or a failed
  [ASSERT]). *)

From stdpp Require Import base option list gmap fin_maps fin_sets sorting.
From Stdlib Require Import ZArith Lia.
From Stdlib Require Floats.SpecFloat.

Local Open Scope Z_scope.

(** ** The default comparator *)

Module Comparator.

(** [K]'s of the signed branch are modelled by their bit width: a value of
    a signed [w]-bit type is an integer in [[-2^(w-1), 2^(w-1))]. *)
Definition wrap (w : Z) (x : Z) : Z :=
  (x + 2 ^ (w - 1)) mod 2 ^ w - 2 ^ (w - 1).

Definition in_range (w : Z) (x : Z) : Prop :=
  - 2 ^ (w - 1) <= x < 2 ^ (w - 1).

(** [return a - b;] for a signed integer type of [w] bits.  Operands
    narrower than [int] are promoted to [int] (32 bits); the difference is
    computed at the promoted width and converted to the [int] result. *)
Definition default_compare_signed (w : Z) (a b : Z) : Z :=
  let wp := Z.max w 32 in
  wrap 32 (wrap wp (a - b)).

(** [return (a < b) ? -1 : ((a > b) ? 1 : 0);] for the other key types. *)
Definition default_compare_else (a b : Z) : Z :=
  if a <? b then -1 else if b <? a then 1 else 0.

(** [return a - b;] for a floating-point type of [prec] bits of mantissa
    and exponents below [emax] ([double]: 53 and 1024, [float]: 24 and
    128).  The difference is the IEEE 754 one, rounded to the nearest
    value of the type; its conversion to [int] drops the fractional part,
    and is undefined when what is left is not a value of [int], as it is
    for an infinity and for a NaN. *)
Definition default_compare_float (prec emax : Z) (a b : SpecFloat.spec_float)
  : option Z :=
  match SpecFloat.SFsub prec emax a b with
  | SpecFloat.S754_zero _ => Some 0
  | SpecFloat.S754_finite s m e =>
      let z := SpecFloat.cond_Zopp s (Z.shiftl (Z.pos m) e) in
      if decide (- 2 ^ 31 <= z < 2 ^ 31) then Some z else None
  | _ => None
  end.

End Comparator.

Local Close Scope Z_scope.

(** ** Search flags *)

Definition FOUND : Z := Z.shiftl 1 16.
Definition FOUND_MASK : Z := (FOUND - 1)%Z.
Definition GO_DOWN : Z := Z.shiftl 1 24.
Definition GO_DOWN_MASK : Z := (GO_DOWN - 1)%Z.

(** Conversion to [uint16_t]. *)
Definition u16 (z : Z) : nat := Z.to_nat (z mod 65536).

(** ** Arrays *)

Section arrays.
Context {A : Type}.

(** [std::move_backward(first, last, d_last)] inside one array. *)
Definition move_backward (first last d_last : nat) (l : list A) : option (list A) :=
  if decide (first ≤ last ∧ last ≤ d_last ∧ d_last ≤ length l) then
    Some (take (d_last - (last - first)) l
            ++ take (last - first) (drop first l) ++ drop d_last l)
  else None.

(** [std::memmove(dst, src, n * sizeof)] inside one array. *)
Definition memmove (dst src n : nat) (l : list A) : option (list A) :=
  if decide (src + n ≤ length l ∧ dst + n ≤ length l) then
    Some (take dst l ++ take n (drop src l) ++ drop (dst + n) l)
  else None.

(** Copy of [src[first..last)] to the front of [dst]
    ([std::uninitialized_move], [std::memcpy]). *)
Definition copy_range (first last : nat) (src dst : list A) : option (list A) :=
  if decide (first ≤ last ∧ last ≤ length src ∧ last - first ≤ length dst) then
    Some (take (last - first) (drop first src) ++ drop (last - first) dst)
  else None.

(** [a[i] = x] with the bound checked. *)
Definition store (i : nat) (x : A) (l : list A) : option (list A) :=
  if decide (i < length l) then Some (<[i := x]> l) else None.
End arrays.

(** ** Nodes and the store *)

Definition addr := positive.

(** [insert] takes its key and its value by reference to const.  The
    caller passes an object of its own, or a reference that the tree has
    handed out ([operator*], [key_at], [value_at], [min_key], [max_key]),
    which designates a slot of a node: slot [i] of the keys of node [a]
    for a reference to a key, of its values for a reference to a value
    (a reference to a key into an array of values, which the types allow
    when both are the same type, is not represented).  The program reads
    through the reference when it uses the argument, so a slot is read in
    the store as it is at that moment.  Keys and values are values of the
    embedding: a slot that [std::move] has moved from still reads as
    before, as it does for [int] and every trivially copyable type. *)
Inductive ref (X : Type) : Type :=
| object (x : X)
| slot (a : addr) (i : nat).
Arguments object {X} x.
Arguments slot {X} a i.

Section btree.
Context {K V : Type}.
(** Template parameter [B] and the comparator object [comp]. *)
Variable B : nat.
Variable comp : K → K → Z.
(** The values of default-initialised array slots. *)
Variable dK : K.
Variable dV : V.

Record BTreeNode := mkNode {
  IsInternal : bool;
  keys : list K;
  values : list V;
  children : list (option addr);
  parent : option addr;
  usage : nat;
  parent_idx : nat
}.

(** [new BTreeNode<K, V, internal, Compare, B>] *)
Definition new_node (internal : bool) : BTreeNode :=
  {| IsInternal := internal;
     keys := replicate (2 * B - 1) dK;
     values := replicate (2 * B - 1) dV;
     children := replicate (if internal then 2 * B else 0) None;
     parent := None;
     usage := 0;
     parent_idx := 0 |}.

Definition alloc (h : gmap addr BTreeNode) (nd : BTreeNode) : gmap addr BTreeNode * addr :=
  let a := fresh (dom h) in (<[a := nd]> h, a).

Definition set_keys ks nd := mkNode (IsInternal nd) ks (values nd) (children nd) (parent nd) (usage nd) (parent_idx nd).
Definition set_values vs nd := mkNode (IsInternal nd) (keys nd) vs (children nd) (parent nd) (usage nd) (parent_idx nd).
Definition set_children cs nd := mkNode (IsInternal nd) (keys nd) (values nd) cs (parent nd) (usage nd) (parent_idx nd).
Definition set_parent p nd := mkNode (IsInternal nd) (keys nd) (values nd) (children nd) p (usage nd) (parent_idx nd).
Definition set_usage u nd := mkNode (IsInternal nd) (keys nd) (values nd) (children nd) (parent nd) u (parent_idx nd).
Definition set_parent_idx i nd := mkNode (IsInternal nd) (keys nd) (values nd) (children nd) (parent nd) (usage nd) i.

(** [p->node_parent() = q] and [p->node_idx() = i] through a pointer. *)
Definition write_parent (h : gmap addr BTreeNode) (p : option addr) (q : option addr)
  : option (gmap addr BTreeNode) :=
  a ← p; nd ← h !! a; Some (<[a := set_parent q nd]> h).

Definition write_idx (h : gmap addr BTreeNode) (p : option addr) (i : nat)
  : option (gmap addr BTreeNode) :=
  a ← p; nd ← h !! a; Some (<[a := set_parent_idx (u16 (Z.of_nat i)) nd]> h).

(** *** linear_search *)

(** [linear_search] and [member] take [key] by reference and write
    nothing: the store is the same at every read of [key], and the
    argument is given as the key that is read.  ([insert] searches with
    [linear_search_ref] below, which reads through the reference.) *)
Fixpoint linear_search_from (nd : BTreeNode) (key : K) (i todo : nat) : option Z :=
  match todo with
  | 0 => Some (Z.lor GO_DOWN (Z.of_nat (usage nd)))
  | S todo' =>
      k ← keys nd !! i;
      let res := comp key k in
      if (res <? 0)%Z then Some (Z.lor GO_DOWN (Z.of_nat i))
      else if (res =? 0)%Z then Some (Z.lor FOUND (Z.of_nat i))
      else linear_search_from nd key (S i) todo'
  end.

Definition linear_search (nd : BTreeNode) (key : K) : option Z :=
  if decide (usage nd < 2 * B) then linear_search_from nd key 0 (usage nd)
  else None.

(** *** member *)


(** *** Destructor and [delete] *)

(** [delete p]: nothing for a null pointer; otherwise [~BTreeNode] (which
    releases the children of an internal node unless [usage] is zero) and
    the release of the node itself. *)
Fixpoint destroy (fuel : nat) (h : gmap addr BTreeNode) (p : option addr)
  : option (gmap addr BTreeNode) :=
  match p with
  | None => Some h
  | Some a =>
      match fuel with
      | 0 => None
      | S fuel' =>
          nd ← h !! a;
          h' ← (if IsInternal nd && negb (usage nd =? 0) then
                  foldl (λ acc i, hh ← acc; c ← children nd !! i; destroy fuel' hh c)
                        (Some h) (seq 0 (S (usage nd)))
                else Some h);
          _ ← h' !! a;
          Some (delete a h')
      end
  end.

(** *** split *)

Record SplitResult := mkSplit {
  sr_l : addr; sr_r : addr; sr_key : K; sr_value : V
}.

(** [p->children[i]] *)
Definition child (h : gmap addr BTreeNode) (p : addr) (i : nat) : option addr :=
  nd ← h !! p; mjoin (children nd !! i).

(** The loop re-stamping the children handed to [l] and [r]. *)
Fixpoint split_restamp (h : gmap addr BTreeNode) (l r : addr) (i todo : nat)
  : option (gmap addr BTreeNode) :=
  match todo with
  | 0 => Some h
  | S todo' =>
      h ← write_parent h (child h l i) (Some l);
      h ← write_idx h (child h l i) i;
      h ← write_parent h (child h r i) (Some r);
      h ← write_idx h (child h r i) i;
      split_restamp h l r (S i) todo'
  end.

Definition split (h : gmap addr BTreeNode) (this : addr)
  : option (gmap addr BTreeNode * SplitResult) :=
  nd ← h !! this;
  if decide (usage nd = 2 * B - 1) then
    let fresh_node := new_node (IsInternal nd) in
    let '(h, l) := alloc h fresh_node in
    let '(h, r) := alloc h fresh_node in
    let lnd := set_parent (parent nd) (set_usage (B - 1) fresh_node) in
    let rnd := set_parent (parent nd) (set_usage (B - 1) fresh_node) in
    lks ← copy_range 0 (B - 1) (keys nd) (keys lnd);
    rks ← copy_range B (usage nd) (keys nd) (keys rnd);
    lvs ← copy_range 0 (B - 1) (values nd) (values lnd);
    rvs ← copy_range B (usage nd) (values nd) (values rnd);
    let lnd := set_values lvs (set_keys lks lnd) in
    let rnd := set_values rvs (set_keys rks rnd) in
    let h := <[this := set_usage 0 nd]> (<[r := rnd]> (<[l := lnd]> h)) in
    h ← (if IsInternal nd then
           lcs ← copy_range 0 B (children nd) (children lnd);
           rcs ← copy_range B (B + B) (children nd) (children rnd);
           let h := <[r := set_children rcs rnd]> (<[l := set_children lcs lnd]> h) in
           split_restamp h l r 0 B
         else Some h);
    key ← keys nd !! (B - 1);
    value ← values nd !! (B - 1);
    Some (h, mkSplit l r key value)
  else None.

(** *** singleton *)

Definition update (h : gmap addr BTreeNode) (a : addr) (f : BTreeNode → option BTreeNode)
  : option (gmap addr BTreeNode) :=
  nd ← h !! a; nd' ← f nd; Some (<[a := nd']> h).

Definition singleton (h : gmap addr BTreeNode) (l r : addr) (key : K) (value : V)
  : option (gmap addr BTreeNode * addr) :=
  let '(h, node) := alloc h (new_node true) in
  h ← update h node (λ nd, Some (set_usage 1 nd));
  h ← update h node (λ nd, vs ← store 0 value (values nd); Some (set_values vs nd));
  h ← update h node (λ nd, ks ← store 0 key (keys nd); Some (set_keys ks nd));
  h ← update h node (λ nd, cs ← store 0 (Some l) (children nd); Some (set_children cs nd));
  h ← write_idx h (Some l) 0;
  h ← write_parent h (Some l) (Some node);
  h ← update h node (λ nd, cs ← store 1 (Some r) (children nd); Some (set_children cs nd));
  h ← write_idx h (Some r) 1;
  h ← write_parent h (Some r) (Some node);
  Some (h, node).

(** *** adopt *)

(** The loop [for (int i = position; i < usage + 2; ++i)]. *)
Fixpoint adopt_restamp (h : gmap addr BTreeNode) (this : addr) (i todo : nat)
  : option (gmap addr BTreeNode) :=
  match todo with
  | 0 => Some h
  | S todo' =>
      h ← write_idx h (child h this i) i;
      adopt_restamp h this (S i) todo'
  end.

(** Lines 297-312: everything before the capacity test. *)
Definition adopt_local (fuel : nat) (h : gmap addr BTreeNode) (this l r : addr)
    (key : K) (value : V) (position : nat) : option (gmap addr BTreeNode) :=
  h ← update h this (λ nd,
        vs ← move_backward position (usage nd) (usage nd + 1) (values nd);
        Some (set_values vs nd));
  h ← update h this (λ nd,
        ks ← move_backward position (usage nd) (usage nd + 1) (keys nd);
        Some (set_keys ks nd));
  h ← update h this (λ nd,
        cs ← memmove (position + 1) position (usage nd + 1 - position) (children nd);
        Some (set_children cs nd));
  nd ← h !! this;
  stale ← children nd !! position;
  h ← destroy fuel h stale;
  h ← update h this (λ nd, cs ← store position (Some l) (children nd);
                            Some (set_children cs nd));
  h ← write_parent h (Some l) (Some this);
  h ← update h this (λ nd, cs ← store (position + 1) (Some r) (children nd);
                            Some (set_children cs nd));
  h ← write_parent h (Some r) (Some this);
  nd ← h !! this;
  h ← adopt_restamp h this position (usage nd + 2 - position);
  h ← update h this (λ nd, vs ← store position value (values nd);
                            Some (set_values vs nd));
  h ← update h this (λ nd, ks ← store position key (keys nd);
                            Some (set_keys ks nd));
  update h this (λ nd, Some (set_usage (u16 (Z.of_nat (usage nd) + 1)) nd)).

Fixpoint adopt (fuel : nat) (h : gmap addr BTreeNode) (this l r : addr)
    (key : K) (value : V) (position : nat) (root : option addr)
  : option (gmap addr BTreeNode * option addr) :=
  match fuel with
  | 0 => None
  | S fuel' =>
      h ← adopt_local fuel h this l r key value position;
      nd ← h !! this;
      if decide (usage nd = 2 * B - 1) then
        '(h, result) ← split h this;
        nd ← h !! this;
        match parent nd with
        | Some p =>
            adopt fuel' h p (sr_l result) (sr_r result) (sr_key result)
                  (sr_value result) (parent_idx nd) root
        | None =>
            h ← destroy fuel h root;
            '(h, s) ← singleton h (sr_l result) (sr_r result)
                                (sr_key result) (sr_value result);
            Some (h, Some s)
        end
      else Some (h, root)
  end.

(** The tail shared by [insert] and [adopt]: hand the split result to the
    parent, or put a new root above it. *)
Definition promote (fuel : nat) (h : gmap addr BTreeNode) (this : addr)
    (result : SplitResult) (root : option addr)
  : option (gmap addr BTreeNode * option addr) :=
  nd ← h !! this;
  match parent nd with
  | Some p =>
      adopt fuel h p (sr_l result) (sr_r result) (sr_key result)
            (sr_value result) (parent_idx nd) root
  | None =>
      h ← destroy (S fuel) h root;
      '(h, s) ← singleton h (sr_l result) (sr_r result)
                          (sr_key result) (sr_value result);
      Some (h, Some s)
  end.

(** *** insert *)

Definition read_key (h : gmap addr BTreeNode) (r : ref K) : option K :=
  match r with
  | object k => Some k
  | slot a i => nd ← h !! a; keys nd !! i
  end.

Definition read_value (h : gmap addr BTreeNode) (r : ref V) : option V :=
  match r with
  | object v => Some v
  | slot a i => nd ← h !! a; values nd !! i
  end.

(** [linear_search(key)] with [key] read at every comparison. *)
Fixpoint linear_search_from_ref (h : gmap addr BTreeNode) (nd : BTreeNode) (key : ref K)
    (i todo : nat) : option Z :=
  match todo with
  | 0 => Some (Z.lor GO_DOWN (Z.of_nat (usage nd)))
  | S todo' =>
      k' ← read_key h key;
      k ← keys nd !! i;
      let res := comp k' k in
      if (res <? 0)%Z then Some (Z.lor GO_DOWN (Z.of_nat i))
      else if (res =? 0)%Z then Some (Z.lor FOUND (Z.of_nat i))
      else linear_search_from_ref h nd key (S i) todo'
  end.

Definition linear_search_ref (h : gmap addr BTreeNode) (nd : BTreeNode) (key : ref K)
  : option Z :=
  if decide (usage nd < 2 * B) then linear_search_from_ref h nd key 0 (usage nd)
  else None.

(** Lines 278-282: the leaf makes room at [position], then reads [value]
    and stores it, then reads [key] and stores it. *)
Definition insert_local_ref (h : gmap addr BTreeNode) (this : addr) (position : nat)
    (key : ref K) (value : ref V) : option (gmap addr BTreeNode) :=
  h ← update h this (λ nd,
        vs ← move_backward position (usage nd) (usage nd + 1) (values nd);
        Some (set_values vs nd));
  h ← update h this (λ nd,
        ks ← move_backward position (usage nd) (usage nd + 1) (keys nd);
        Some (set_keys ks nd));
  v ← read_value h value;
  h ← update h this (λ nd, vs ← store position v (values nd);
                            Some (set_values vs nd));
  k ← read_key h key;
  h ← update h this (λ nd, ks ← store position k (keys nd);
                            Some (set_keys ks nd));
  update h this (λ nd, Some (set_usage (u16 (Z.of_nat (usage nd) + 1)) nd)).

Fixpoint BTreeNode_insert_ref (up fuel : nat) (h : gmap addr BTreeNode) (this : addr)
    (key : ref K) (value : ref V) (root : option addr)
  : option (gmap addr BTreeNode * option addr * option V) :=
  match fuel with
  | 0 => None
  | S fuel' =>
      nd ← h !! this;
      res ← linear_search_ref h nd key;
      if negb (Z.land res FOUND =? 0)%Z then
        let i := Z.to_nat (Z.land res FOUND_MASK) in
        original ← values nd !! i;
        v ← read_value h value;
        vs ← store i v (values nd);
        Some (<[this := set_values vs nd]> h, root, Some original)
      else
        let position := Z.to_nat (Z.land res GO_DOWN_MASK) in
        if IsInternal nd then
          c ← mjoin (children nd !! position);
          BTreeNode_insert_ref up fuel' h c key value root
        else
          h ← insert_local_ref h this position key value;
          nd ← h !! this;
          if decide (usage nd = 2 * B - 1) then
            '(h, result) ← split h this;
            '(h, root) ← promote up h this result root;
            Some (h, root, None)
          else Some (h, root, None)
  end.

(** The same functions for a call whose [key] and [value] are objects of
    the caller. *)
Definition insert_local (h : gmap addr BTreeNode) (this : addr) (position : nat)
    (key : K) (value : V) : option (gmap addr BTreeNode) :=
  insert_local_ref h this position (object key) (object value).

Definition BTreeNode_insert (up fuel : nat) (h : gmap addr BTreeNode) (this : addr)
    (key : K) (value : V) (root : option addr)
  : option (gmap addr BTreeNode * option addr * option V) :=
  BTreeNode_insert_ref up fuel h this (object key) (object value) root.

(** *** Iterators *)

Record iterator := mkIter { idx : nat; node : option addr }.

(** [operator==] and [operator!=] *)
Definition iterator_eq (a b : iterator) : bool :=
  bool_decide (idx a = idx b) && bool_decide (node a = node b).

Definition iterator_neq (a b : iterator) : bool :=
  negb (bool_decide (idx a = idx b)) || negb (bool_decide (node a = node b)).

Fixpoint BTreeNode_min (fuel : nat) (h : gmap addr BTreeNode) (this : addr) : option iterator :=
  match fuel with
  | 0 => None
  | S fuel' =>
      nd ← h !! this;
      if IsInternal nd then
        c ← mjoin (children nd !! 0);
        BTreeNode_min fuel' h c
      else Some (mkIter 0 (Some this))
  end.

Fixpoint BTreeNode_max (fuel : nat) (h : gmap addr BTreeNode) (this : addr) : option iterator :=
  match fuel with
  | 0 => None
  | S fuel' =>
      nd ← h !! this;
      if IsInternal nd then
        c ← mjoin (children nd !! usage nd);
        BTreeNode_max fuel' h c
      else Some (mkIter (u16 (Z.of_nat (usage nd) - 1)) (Some this))
  end.

(** [while (node->node_parent() && node->node_idx() == 0)] *)
Fixpoint pred_climb (fuel : nat) (h : gmap addr BTreeNode) (nd_ptr : addr) : option addr :=
  match fuel with
  | 0 => None
  | S fuel' =>
      n ← h !! nd_ptr;
      match parent n with
      | Some p => if parent_idx n =? 0 then pred_climb fuel' h p else Some nd_ptr
      | None => Some nd_ptr
      end
  end.

(** [while (node->node_parent() &&
           node->node_idx() == node->node_parent()->node_usage())] *)
Fixpoint succ_climb (fuel : nat) (h : gmap addr BTreeNode) (nd_ptr : addr) : option addr :=
  match fuel with
  | 0 => None
  | S fuel' =>
      n ← h !! nd_ptr;
      match parent n with
      | Some p =>
          pn ← h !! p;
          if parent_idx n =? usage pn then succ_climb fuel' h p else Some nd_ptr
      | None => Some nd_ptr
      end
  end.

Definition predecessor (fuel : nat) (h : gmap addr BTreeNode) (this : addr) (i : nat)
  : option iterator :=
  nd ← h !! this;
  if IsInternal nd then
    c ← mjoin (children nd !! i);
    BTreeNode_max fuel h c
  else if negb (i =? 0) then Some (mkIter (u16 (Z.of_nat i - 1)) (Some this))
  else
    top ← pred_climb fuel h this;
    n ← h !! top;
    match parent n with
    | Some p => Some (mkIter (u16 (Z.of_nat (parent_idx n) - 1)) (Some p))
    | None => Some (mkIter 0 None)
    end.

Definition successor (fuel : nat) (h : gmap addr BTreeNode) (this : addr) (i : nat)
  : option iterator :=
  nd ← h !! this;
  if IsInternal nd then
    c ← mjoin (children nd !! (i + 1));
    BTreeNode_min fuel h c
  else if (Z.of_nat i <? Z.of_nat (usage nd) - 1)%Z then
    Some (mkIter (u16 (Z.of_nat i + 1)) (Some this))
  else
    top ← succ_climb fuel h this;
    n ← h !! top;
    match parent n with
    | Some p => Some (mkIter (parent_idx n) (Some p))
    | None => Some (mkIter 0 None)
    end.

(** [operator*]: [{node->key_at(idx), node->value_at(idx)}] *)
Definition deref (h : gmap addr BTreeNode) (it : iterator) : option (K * V) :=
  a ← node it; nd ← h !! a;
  k ← keys nd !! idx it; v ← values nd !! idx it; Some (k, v).

(** *** The tree *)

Record BTree := mkTree { heap : gmap addr BTreeNode; root : option addr }.

Definition BTree_empty : BTree := mkTree ∅ None.

(** Loops of the program run on fuel in the embedding; the number of
    allocated nodes bounds the length of every pointer chain that the
    operations follow. *)
Definition gas (t : BTree) : nat := S (size (heap t)).

(** [BTree::insert(const K &key, const V &value)] *)
Definition BTree_insert_ref (t : BTree) (key : ref K) (value : ref V)
  : option (BTree * option V) :=
  match root t with
  | None =>
      let '(h, nd_ptr) := alloc (heap t) (new_node false) in
      h ← update h nd_ptr (λ nd, Some (set_usage 1 nd));
      k ← read_key h key;
      h ← update h nd_ptr (λ nd, ks ← store 0 k (keys nd); Some (set_keys ks nd));
      v ← read_value h value;
      h ← update h nd_ptr (λ nd, vs ← store 0 v (values nd); Some (set_values vs nd));
      Some (mkTree h (Some nd_ptr), None)
  | Some r =>
      '(h, root', old) ← BTreeNode_insert_ref (gas t) (gas t) (heap t) r key value (root t);
      Some (mkTree h root', old)
  end.

(** [BTree::insert] called with objects of the caller. *)
Definition BTree_insert (t : BTree) (key : K) (value : V) : option (BTree * option V) :=
  BTree_insert_ref t (object key) (object value).

Definition BTree_end : iterator := mkIter 0 None.

Definition BTree_begin (t : BTree) : option iterator :=
  match root t with
  | Some r => BTreeNode_min (gas t) (heap t) r
  | None => Some BTree_end
  end.

Definition BTree_min_key (t : BTree) : option K :=
  r ← root t; it ← BTreeNode_min (gas t) (heap t) r;
  a ← node it; nd ← heap t !! a; keys nd !! idx it.

Definition BTree_max_key (t : BTree) : option K :=
  r ← root t; it ← BTreeNode_max (gas t) (heap t) r;
  a ← node it; nd ← heap t !! a; keys nd !! idx it.

(** [operator++] is [node->successor(idx)]; the way back is
    [node->predecessor(idx)], which the iterator does not wrap. *)
Definition iter_next (t : BTree) (it : iterator) : option iterator :=
  a ← node it; successor (gas t) (heap t) a (idx it).

Definition iter_prev (t : BTree) (it : iterator) : option iterator :=
  a ← node it; predecessor (gas t) (heap t) a (idx it).

(** [for (auto i : tree)]: from [begin()] while [it != end()]. *)
Fixpoint walk (steps : nat) (t : BTree) (it : iterator) : option (list (K * V)) :=
  match steps with
  | 0 => None
  | S steps' =>
      if iterator_neq it BTree_end then
        kv ← deref (heap t) it;
        it' ← iter_next t it;
        rest ← walk steps' t it';
        Some (kv :: rest)
      else Some []
  end.

(** The positions the same loop passes through. *)
Fixpoint walk_positions (steps : nat) (t : BTree) (it : iterator) : option (list iterator) :=
  match steps with
  | 0 => None
  | S steps' =>
      if iterator_neq it BTree_end then
        it' ← iter_next t it;
        rest ← walk_positions steps' t it';
        Some (it :: rest)
      else Some []
  end.

(** A run of inserts from the empty tree. *)
Fixpoint run (ops : list (K * V)) (t : BTree) : option BTree :=
  match ops with
  | [] => Some t
  | (k, v) :: ops' => '(t', _) ← BTree_insert t k v; run ops' t'
  end.

(** A run of calls of [insert] with any arguments. *)
Fixpoint run_ref (calls : list (ref K * ref V)) (t : BTree) : option BTree :=
  match calls with
  | [] => Some t
  | (key, value) :: calls' => '(t', _) ← BTree_insert_ref t key value; run_ref calls' t'
  end.

(** ** Specification side *)

(** The three-way contract of the injected comparator. *)
Record Contract : Prop := {
  comp_eq : ∀ a b, comp a b = 0%Z ↔ a = b;
  comp_flip : ∀ a b, (comp a b < 0)%Z ↔ (0 < comp b a)%Z;
  comp_trans : ∀ a b c, (comp a b < 0)%Z → (comp b c < 0)%Z → (comp a c < 0)%Z
}.

Definition before (a b : K) : Prop := (comp a b < 0)%Z.

Definition ascending (l : list (K * V)) : Prop := StronglySorted before (l.*1).

(** The dictionary a run of inserts denotes: an association list kept in
    ascending key order. *)
Fixpoint ins (k : K) (v : V) (l : list (K * V)) : list (K * V) :=
  match l with
  | [] => [(k, v)]
  | (k', v') :: l' =>
      if (comp k k' <? 0)%Z then (k, v) :: l
      else if (comp k k' =? 0)%Z then (k', v) :: l'
      else (k', v') :: ins k v l'
  end.

Fixpoint assoc (k : K) (l : list (K * V)) : option V :=
  match l with
  | [] => None
  | (k', v') :: l' => if (comp k k' =? 0)%Z then Some v' else assoc k l'
  end.

Definition model (ops : list (K * V)) : list (K * V) :=
  foldl (λ acc kv, ins kv.1 kv.2 acc) [] ops.

(** In-order merge of the children's sequences with the node's own slots. *)
Fixpoint interleave {X : Type} (cs : list (list X)) (ks : list X) : list X :=
  match cs with
  | [] => ks
  | c :: cs' =>
      c ++ match ks with
           | [] => interleave cs' []
           | k :: ks' => k :: interleave cs' ks'
           end
  end.

(** The tree a store represents, every node with its address. *)
Inductive ptree := PT (a : addr) (kvs : list (K * V)) (cs : list ptree).

Definition root_addr (t : ptree) : addr := match t with PT a _ _ => a end.
Definition slots (t : ptree) : list (K * V) := match t with PT _ kvs _ => kvs end.
Definition subtrees (t : ptree) : list ptree := match t with PT _ _ cs => cs end.

Fixpoint addrs (t : ptree) : list addr :=
  match t with PT a _ cs => a :: concat (addrs <$> cs) end.

Fixpoint inorder (t : ptree) : list (K * V) :=
  match t with PT _ kvs cs => interleave (inorder <$> cs) kvs end.

Fixpoint positions (t : ptree) : list iterator :=
  match t with
  | PT a kvs cs =>
      interleave (positions <$> cs)
                 ((λ i, mkIter i (Some a)) <$> seq 0 (length kvs))
  end.

Record node_ok (nd : BTreeNode) (par : option addr) (i : nat)
    (kvs : list (K * V)) (cas : list addr) : Prop := {
  ok_usage : usage nd = length kvs;
  ok_keys_len : length (keys nd) = 2 * B - 1;
  ok_values_len : length (values nd) = 2 * B - 1;
  ok_keys : take (length kvs) (keys nd) = kvs.*1;
  ok_values : take (length kvs) (values nd) = kvs.*2;
  ok_parent : parent nd = par;
  ok_idx : parent_idx nd = i;
  ok_internal : IsInternal nd = bool_decide (cas ≠ []);
  ok_children_len : length (children nd) = if IsInternal nd then 2 * B else 0;
  ok_children : take (length cas) (children nd) = Some <$> cas
}.

Inductive rep (h : gmap addr BTreeNode) : option addr → nat → ptree → Prop :=
| rep_PT par i a kvs cs nd :
    h !! a = Some nd →
    node_ok nd par i kvs (root_addr <$> cs) →
    (∀ j c, cs !! j = Some c → rep h (Some a) j c) →
    rep h par i (PT a kvs cs).

(** Node sizes and balance: [shape n t] says that every leaf of [t] is [n]
    levels below its root and every node holds between 1 and [2B-2]
    pairs, an internal node one more child than pairs. *)
Inductive shape : nat → ptree → Prop :=
| shape_leaf a kvs :
    1 ≤ length kvs ≤ 2 * B - 2 →
    shape 0 (PT a kvs [])
| shape_node n a kvs cs :
    1 ≤ length kvs ≤ 2 * B - 2 →
    length cs = S (length kvs) →
    (∀ c, c ∈ cs → shape n c) →
    shape (S n) (PT a kvs cs).

(** [at_depth h a d b]: [b] is reached from [a] by [d] child links. *)
Inductive at_depth (h : gmap addr BTreeNode) : addr → nat → addr → Prop :=
| at_depth_here a : at_depth h a 0 a
| at_depth_child a nd i c d b :
    h !! a = Some nd → IsInternal nd = true → i ≤ usage nd →
    children nd !! i = Some (Some c) →
    at_depth h c d b →
    at_depth h a (S d) b.

(** The invariant of a tree between operations: the store represents a
    well-shaped tree [T] of height [n] hanging from the root pointer. *)
Definition tree_rep (t : BTree) (T : ptree) (n : nat) : Prop :=
  root t = Some (root_addr T) ∧ rep (heap t) None 0 T ∧ shape n T ∧ NoDup (addrs T).

Definition tree_inv (t : BTree) (l : list (K * V)) : Prop :=
  match root t with
  | None => l = []
  | Some _ => ∃ n T, tree_rep t T n ∧ inorder T = l
  end.

(** Depth of the leftmost leaf below a node. *)
Fixpoint leftmost_depth (fuel : nat) (h : gmap addr BTreeNode) (a : addr) : option nat :=
  match fuel with
  | 0 => None
  | S fuel' =>
      nd ← h !! a;
      if IsInternal nd then
        c ← mjoin (children nd !! 0); S <$> leftmost_depth fuel' h c
      else Some 0
  end.

Definition BTree_height (t : BTree) : option nat :=
  r ← root t; leftmost_depth (gas t) (heap t) r.

(** Helpers for the proofs: list surgery at a slot. *)
Definition insert_at {X : Type} (p : nat) (x : X) (l : list X) : list X :=
  take p l ++ x :: drop p l.

Definition zipcat {X : Type} (cs : list (list X)) (ks : list X) : list X :=
  concat (zip_with (λ c k, c ++ [k]) cs ks).

Definition after_child {X : Type} (cs : list (list X)) (ks : list X) : list X :=
  match ks with
  | [] => interleave cs []
  | k :: ks' => k :: interleave cs ks'
  end.

Definition above (k : K) (l : list (K * V)) : Prop := Forall (λ x, before x.1 k) l.
Definition below (k : K) (l : list (K * V)) : Prop := Forall (λ x, before k x.1) l.

(** What [linear_search] reports about a key in an array prefix. *)
Inductive search_result (ks : list K) (key : K) : Z → Prop :=
| search_found p k :
    ks !! p = Some k → comp key k = 0%Z →
    (∀ j k', j < p → ks !! j = Some k' → (0 < comp key k')%Z) →
    search_result ks key (Z.lor FOUND (Z.of_nat p))
| search_down p :
    p ≤ length ks →
    (∀ k, ks !! p = Some k → (comp key k < 0)%Z) →
    (∀ j k', j < p → ks !! j = Some k' → (0 < comp key k')%Z) →
    search_result ks key (Z.lor GO_DOWN (Z.of_nat p)).

(** The fields a re-stamping writes. *)
Definition stamp (par : addr) (j : nat) (nd : BTreeNode) : BTreeNode :=
  set_parent_idx j (set_parent (Some par) nd).

(** The tail that [insert] (on a leaf) and [adopt] share after their own
    updates: test for capacity, split, promote. *)
Definition finish (up : nat) (h : gmap addr BTreeNode) (this : addr) (root : option addr)
  : option (gmap addr BTreeNode * option addr) :=
  nd ← h !! this;
  if decide (usage nd = 2 * B - 1) then
    '(h, result) ← split h this; promote up h this result root
  else Some (h, root).

(** Outcomes of an insert below a node, seen from the store [h] before
    it: the subtree absorbed the pair, or it split into [l], [kv], [r] and
    its old root awaits release by whoever adopts the halves. *)
Definition absorbed (h : gmap addr BTreeNode) (t : ptree) (par : option addr) (i n : nat)
    (key : K) (value : V) (h' : gmap addr BTreeNode) (t' : ptree) : Prop :=
  root_addr t' = root_addr t ∧ rep h' par i t' ∧ shape n t' ∧ NoDup (addrs t') ∧
  inorder t' = ins key value (inorder t) ∧
  (∀ x, x ∈ addrs t' → x ∈ addrs t ∨ h !! x = None) ∧
  (∀ x, x ∉ addrs t → is_Some (h !! x) → h' !! x = h !! x).

Definition overflowed (h : gmap addr BTreeNode) (t : ptree) (par : option addr) (i n : nat)
    (key : K) (value : V) (h1 : gmap addr BTreeNode) (l r : ptree) (kv : K * V) : Prop :=
  (∃ snd, h1 !! root_addr t = Some snd ∧ usage snd = 0 ∧
          parent snd = par ∧ parent_idx snd = i) ∧
  rep h1 par 0 l ∧ rep h1 par 0 r ∧ shape n l ∧ shape n r ∧
  NoDup (addrs l ++ addrs r) ∧ (root_addr t ∉ addrs l ++ addrs r) ∧
  inorder l ++ kv :: inorder r = ins key value (inorder t) ∧
  (∀ x, x ∈ addrs l ++ addrs r → x ∈ addrs t ∨ h !! x = None) ∧
  (∀ x, x ∉ addrs t → is_Some (h !! x) → h1 !! x = h !! x) ∧
  length (slots l) = B - 1 ∧ length (slots r) = B - 1.

Definition pre_shape (n : nat) (kvs : list (K * V)) (cs : list ptree) : Prop :=
  (n = 0 ∧ cs = []) ∨
  (∃ m, n = S m ∧ length cs = S (length kvs) ∧ ∀ c, c ∈ cs → shape m c).

(** The tails of [successor] and [predecessor] on a leaf: climb, then
    report the parent slot or the sentinel. *)
Definition after (fuel : nat) (h : gmap addr BTreeNode) (a : addr) : option iterator :=
  top ← succ_climb fuel h a;
  n ← h !! top;
  match parent n with
  | Some p => Some (mkIter (parent_idx n) (Some p))
  | None => Some (mkIter 0 None)
  end.

Definition before_pos (fuel : nat) (h : gmap addr BTreeNode) (a : addr) : option iterator :=
  top ← pred_climb fuel h a;
  n ← h !! top;
  match parent n with
  | Some p => Some (mkIter (u16 (Z.of_nat (parent_idx n) - 1)) (Some p))
  | None => Some (mkIter 0 None)
  end.

(** Stepping from a position through its node. *)
Definition step_next (fuel : nat) (h : gmap addr BTreeNode) (it : iterator) : option iterator :=
  a ← node it; successor fuel h a (idx it).

Definition step_prev (fuel : nat) (h : gmap addr BTreeNode) (it : iterator) : option iterator :=
  a ← node it; predecessor fuel h a (idx it).

(** A list of positions is linked forwards when every position steps to
    the one after it and the last one to [exit]; backwards likewise. *)
Fixpoint linked (next : iterator → option iterator) (P : list iterator) (exit : iterator)
  : Prop :=
  match P with
  | [] => True
  | it :: P' => next it = Some (hd exit P') ∧ linked next P' exit
  end.

Fixpoint linked_back (prev : iterator → option iterator) (entry : iterator)
    (P : list iterator) : Prop :=
  match P with
  | [] => True
  | it :: P' => prev it = Some entry ∧ linked_back prev it P'
  end.

(** The pair a position dereferences to. *)
Definition at_pos (h : gmap addr BTreeNode) (it : iterator) (kv : K * V) : Prop :=
  deref h it = Some kv.

(** The value most recently inserted for [k] in a history of inserts. *)
Definition latest (k : K) (ops : list (K * V)) : option V :=
  foldl (λ acc kv, if (comp k kv.1 =? 0)%Z then Some kv.2 else acc) None ops.

(** [h'] still has at [a], if anything, a node with the key count that [h]
    has there. *)
Definition usage_kept (a : addr) (h h' : gmap addr BTreeNode) : Prop :=
  ∀ nd', h' !! a = Some nd' → ∃ nd, h !! a = Some nd ∧ usage nd = usage nd'.

(** Every address allocated in [h'] is allocated in [h]. *)
Definition within (h h' : gmap addr BTreeNode) : Prop :=
  ∀ x, is_Some (h' !! x) → is_Some (h !! x).

(** Occupancy: every node of [t] holds at least [B-1] pairs. *)
Inductive dense : ptree → Prop :=
| dense_PT a kvs cs :
    B - 1 ≤ length kvs → (∀ c, c ∈ cs → dense c) → dense (PT a kvs cs).

(** What the two outcomes of an insert below a node with dense subtrees
    say in addition about the store and about occupancy: nothing is
    allocated outside the new tree that was not there outside the old
    one, the nodes below the root stay dense and the root does not
    shrink, and an insert that finds its key moves no position. *)
Definition absorbed_more (h : gmap addr BTreeNode) (t : ptree) (key : K)
    (h' : gmap addr BTreeNode) (t' : ptree) : Prop :=
  (∀ x, is_Some (h' !! x) → x ∉ addrs t' → is_Some (h !! x) ∧ x ∉ addrs t) ∧
  (∀ c, c ∈ subtrees t' → dense c) ∧
  length (slots t) ≤ length (slots t') ∧
  (is_Some (assoc key (inorder t)) → positions t' = positions t).

Definition overflowed_more (h : gmap addr BTreeNode) (t : ptree)
    (h1 : gmap addr BTreeNode) (l r : ptree) : Prop :=
  (∀ x, is_Some (h1 !! x) → (x ∉ addrs l ++ addrs r) → x ≠ root_addr t →
        is_Some (h !! x) ∧ x ∉ addrs t) ∧
  dense l ∧ dense r.

(** The store holds the nodes of the tree and no other, and the nodes
    below the root are dense. *)
Definition tree_tight (t : BTree) (T : ptree) : Prop :=
  (∀ x, is_Some (heap t !! x) → x ∈ addrs T) ∧ (∀ c, c ∈ subtrees T → dense c).

(** [~BTree]: [delete root]. *)
Definition BTree_destroy (t : BTree) : option (gmap addr BTreeNode) :=
  destroy (gas t) (heap t) (root t).

(** The invariant between operations with the store accounted for. *)
Definition tree_inv_more (t : BTree) (l : list (K * V)) : Prop :=
  match root t with
  | None => l = [] ∧ heap t = ∅
  | Some _ => ∃ n T, tree_rep t T n ∧ tree_tight t T ∧ inorder T = l
  end.

(** ** Proofs *)

(** Standing assumptions: a branching factor of at least two ([B = 1]
    passes the program's [static_assert(B > 0)] but leaves a node no room
    to split), the program's [static_assert(2 * B < FOUND)], and a
    comparator that meets its contract. *)
Hypothesis B_min : 2 ≤ B.
Hypothesis B_max : (2 * Z.of_nat B < 65536)%Z.
Hypothesis comp_ok : Contract.

(** *** Flags and [uint16_t] *)

Lemma land_pow2_small (i n : Z) :
  (0 ≤ n)%Z → (0 ≤ i < 2 ^ n)%Z → Z.land i (2 ^ n) = 0%Z.
Proof.
  intros Hn Hi. apply Z.bits_inj'. intros m Hm.
  rewrite Z.land_spec, Z.bits_0, Z.pow2_bits_eqb by lia.
  destruct (Z.eqb_spec n m) as [->|]; [|apply andb_false_r].
  rewrite andb_true_r.
  destruct (Z.eq_dec i 0) as [->|]; [apply Z.bits_0|].
  apply Z.bits_above_log2; [lia|]. apply Z.log2_lt_pow2; lia.
Qed.

Lemma flag_godown_found i :
  (0 ≤ i < 65536)%Z → Z.land (Z.lor GO_DOWN i) FOUND = 0%Z.
Proof.
  intros Hi. rewrite Z.land_lor_distr_l.
  change FOUND with (2 ^ 16)%Z. rewrite (land_pow2_small i 16) by lia. reflexivity.
Qed.

Lemma flag_found_found i :
  (0 ≤ i < 65536)%Z → Z.land (Z.lor FOUND i) FOUND = FOUND.
Proof.
  intros Hi. rewrite Z.land_lor_distr_l.
  change FOUND with (2 ^ 16)%Z. rewrite (land_pow2_small i 16) by lia. reflexivity.
Qed.

Lemma flag_found_mask i :
  (0 ≤ i < 65536)%Z → Z.land (Z.lor FOUND i) FOUND_MASK = i.
Proof.
  intros Hi. rewrite Z.land_lor_distr_l.
  change FOUND_MASK with (Z.ones 16). rewrite !Z.land_ones by lia.
  change (FOUND mod 2 ^ 16)%Z with 0%Z. rewrite Z.lor_0_l. apply Z.mod_small. lia.
Qed.

Lemma flag_godown_mask i :
  (0 ≤ i < 65536)%Z → Z.land (Z.lor GO_DOWN i) GO_DOWN_MASK = i.
Proof.
  intros Hi. rewrite Z.land_lor_distr_l.
  change GO_DOWN_MASK with (Z.ones 24). rewrite !Z.land_ones by lia.
  change (GO_DOWN mod 2 ^ 24)%Z with 0%Z. rewrite Z.lor_0_l. apply Z.mod_small. lia.
Qed.

Lemma u16_small z : (0 ≤ z < 65536)%Z → u16 z = Z.to_nat z.
Proof. intros. unfold u16. rewrite Z.mod_small; auto. Qed.

Lemma u16_nat n : (Z.of_nat n < 65536)%Z → u16 (Z.of_nat n) = n.
Proof. intros. rewrite u16_small by lia. lia. Qed.

Lemma u16_succ n : (Z.of_nat n < 65535)%Z → u16 (Z.of_nat n + 1) = S n.
Proof. intros. rewrite u16_small by lia. lia. Qed.

Lemma u16_pred n : 0 < n → (Z.of_nat n < 65536)%Z → u16 (Z.of_nat n - 1) = n - 1.
Proof. intros. rewrite u16_small by lia. lia. Qed.

(** *** The comparator and the dictionary *)

Lemma before_irrefl a : ¬ before a a.
Proof.
  unfold before. intros H. pose proof (proj2 (comp_eq comp_ok a a) eq_refl). lia.
Qed.

Lemma before_trans a b c : before a b → before b c → before a c.
Proof. apply comp_ok. Qed.

Lemma comp_pos_before a b : (0 < comp a b)%Z → before b a.
Proof. intros. by apply comp_ok. Qed.

Lemma comp_cases a b :
  (before a b ∧ a ≠ b) ∨ (comp a b = 0%Z ∧ a = b) ∨ (before b a ∧ (0 < comp a b)%Z ∧ a ≠ b).
Proof.
  destruct (Z.lt_trichotomy (comp a b) 0) as [H|[H|H]].
  - left. split; [done|]. intros ->. by apply before_irrefl in H.
  - right; left. split; [done|]. by apply comp_ok.
  - right; right. split; [by apply comp_pos_before|]. split; [done|].
    intros ->. pose proof (proj2 (comp_eq comp_ok b b) eq_refl). lia.
Qed.

Lemma ins_above k v l1 l2 : above k l1 → ins k v (l1 ++ l2) = l1 ++ ins k v l2.
Proof.
  induction 1 as [|[k' v'] l1 Hk _ IH]; [done|]. simpl in *.
  apply comp_ok in Hk.
  destruct (Z.ltb_spec (comp k k') 0); [lia|].
  destruct (Z.eqb_spec (comp k k') 0); [lia|]. by rewrite IH.
Qed.

Lemma ins_below k v l1 l2 : below k l2 → ins k v (l1 ++ l2) = ins k v l1 ++ l2.
Proof.
  intros Hb. induction l1 as [|[k' v'] l1 IH]; simpl.
  - destruct Hb as [|[k' v'] l2 Hk _]; [done|]. simpl in *.
    unfold before in Hk. by destruct (Z.ltb_spec (comp k k') 0); [|lia].
  - destruct (comp k k' <? 0)%Z; [done|].
    destruct (comp k k' =? 0)%Z; [done|]. by rewrite IH.
Qed.

Lemma assoc_above k l1 l2 : above k l1 → assoc k (l1 ++ l2) = assoc k l2.
Proof.
  induction 1 as [|[k' v'] l1 Hk _ IH]; [done|]. simpl in *.
  apply comp_ok in Hk. by destruct (Z.eqb_spec (comp k k') 0); [lia|].
Qed.

Lemma assoc_below k l : below k l → assoc k l = None.
Proof.
  induction 1 as [|[k' v'] l Hk _ IH]; [done|]. simpl in *.
  unfold before in Hk. by destruct (Z.eqb_spec (comp k k') 0); [lia|].
Qed.

Lemma assoc_app_below k l1 l2 : below k l2 → assoc k (l1 ++ l2) = assoc k l1.
Proof.
  intros Hb. induction l1 as [|[k' v'] l1 IH]; simpl.
  - by apply assoc_below.
  - by destruct (comp k k' =? 0)%Z.
Qed.

Lemma ins_keys k v l x : x ∈ (ins k v l).*1 ↔ x = k ∨ x ∈ l.*1.
Proof.
  induction l as [|[k' v'] l IH]; simpl.
  - set_solver.
  - destruct (Z.ltb_spec (comp k k') 0); [set_solver|].
    destruct (Z.eqb_spec (comp k k') 0) as [E|].
    + apply comp_ok in E as ->. set_solver.
    + simpl. rewrite !elem_of_cons, IH. tauto.
Qed.

Lemma ins_ascending k v l : ascending l → ascending (ins k v l).
Proof.
  unfold ascending. induction l as [|[k' v'] l IH]; simpl; intros Hs.
  - repeat constructor.
  - apply StronglySorted_cons in Hs as [Hall Hs].
    destruct (Z.ltb_spec (comp k k') 0).
    + simpl. apply StronglySorted_cons. split.
      * constructor; [done|]. eapply Forall_impl; [done|].
        intros y Hy. by eapply before_trans.
      * by apply StronglySorted_cons.
    + destruct (Z.eqb_spec (comp k k') 0).
      * simpl. by apply StronglySorted_cons.
      * simpl. apply StronglySorted_cons. split; [|by apply IH].
        apply Forall_forall. intros y Hy. apply ins_keys in Hy as [->|Hy].
        -- apply comp_pos_before. lia.
        -- by eapply Forall_forall in Hall.
Qed.


(** *** Lists *)

Lemma interleave_nil_r {X} (cs : list (list X)) : interleave cs [] = concat cs.
Proof. induction cs as [|c cs IH]; simpl; [done|]. by rewrite IH. Qed.

Lemma interleave_cons {X} (c : list X) cs ks :
  interleave (c :: cs) ks = c ++ after_child cs ks.
Proof. by destruct ks. Qed.

Lemma interleave_pairs {X} (cs1 cs2 : list (list X)) ks1 ks2 :
  length cs1 = length ks1 →
  interleave (cs1 ++ cs2) (ks1 ++ ks2) = zipcat cs1 ks1 ++ interleave cs2 ks2.
Proof.
  revert ks1. induction cs1 as [|c cs1 IH]; intros [|k ks1] Hlen; simplify_eq/=; [done|].
  unfold zipcat in *. simpl. rewrite IH by done. by rewrite <-!app_assoc.
Qed.

Lemma interleave_at {X} (cs : list (list X)) ks p :
  p ≤ length ks → p ≤ length cs →
  interleave cs ks = zipcat (take p cs) (take p ks) ++ interleave (drop p cs) (drop p ks).
Proof.
  intros. rewrite <-(take_drop p cs) at 1. rewrite <-(take_drop p ks) at 1.
  apply interleave_pairs. rewrite !length_take. lia.
Qed.

Lemma interleave_mid {X} (cs1 cs2 : list (list X)) ks1 k ks2 :
  length cs1 = S (length ks1) →
  interleave (cs1 ++ cs2) (ks1 ++ k :: ks2)
  = interleave cs1 ks1 ++ k :: interleave cs2 ks2.
Proof.
  revert ks1. induction cs1 as [|c cs1 IH]; intros ks1 Hlen; [done|].
  destruct ks1 as [|k1 ks1]; simpl in *.
  - destruct cs1; [|done]. simpl. by rewrite app_nil_r.
  - rewrite IH by lia. by rewrite <-app_assoc.
Qed.

Lemma zipcat_snoc {X} (cs : list (list X)) ks c k :
  length cs = length ks →
  zipcat (cs ++ [c]) (ks ++ [k]) = zipcat cs ks ++ c ++ [k].
Proof.
  intros. unfold zipcat. rewrite zip_with_app by done. simpl.
  by rewrite concat_app; simpl; rewrite app_nil_r.
Qed.

Lemma in_take {X} (x : X) n l : x ∈ take n l → x ∈ l.
Proof.
  intros [j Hj]%list_elem_of_lookup. apply lookup_take_Some in Hj as [Hj _].
  by eapply list_elem_of_lookup_2.
Qed.

Lemma in_drop {X} (x : X) n l : x ∈ drop n l → x ∈ l.
Proof.
  intros [j Hj]%list_elem_of_lookup. rewrite lookup_drop in Hj.
  by eapply list_elem_of_lookup_2.
Qed.

Lemma insert_at_length {X} p (x : X) l : length (insert_at p x l) = S (length l).
Proof.
  unfold insert_at. rewrite length_app. simpl. rewrite length_take, length_drop. lia.
Qed.

Lemma insert_at_fmap {X Y} (f : X → Y) p x l :
  f <$> insert_at p x l = insert_at p (f x) (f <$> l).
Proof. unfold insert_at. by rewrite fmap_app, fmap_cons, fmap_take, fmap_drop. Qed.

(** *** Arrays *)

Lemma move_store {X} (l : list X) p u x :
  p ≤ u → u < length l →
  ∃ l1 l2, move_backward p u (u + 1) l = Some l1 ∧ length l1 = length l ∧
           store p x l1 = Some l2 ∧ length l2 = length l ∧
           take (S u) l2 = insert_at p x (take u l).
Proof.
  intros Hp Hu. unfold move_backward, store.
  rewrite decide_True by lia.
  replace (u + 1 - (u - p)) with (S p) by lia.
  set (l1 := take (S p) l ++ take (u - p) (drop p l) ++ drop (u + 1) l).
  assert (length l1 = length l) as Hl1.
  { unfold l1. rewrite !length_app, !length_take, !length_drop. lia. }
  exists l1, (<[p := x]> l1). rewrite decide_True by lia.
  rewrite length_insert. repeat split; try done.
  unfold l1, insert_at.
  rewrite insert_app_l by (rewrite length_take; lia).
  assert (is_Some (l !! p)) as [y Hy] by (apply lookup_lt_is_Some; lia).
  rewrite (take_S_r _ _ _ Hy).
  rewrite insert_app_r_alt by (rewrite length_take; lia).
  rewrite length_take, Nat.min_l by lia. rewrite Nat.sub_diag. simpl.
  rewrite take_take, Nat.min_l by lia.
  rewrite <-!app_assoc. simpl.
  rewrite take_app_ge; rewrite length_take, Nat.min_l by lia; [|lia].
  f_equal. replace (S u - p) with (S (u - p)) by lia. simpl. f_equal.
  rewrite take_app_ge; rewrite length_take, length_drop, Nat.min_l by lia; [|lia].
  rewrite Nat.sub_diag, take_0, app_nil_r.
  rewrite take_drop_commute. by replace (p + (u - p)) with u by lia.
Qed.

(** *** Calls of insert with objects of the caller *)

Lemma linear_search_from_ref_read h nd (key : ref K) k i todo :
  read_key h key = Some k →
  linear_search_from_ref h nd key i todo = linear_search_from nd k i todo.
Proof.
  intros Hkey. revert i. induction todo as [|todo IH]; intros i; [done|].
  cbn [linear_search_from_ref linear_search_from]. rewrite Hkey.
  cbn [mbind option_bind].
  destruct (keys nd !! i) as [k0|]; [|done]. cbn [mbind option_bind].
  destruct (comp k k0 <? 0)%Z; [done|]. destruct (comp k k0 =? 0)%Z; [done|]. apply IH.
Qed.

Lemma linear_search_ref_read h nd (key : ref K) k :
  read_key h key = Some k → linear_search_ref h nd key = linear_search nd k.
Proof.
  intros Hkey. unfold linear_search_ref, linear_search.
  destruct (decide _); [by apply linear_search_from_ref_read|done].
Qed.

(** What is read through a reference to an object of the caller does not
    depend on the store, so that the reads drop out of the functions. *)
Lemma insert_local_eq h this position key value :
  insert_local h this position key value
  = (h ← update h this (λ nd,
          vs ← move_backward position (usage nd) (usage nd + 1) (values nd);
          Some (set_values vs nd));
     h ← update h this (λ nd,
          ks ← move_backward position (usage nd) (usage nd + 1) (keys nd);
          Some (set_keys ks nd));
     h ← update h this (λ nd, vs ← store position value (values nd);
                               Some (set_values vs nd));
     h ← update h this (λ nd, ks ← store position key (keys nd);
                               Some (set_keys ks nd));
     update h this (λ nd, Some (set_usage (u16 (Z.of_nat (usage nd) + 1)) nd))).
Proof. reflexivity. Qed.

Lemma BTreeNode_insert_eq up fuel h this key value root :
  BTreeNode_insert up (S fuel) h this key value root
  = (nd ← h !! this;
     res ← linear_search nd key;
     if negb (Z.land res FOUND =? 0)%Z then
       original ← values nd !! Z.to_nat (Z.land res FOUND_MASK);
       vs ← store (Z.to_nat (Z.land res FOUND_MASK)) value (values nd);
       Some (<[this := set_values vs nd]> h, root, Some original)
     else
       if IsInternal nd then
         c ← mjoin (children nd !! Z.to_nat (Z.land res GO_DOWN_MASK));
         BTreeNode_insert up fuel h c key value root
       else
         h ← insert_local h this (Z.to_nat (Z.land res GO_DOWN_MASK)) key value;
         nd ← h !! this;
         if decide (usage nd = 2 * B - 1) then
           '(h, result) ← split h this;
           '(h, root) ← promote up h this result root;
           Some (h, root, None)
         else Some (h, root, None)).
Proof.
  unfold BTreeNode_insert, insert_local. cbn [BTreeNode_insert_ref].
  destruct (h !! this) as [nd|]; [|done]. cbn [mbind option_bind].
  by rewrite (linear_search_ref_read h nd (object key) key).
Qed.

Lemma BTree_insert_eq t key value :
  BTree_insert t key value
  = match root t with
    | None =>
        let '(h, nd_ptr) := alloc (heap t) (new_node false) in
        h ← update h nd_ptr (λ nd, Some (set_usage 1 nd));
        h ← update h nd_ptr (λ nd, ks ← store 0 key (keys nd); Some (set_keys ks nd));
        h ← update h nd_ptr (λ nd, vs ← store 0 value (values nd); Some (set_values vs nd));
        Some (mkTree h (Some nd_ptr), None)
    | Some r =>
        '(h, root', old) ← BTreeNode_insert (gas t) (gas t) (heap t) r key value (root t);
        Some (mkTree h root', old)
    end.
Proof. unfold BTree_insert, BTree_insert_ref. by destruct (root t). Qed.

(** *** linear_search *)

Lemma linear_search_from_spec nd key ks i todo :
  take (usage nd) (keys nd) = ks →
  usage nd ≤ length (keys nd) →
  i + todo = usage nd →
  (∀ j k', j < i → ks !! j = Some k' → (0 < comp key k')%Z) →
  ∃ flag, linear_search_from nd key i todo = Some flag ∧ search_result ks key flag.
Proof.
  intros Hks Hlen. revert i. induction todo as [|todo IH]; intros i Hi Hlt; simpl.
  - eexists. split; [done|]. replace (usage nd) with i by lia.
    apply search_down; [|intros k Hk|done].
    + subst ks. rewrite length_take. lia.
    + subst ks. apply lookup_lt_Some in Hk. rewrite length_take in Hk. lia.
  - assert (is_Some (keys nd !! i)) as [k Hk] by (apply lookup_lt_is_Some; lia).
    rewrite Hk. simpl.
    assert (ks !! i = Some k) as Hk'.
    { subst ks. rewrite lookup_take_lt by lia. done. }
    destruct (Z.ltb_spec (comp key k) 0).
    + eexists. split; [done|]. apply search_down; [|intros k0 ?; by simplify_eq|done].
      apply lookup_lt_Some in Hk'. lia.
    + destruct (Z.eqb_spec (comp key k) 0).
      * eexists. split; [done|]. by eapply search_found.
      * apply IH; [lia|]. intros j k' Hj Hjk.
        destruct (decide (j = i)) as [->|]; [simplify_eq; lia|].
        apply (Hlt j); [lia|done].
Qed.

Lemma linear_search_spec nd par i kvs cas key :
  node_ok nd par i kvs cas → length kvs < 2 * B →
  ∃ flag, linear_search nd key = Some flag ∧ search_result (kvs.*1) key flag.
Proof.
  intros Hok Hlen. unfold linear_search.
  rewrite decide_True by (rewrite (ok_usage _ _ _ _ _ Hok); lia).
  apply linear_search_from_spec.
  - rewrite (ok_usage _ _ _ _ _ Hok). apply Hok.
  - rewrite (ok_usage _ _ _ _ _ Hok), (ok_keys_len _ _ _ _ _ Hok). lia.
  - done.
  - intros; lia.
Qed.

(** Decoding of the flag by the callers. *)
Lemma search_cases ks key flag :
  search_result ks key flag → (Z.of_nat (length ks) < 65536)%Z →
  (∃ p k, ks !! p = Some k ∧ comp key k = 0%Z ∧
        (∀ j k', j < p → ks !! j = Some k' → (0 < comp key k')%Z) ∧
        (Z.land flag FOUND =? 0)%Z = false ∧ Z.to_nat (Z.land flag FOUND_MASK) = p)
  ∨ (∃ p, p ≤ length ks ∧
        (∀ k, ks !! p = Some k → (comp key k < 0)%Z) ∧
        (∀ j k', j < p → ks !! j = Some k' → (0 < comp key k')%Z) ∧
        (Z.land flag FOUND =? 0)%Z = true ∧ Z.to_nat (Z.land flag GO_DOWN_MASK) = p).
Proof.
  intros [p k Hk ? ?|p Hp ? ?] Hlen.
  - left. exists p, k. pose proof (lookup_lt_Some _ _ _ Hk).
    rewrite flag_found_found, flag_found_mask by lia.
    split; [done|]. split; [done|]. split; [done|]. split; [done|lia].
  - right. exists p.
    rewrite flag_godown_found, flag_godown_mask by lia.
    split; [done|]. split; [done|]. split; [done|]. split; [done|lia].
Qed.

Lemma elem_of_concat {X} (x : X) (ls : list (list X)) :
  x ∈ concat ls ↔ ∃ l, x ∈ l ∧ l ∈ ls.
Proof.
  induction ls as [|l ls IH]; simpl.
  - split; [by intros ?%elem_of_nil|]. by intros (? & _ & ?%elem_of_nil).
  - rewrite elem_of_app, IH. split.
    + intros [?|(l' & ? & ?)]; [exists l; split; [done|by left]|].
      exists l'. split; [done|]. by right.
    + intros (l' & ? & [->|?]%elem_of_cons); [by left|]. right. eauto.
Qed.

(** *** Order facts around a slot of a node *)

Lemma ascending_app l1 l2 :
  ascending (l1 ++ l2) ↔
  ascending l1 ∧ ascending l2 ∧ ∀ x y, x ∈ l1 → y ∈ l2 → before x.1 y.1.
Proof.
  unfold ascending. rewrite fmap_app, StronglySorted_app. split.
  - intros (H & ? & ?). split; [done|]. split; [done|]. intros x y Hx Hy.
    apply H; by apply list_elem_of_fmap_2.
  - intros (? & ? & H). split; [|done]. intros a b Ha Hb.
    apply list_elem_of_fmap in Ha as (x & -> & Hx).
    apply list_elem_of_fmap in Hb as (y & -> & Hy). by apply H.
Qed.

Lemma ascending_cons x l :
  ascending (x :: l) ↔ below x.1 l ∧ ascending l.
Proof.
  unfold ascending, below. rewrite fmap_cons, StronglySorted_cons, Forall_fmap. done.
Qed.

Lemma below_head k x l : ascending (x :: l) → before k x.1 → below k (x :: l).
Proof.
  intros [Hb _]%ascending_cons Hk. constructor; [done|].
  eapply Forall_impl; [done|]. intros y Hy. by eapply before_trans.
Qed.

Lemma above_last k x l : ascending (l ++ [x]) → before x.1 k → above k (l ++ [x]).
Proof.
  intros (_ & _ & H)%ascending_app Hk. apply Forall_app. split.
  - apply Forall_forall. intros y Hy. eapply before_trans; [|done].
    apply H; [done|]. by apply list_elem_of_singleton.
  - by constructor.
Qed.

Lemma pre_above {X} (f : X → list (K * V)) kvs (cs : list X) p key rest :
  p ≤ length kvs → p ≤ length cs →
  ascending (zipcat (take p (f <$> cs)) (take p kvs) ++ rest) →
  (∀ j k, j < p → kvs.*1 !! j = Some k → (0 < comp key k)%Z) →
  above key (zipcat (take p (f <$> cs)) (take p kvs)).
Proof.
  intros Hp1 Hp2 Hasc Hlt. destruct p as [|q]; [constructor|].
  assert (is_Some (kvs !! q)) as [x Hx] by (apply lookup_lt_is_Some; lia).
  assert (is_Some ((f <$> cs) !! q)) as [c Hc].
  { apply lookup_lt_is_Some. rewrite length_fmap. lia. }
  rewrite (take_S_r _ _ _ Hx), (take_S_r _ _ _ Hc) in *.
  rewrite zipcat_snoc in * by (rewrite !length_take, length_fmap; lia).
  apply ascending_app in Hasc as (Hasc & _).
  rewrite !app_assoc in *. apply above_last; [done|].
  apply comp_pos_before, (Hlt q); [lia|]. by rewrite list_lookup_fmap, Hx.
Qed.

Lemma leaf_down_facts kvs p key :
  p ≤ length kvs → ascending kvs →
  (∀ k, kvs.*1 !! p = Some k → (comp key k < 0)%Z) →
  (∀ j k, j < p → kvs.*1 !! j = Some k → (0 < comp key k)%Z) →
  above key (take p kvs) ∧ below key (drop p kvs).
Proof.
  intros Hp Hasc Hnext Hprev. split.
  - apply Forall_forall. intros x Hx.
    apply list_elem_of_lookup in Hx as [j Hj].
    apply lookup_take_Some in Hj as [Hj ?].
    apply comp_pos_before, (Hprev j); [done|]. by rewrite list_lookup_fmap, Hj.
  - rewrite <-(take_drop p kvs) in Hasc. apply ascending_app in Hasc as (_ & Hasc & _).
    destruct (drop p kvs) as [|x l] eqn:E; [constructor|].
    apply below_head; [done|]. apply Hnext.
    rewrite list_lookup_fmap. replace p with (p + 0) by lia.
    by rewrite <-lookup_drop, E.
Qed.

Lemma ins_at k v l p :
  above k (take p l) → below k (drop p l) → ins k v l = insert_at p (k, v) l.
Proof.
  intros Ha Hb. rewrite <-(take_drop p l) at 1. rewrite ins_above by done.
  unfold insert_at. f_equal.
  destruct Hb as [|[k' v'] l' Hk _]; [done|]. simpl in *. unfold before in Hk.
  by destruct (Z.ltb_spec (comp k k') 0); [|lia].
Qed.

Lemma assoc_at k l p :
  above k (take p l) → below k (drop p l) → assoc k l = None.
Proof.
  intros Ha Hb. rewrite <-(take_drop p l). rewrite assoc_above by done.
  by apply assoc_below.
Qed.

(** Decomposition of the in-order sequence of an internal node around
    child [p]. *)
Lemma inorder_child a kvs cs p c :
  length cs = S (length kvs) → cs !! p = Some c →
  ∃ pre post,
    pre = zipcat (take p (inorder <$> cs)) (take p kvs) ∧
    post = after_child (inorder <$> drop (S p) cs) (drop p kvs) ∧
    inorder (PT a kvs cs) = pre ++ inorder c ++ post ∧
    (∀ c', inorder (PT a kvs (<[p := c']> cs)) = pre ++ inorder c' ++ post) ∧
    (∀ a' l r kv,
        inorder (PT a' (insert_at p kv kvs) (take p cs ++ l :: r :: drop (S p) cs))
        = pre ++ (inorder l ++ kv :: inorder r) ++ post).
Proof.
  intros Hlen Hc. pose proof (lookup_lt_Some _ _ _ Hc) as Hp.
  eexists _, _. split; [done|]. split; [done|].
  assert (∀ c', interleave (inorder <$> <[p:=c']> cs) kvs =
    zipcat (take p (inorder <$> cs)) (take p kvs) ++ inorder c' ++
    after_child (inorder <$> drop (S p) cs) (drop p kvs)) as Hgen.
  { intros c'. rewrite (interleave_at _ _ p) by (rewrite ?length_fmap, ?length_insert; lia).
    rewrite list_fmap_insert, take_insert_ge by lia. f_equal.
    rewrite drop_insert_ge, Nat.sub_diag by lia.
    rewrite <-fmap_drop. rewrite (drop_S _ _ _ Hc).
    rewrite fmap_cons. cbn -[interleave after_child]. by rewrite interleave_cons. }
  split; [|split].
  - simpl. rewrite <-(Hgen c), list_insert_id; done.
  - intros c'. simpl. apply Hgen.
  - intros a' l r kv. simpl. unfold insert_at.
    rewrite !fmap_app, !fmap_cons.
    rewrite interleave_pairs by (rewrite length_fmap, !length_take; lia).
    rewrite fmap_take. f_equal. simpl. rewrite <-!app_assoc. done.
Qed.

Lemma inorder_child_order a kvs cs p c key :
  length cs = S (length kvs) → cs !! p = Some c →
  ascending (inorder (PT a kvs cs)) →
  (∀ k, kvs.*1 !! p = Some k → (comp key k < 0)%Z) →
  (∀ j k, j < p → kvs.*1 !! j = Some k → (0 < comp key k)%Z) →
  above key (zipcat (take p (inorder <$> cs)) (take p kvs)) ∧
  ascending (inorder c) ∧
  below key (after_child (inorder <$> drop (S p) cs) (drop p kvs)).
Proof.
  intros Hlen Hc Hasc Hnext Hprev.
  pose proof (lookup_lt_Some _ _ _ Hc) as Hp.
  destruct (inorder_child a kvs cs p c Hlen Hc) as (pre & post & -> & -> & E & _).
  rewrite E in Hasc. split; [|split].
  - eapply pre_above; [lia|lia|done|done].
  - apply ascending_app in Hasc as (_ & Hasc & _).
    by apply ascending_app in Hasc as (Hasc & _).
  - apply ascending_app in Hasc as (_ & Hasc & _).
    apply ascending_app in Hasc as (_ & Hasc & _).
    destruct (drop p kvs) as [|x l] eqn:Ed; simpl in *.
    + apply drop_nil_inv in Ed. rewrite drop_ge by lia. constructor.
    + apply below_head; [done|]. apply Hnext.
      rewrite list_lookup_fmap. replace p with (p + 0) by lia.
      by rewrite <-lookup_drop, Ed.
Qed.

(** Decomposition around slot [p] of any node. *)
Lemma inorder_slot a kvs cs p x :
  cs = [] ∨ length cs = S (length kvs) → kvs !! p = Some x →
  ∃ pre post,
    (∀ x', inorder (PT a (<[p := x']> kvs) cs) = pre ++ x' :: post).
Proof.
  intros Hcs Hx. pose proof (lookup_lt_Some _ _ _ Hx) as Hp.
  destruct Hcs as [->|Hlen].
  - exists (take p kvs), (drop (S p) kvs). intros x'. simpl.
    rewrite <-(take_drop_middle (<[p:=x']> kvs) p x') by (by apply list_lookup_insert_eq).
    by rewrite take_insert_ge, drop_insert_lt by lia.
  - assert (is_Some (cs !! p)) as [c Hc] by (apply lookup_lt_is_Some; lia).
    exists (zipcat (take p (inorder <$> cs)) (take p kvs) ++ inorder c),
           (interleave (inorder <$> drop (S p) cs) (drop (S p) kvs)).
    intros x'. simpl.
    rewrite (interleave_at _ _ p) by (rewrite ?length_fmap, ?length_insert; lia).
    rewrite take_insert_ge by lia. rewrite <-app_assoc. f_equal.
    rewrite drop_insert_ge, Nat.sub_diag by lia.
    rewrite <-fmap_drop, (drop_S _ _ _ Hc), (drop_S _ _ _ Hx). done.
Qed.

Lemma found_facts l1 x l2 key v :
  ascending (l1 ++ x :: l2) → comp key x.1 = 0%Z →
  ins key v (l1 ++ x :: l2) = l1 ++ (x.1, v) :: l2 ∧
  assoc key (l1 ++ x :: l2) = Some x.2.
Proof.
  intros Hasc Hk. pose proof Hk as ->%comp_ok.
  assert (above x.1 l1) as Ha.
  { apply ascending_app in Hasc as (_ & _ & H). apply Forall_forall.
    intros y Hy. apply H; [done|]. by left. }
  rewrite ins_above, assoc_above by done. destruct x as [k' v']. simpl in *.
  destruct (Z.ltb_spec (comp k' k') 0); [lia|].
  by destruct (Z.eqb_spec (comp k' k') 0).
Qed.

Lemma inorder_leaf a kvs : inorder (PT a kvs []) = kvs.
Proof. done. Qed.

Local Arguments inorder : simpl never.
Local Arguments positions : simpl never.

(** *** The representation relation *)

Lemma node_ok_child nd par i kvs cas p c :
  node_ok nd par i kvs cas → cas !! p = Some c →
  children nd !! p = Some (Some c).
Proof.
  intros Hok Hc. pose proof (lookup_lt_Some _ _ _ Hc).
  rewrite <-(lookup_take_lt _ (length cas)) by done.
  by rewrite (ok_children _ _ _ _ _ Hok), list_lookup_fmap, Hc.
Qed.

Lemma node_ok_leaf nd par i kvs : node_ok nd par i kvs [] → IsInternal nd = false.
Proof. intros Hok. by rewrite (ok_internal _ _ _ _ _ Hok). Qed.

Lemma node_ok_internal nd par i kvs cas :
  node_ok nd par i kvs cas → cas ≠ [] → IsInternal nd = true.
Proof.
  intros Hok ?. rewrite (ok_internal _ _ _ _ _ Hok). by apply bool_decide_eq_true.
Qed.

Lemma addrs_root t : root_addr t ∈ addrs t.
Proof. destruct t. simpl. by left. Qed.

Lemma addrs_child a kvs cs c x :
  c ∈ cs → x ∈ addrs c → x ∈ addrs (PT a kvs cs).
Proof.
  intros Hc Hx. simpl. right. apply elem_of_concat. exists (addrs c).
  split; [done|]. by apply list_elem_of_fmap_2.
Qed.

Lemma addrs_inv a kvs cs x :
  x ∈ addrs (PT a kvs cs) → x = a ∨ ∃ c, c ∈ cs ∧ x ∈ addrs c.
Proof.
  simpl. intros [->|Hx]%elem_of_cons; [by left|]. right.
  apply elem_of_concat in Hx as (l & Hx & Hl).
  apply list_elem_of_fmap in Hl as (c & -> & Hc). eauto.
Qed.

Lemma rep_root h par i t :
  rep h par i t →
  ∃ nd, h !! root_addr t = Some nd ∧
        node_ok nd par i (slots t) (root_addr <$> subtrees t).
Proof. destruct 1; eauto. Qed.

Lemma rep_child h par i a kvs cs j c :
  rep h par i (PT a kvs cs) → cs !! j = Some c → rep h (Some a) j c.
Proof. inversion 1; eauto. Qed.

Lemma rep_dom h par i t x : rep h par i t → x ∈ addrs t → is_Some (h !! x).
Proof.
  induction 1 as [par i a kvs cs nd Ha Hok _ IH]. intros Hx.
  apply addrs_inv in Hx as [->|(c & Hc & Hx)]; [eauto|].
  apply list_elem_of_lookup in Hc as [j Hj]. eauto.
Qed.

Lemma rep_ext h h' par i t :
  rep h par i t → (∀ x, x ∈ addrs t → h' !! x = h !! x) → rep h' par i t.
Proof.
  induction 1 as [par i a kvs cs nd Ha Hok _ IH]. intros Hext.
  apply rep_PT with nd; [|done|].
  - rewrite Hext; [done|]. by left.
  - intros j c Hc. apply (IH j c Hc). intros x Hx. apply Hext.
    eapply addrs_child; [|done]. by eapply list_elem_of_lookup_2.
Qed.

Lemma NoDup_addrs_root a kvs cs c :
  NoDup (addrs (PT a kvs cs)) → c ∈ cs → a ∉ addrs c.
Proof.
  simpl. intros [Ha _]%NoDup_cons Hc Hin. apply Ha.
  apply elem_of_concat. exists (addrs c). split; [done|].
  by apply list_elem_of_fmap_2.
Qed.

Lemma NoDup_concat_lookup {X} (ls : list (list X)) j l :
  NoDup (concat ls) → ls !! j = Some l → NoDup l.
Proof.
  revert j. induction ls as [|l0 ls IH]; intros j Hnd Hj; [done|].
  simpl in Hnd. apply NoDup_app in Hnd as (? & _ & ?).
  destruct j; simplify_eq/=; eauto.
Qed.

Lemma NoDup_concat_disjoint {X} (ls : list (list X)) j1 j2 l1 l2 x :
  NoDup (concat ls) → ls !! j1 = Some l1 → ls !! j2 = Some l2 →
  x ∈ l1 → x ∈ l2 → j1 = j2.
Proof.
  revert j1 j2. induction ls as [|l0 ls IH]; intros j1 j2 Hnd H1 H2 Hx1 Hx2; [done|].
  simpl in Hnd. apply NoDup_app in Hnd as (? & Hdis & ?).
  destruct j1, j2; simplify_eq/=; auto.
  - exfalso. eapply Hdis; [exact Hx1|]. apply elem_of_concat.
    exists l2. split; [done|]. by eapply list_elem_of_lookup_2.
  - exfalso. eapply Hdis; [exact Hx2|]. apply elem_of_concat.
    exists l1. split; [done|]. by eapply list_elem_of_lookup_2.
Qed.

Lemma NoDup_addrs_child a kvs cs j c :
  NoDup (addrs (PT a kvs cs)) → cs !! j = Some c → NoDup (addrs c).
Proof.
  simpl. intros [_ Hnd]%NoDup_cons Hc.
  eapply NoDup_concat_lookup; [done|]. by rewrite list_lookup_fmap, Hc.
Qed.

Lemma NoDup_addrs_disjoint a kvs cs j1 j2 c1 c2 x :
  NoDup (addrs (PT a kvs cs)) → cs !! j1 = Some c1 → cs !! j2 = Some c2 →
  x ∈ addrs c1 → x ∈ addrs c2 → j1 = j2.
Proof.
  simpl. intros [_ Hnd]%NoDup_cons H1 H2.
  eapply NoDup_concat_disjoint; [done| |]; by rewrite list_lookup_fmap, ?H1, ?H2.
Qed.

(** Re-stamping the root of a represented subtree. *)
Lemma rep_restamp h h' par i par' i' t nd :
  rep h par i t → NoDup (addrs t) →
  h !! root_addr t = Some nd →
  h' !! root_addr t = Some (set_parent_idx i' (set_parent par' nd)) →
  (∀ x, x ∈ addrs t → x ≠ root_addr t → h' !! x = h !! x) →
  rep h' par' i' t.
Proof.
  intros Hrep Hnd Hnd1 Hnd2 Hext. destruct Hrep as [par i a kvs cs nd0 Ha Hok Hcs].
  simpl in *. simplify_eq. econstructor; [done| |].
  - destruct Hok. by constructor.
  - intros j c Hc. eapply rep_ext; [by eapply Hcs|].
    pose proof (list_elem_of_lookup_2 _ _ _ Hc) as Hc'.
    intros x Hx. apply Hext.
    + right. apply elem_of_concat. eexists. split; [done|].
      by apply list_elem_of_fmap_2.
    + intros ->. by eapply (NoDup_addrs_root _ kvs cs c).
Qed.

Lemma shape_height n t : shape n t → n < length (addrs t).
Proof.
  induction 1 as [a kvs|n a kvs cs Hk Hlen _ IH]; simpl; [lia|].
  destruct cs as [|c cs]; [done|].
  specialize (IH c ltac:(by left)). simpl. rewrite length_app. lia.
Qed.

Lemma shape_slots n t : shape n t → 1 ≤ length (slots t) ≤ 2 * B - 2.
Proof. by destruct 1. Qed.

Lemma shape_arity n t :
  shape n t → subtrees t = [] ∨ length (subtrees t) = S (length (slots t)).
Proof. destruct 1; eauto. Qed.

(** *** member *)


(** *** Store updates *)

Ltac lookups :=
  repeat first
    [ rewrite lookup_insert_eq
    | rewrite lookup_insert_ne by (done || congruence)
    | rewrite lookup_delete_eq
    | rewrite lookup_delete_ne by (done || congruence) ].

Lemma update_eq h a f nd nd' :
  h !! a = Some nd → f nd = Some nd' → update h a f = Some (<[a := nd']> h).
Proof. intros Ha Hf. unfold update. by rewrite Ha; simpl; rewrite Hf. Qed.

Lemma child_eq h a nd j c :
  h !! a = Some nd → children nd !! j = Some (Some c) → child h a j = Some c.
Proof. intros Ha Hc. unfold child. by rewrite Ha; simpl; rewrite Hc. Qed.

Lemma write_parent_eq h a nd q :
  h !! a = Some nd → write_parent h (Some a) q = Some (<[a := set_parent q nd]> h).
Proof. intros Ha. unfold write_parent. simpl. by rewrite Ha. Qed.

Lemma write_idx_eq h a nd j :
  h !! a = Some nd → (Z.of_nat j < 65536)%Z →
  write_idx h (Some a) j = Some (<[a := set_parent_idx j nd]> h).
Proof. intros Ha Hj. unfold write_idx. simpl. by rewrite Ha, u16_nat. Qed.

Lemma destroy_stale fuel h a nd :
  h !! a = Some nd → usage nd = 0 → destroy (S fuel) h (Some a) = Some (delete a h).
Proof.
  intros Ha Hu. simpl. rewrite Ha. simpl. rewrite Hu, andb_false_r. simpl.
  by rewrite Ha.
Qed.

Lemma set_parent_id nd p : parent nd = p → set_parent p nd = nd.
Proof. intros <-. by destruct nd. Qed.

(** *** The re-stamping loop of [split] *)

Lemma split_restamp_spec l r ln rn lcs rcs todo : ∀ i h,
  NoDup (l :: r :: lcs ++ rcs) →
  length lcs = i + todo → length rcs = i + todo →
  (Z.of_nat (i + todo) < 65536)%Z →
  h !! l = Some ln → h !! r = Some rn →
  (∀ j c, lcs !! j = Some c → children ln !! j = Some (Some c)) →
  (∀ j c, rcs !! j = Some c → children rn !! j = Some (Some c)) →
  (∀ j c, i ≤ j → lcs !! j = Some c → is_Some (h !! c)) →
  (∀ j c, i ≤ j → rcs !! j = Some c → is_Some (h !! c)) →
  ∃ h', split_restamp h l r i todo = Some h' ∧
    (∀ j c, i ≤ j → lcs !! j = Some c →
            ∃ cn, h !! c = Some cn ∧ h' !! c = Some (stamp l j cn)) ∧
    (∀ j c, i ≤ j → rcs !! j = Some c →
            ∃ cn, h !! c = Some cn ∧ h' !! c = Some (stamp r j cn)) ∧
    (∀ x, (∀ j, i ≤ j → lcs !! j ≠ Some x) → (∀ j, i ≤ j → rcs !! j ≠ Some x) →
          h' !! x = h !! x).
Proof.
  induction todo as [|todo IH]; intros i h Hnd Hll Hlr Hmax Hl Hr Hlc Hrc Hlh Hrh.
  - exists h. split; [done|]. split; [|split; [|done]].
    + intros j c Hj Hc. apply lookup_lt_Some in Hc. lia.
    + intros j c Hj Hc. apply lookup_lt_Some in Hc. lia.
  - assert (is_Some (lcs !! i)) as [cl Hcl] by (apply lookup_lt_is_Some; lia).
    assert (is_Some (rcs !! i)) as [cr Hcr] by (apply lookup_lt_is_Some; lia).
    destruct (Hlh i cl) as [cln Hcln]; [lia|done|].
    destruct (Hrh i cr) as [crn Hcrn]; [lia|done|].
    assert (∀ j c, lcs !! j = Some c → c ≠ l ∧ c ≠ r) as Hlne.
    { intros j c Hc. apply NoDup_cons in Hnd as [Hnl Hnd]. apply NoDup_cons in Hnd as [Hnr _].
      pose proof (list_elem_of_lookup_2 _ _ _ Hc).
      split; intros ->; [apply Hnl|apply Hnr]; set_solver. }
    assert (∀ j c, rcs !! j = Some c → c ≠ l ∧ c ≠ r) as Hrne.
    { intros j c Hc. apply NoDup_cons in Hnd as [Hnl Hnd]. apply NoDup_cons in Hnd as [Hnr _].
      pose proof (list_elem_of_lookup_2 _ _ _ Hc).
      split; intros ->; [apply Hnl|apply Hnr]; set_solver. }
    assert (NoDup (lcs ++ rcs)) as Hnd' by (by do 2 apply NoDup_cons in Hnd as [_ Hnd]).
    assert (∀ j1 j2 c, lcs !! j1 = Some c → rcs !! j2 = Some c → False) as Hcross.
    { intros j1 j2 c H1 H2. apply NoDup_app in Hnd' as (_ & Hd & _).
      eapply Hd; by eapply list_elem_of_lookup_2. }
    assert (∀ j1 j2 c, lcs !! j1 = Some c → lcs !! j2 = Some c → j1 = j2) as Hlinj.
    { intros j1 j2 c. apply NoDup_app in Hnd' as (Hd & _ & _). by apply NoDup_lookup. }
    assert (∀ j1 j2 c, rcs !! j1 = Some c → rcs !! j2 = Some c → j1 = j2) as Hrinj.
    { intros j1 j2 c. apply NoDup_app in Hnd' as (_ & _ & Hd). by apply NoDup_lookup. }
    destruct (Hlne _ _ Hcl) as [? ?]. destruct (Hrne _ _ Hcr) as [? ?].
    assert (cl ≠ cr) by (intros ->; eauto).
    simpl.
    rewrite (child_eq h l ln i cl) by eauto.
    rewrite (write_parent_eq _ _ cln) by done. simpl.
    erewrite (child_eq _ l ln i cl); [|by rewrite lookup_insert_ne|eauto].
    erewrite write_idx_eq; [|by rewrite lookup_insert_eq|lia]. simpl.
    rewrite insert_insert_eq.
    erewrite (child_eq _ r rn i cr); [|by rewrite lookup_insert_ne|eauto].
    erewrite write_parent_eq; [|by rewrite lookup_insert_ne]. simpl.
    erewrite (child_eq _ r rn i cr); [|by rewrite !lookup_insert_ne|eauto].
    erewrite write_idx_eq; [|by rewrite lookup_insert_eq|lia]. simpl.
    rewrite insert_insert_eq.
    fold (stamp l i cln). fold (stamp r i crn).
    set (h4 := <[cr := stamp r i crn]> (<[cl := stamp l i cln]> h)).
    destruct (IH (S i) h4) as (h' & -> & Hl' & Hr' & Hothers); try done; try lia.
    { unfold h4. by rewrite !lookup_insert_ne. }
    { unfold h4. by rewrite !lookup_insert_ne. }
    { intros j c Hj Hc. unfold h4.
      rewrite !lookup_insert_ne; [eapply Hlh; [|done]; lia| |].
      - intros ->. assert (i = j) by eauto. lia.
      - intros ->. eauto. }
    { intros j c Hj Hc. unfold h4.
      rewrite !lookup_insert_ne; [eapply Hrh; [|done]; lia| |].
      - intros ->. eauto.
      - intros ->. assert (i = j) by eauto. lia. }
    exists h'. split; [done|]. split; [|split].
    + intros j c Hj Hc. destruct (decide (j = i)) as [->|Hne].
      * simplify_eq. exists cln. split; [done|]. rewrite Hothers.
        -- unfold h4. by rewrite lookup_insert_ne, lookup_insert_eq.
        -- intros j Hj' Hc'. assert (i = j) by eauto. lia.
        -- intros j Hj' Hc'. eauto.
      * destruct (Hl' j c) as (cn & Hcn & Hcn'); [lia|done|].
        exists cn. split; [|done]. unfold h4 in Hcn.
        rewrite !lookup_insert_ne in Hcn; [done| |].
        -- intros ->. assert (i = j) by eauto. lia.
        -- intros ->. eauto.
    + intros j c Hj Hc. destruct (decide (j = i)) as [->|Hne].
      * simplify_eq. exists crn. split; [done|]. rewrite Hothers.
        -- unfold h4. by rewrite lookup_insert_eq.
        -- intros j Hj' Hc'. eauto.
        -- intros j Hj' Hc'. assert (i = j) by eauto. lia.
      * destruct (Hr' j c) as (cn & Hcn & Hcn'); [lia|done|].
        exists cn. split; [|done]. unfold h4 in Hcn.
        rewrite !lookup_insert_ne in Hcn; [done| |].
        -- intros ->. eauto.
        -- intros ->. assert (i = j) by eauto. lia.
    + intros x Hxl Hxr. rewrite Hothers.
      * unfold h4. rewrite !lookup_insert_ne; [done| |].
        -- intros ->. by eapply (Hxl i).
        -- intros ->. by eapply (Hxr i).
      * intros j Hj. apply Hxl. lia.
      * intros j Hj. apply Hxr. lia.
Qed.

(** *** split *)

Lemma copy_range_eq {X} first last (src dst : list X) :
  first ≤ last → last ≤ length src → last - first ≤ length dst →
  copy_range first last src dst
  = Some (take (last - first) (drop first src) ++ drop (last - first) dst).
Proof. intros. unfold copy_range. by rewrite decide_True. Qed.

Lemma prefix_left {X} (src pad : list X) n m xs :
  take m src = xs → n ≤ m → m ≤ length src →
  take n (take n src ++ pad) = take n xs.
Proof.
  intros <- ? ?. rewrite take_app_le by (rewrite length_take; lia).
  rewrite !take_take. f_equal. lia.
Qed.

Lemma prefix_right {X} (src pad : list X) b n m xs :
  take m src = xs → b + n = m → m ≤ length src →
  take n (take n (drop b src) ++ pad) = drop b xs.
Proof.
  intros <- <- ?. rewrite take_app_le by (rewrite length_take, length_drop; lia).
  rewrite take_take, Nat.min_id. apply take_drop_commute.
Qed.

Lemma split_node h this nd par i kvs cas :
  h !! this = Some nd → node_ok nd par i kvs cas →
  length kvs = 2 * B - 1 →
  (cas = [] ∨ length cas = 2 * B) →
  (∀ c, c ∈ cas → is_Some (h !! c)) →
  NoDup (this :: cas) →
  ∃ h' l r kv,
    split h this = Some (h', mkSplit l r kv.1 kv.2) ∧
    kvs !! (B - 1) = Some kv ∧
    h !! l = None ∧ h !! r = None ∧ l ≠ r ∧
    h' !! this = Some (set_usage 0 nd) ∧
    (∃ lnd, h' !! l = Some lnd ∧ node_ok lnd par 0 (take (B - 1) kvs) (take B cas)) ∧
    (∃ rnd, h' !! r = Some rnd ∧ node_ok rnd par 0 (drop B kvs) (drop B cas)) ∧
    (∀ j c, take B cas !! j = Some c →
            ∃ cn, h !! c = Some cn ∧ h' !! c = Some (stamp l j cn)) ∧
    (∀ j c, drop B cas !! j = Some c →
            ∃ cn, h !! c = Some cn ∧ h' !! c = Some (stamp r j cn)) ∧
    (∀ x, x ≠ this → x ≠ l → x ≠ r → x ∉ cas → h' !! x = h !! x).
Proof.
  intros Hthis Hok Hlen Hcas Hdom Hnd.
  pose proof (ok_usage _ _ _ _ _ Hok) as Hu.
  pose proof (ok_keys_len _ _ _ _ _ Hok) as Hkl.
  pose proof (ok_values_len _ _ _ _ _ Hok) as Hvl.
  pose proof (ok_keys _ _ _ _ _ Hok) as Hks.
  pose proof (ok_values _ _ _ _ _ Hok) as Hvs.
  pose proof (ok_children_len _ _ _ _ _ Hok) as Hcl.
  pose proof (ok_children _ _ _ _ _ Hok) as Hcs.
  pose proof (ok_internal _ _ _ _ _ Hok) as Hint.
  assert (is_Some (kvs !! (B - 1))) as [kv Hkv] by (apply lookup_lt_is_Some; lia).
  unfold split. rewrite Hthis. simpl. rewrite decide_True by lia.
  unfold alloc.
  set (l := fresh (dom h)).
  set (r := fresh (dom (<[l := new_node (IsInternal nd)]> h))).
  assert (h !! l = None) as Hl by (apply not_elem_of_dom, is_fresh).
  assert (r ∉ dom (<[l := new_node (IsInternal nd)]> h)) as Hr' by apply is_fresh.
  assert (h !! r = None ∧ l ≠ r) as [Hr Hlr].
  { rewrite dom_insert in Hr'. split; [apply not_elem_of_dom|]; set_solver. }
  assert (this ≠ l) by (intros ->; congruence).
  assert (this ≠ r) by (intros ->; congruence).
  assert (keys nd !! (B - 1) = Some kv.1) as Hk1.
  { rewrite <-(lookup_take_lt _ (length kvs)) by lia.
    by rewrite Hks, list_lookup_fmap, Hkv. }
  assert (values nd !! (B - 1) = Some kv.2) as Hv1.
  { rewrite <-(lookup_take_lt _ (length kvs)) by lia.
    by rewrite Hvs, list_lookup_fmap, Hkv. }
  destruct (IsInternal nd) eqn:Hi;
    cbn [keys values children set_parent set_usage set_keys set_values new_node
         IsInternal parent usage parent_idx];
    rewrite !copy_range_eq by (rewrite ?length_replicate; lia);
    cbn [mbind option_bind].
  2:{ (* leaf *)
    assert (cas = []) as ->.
    { destruct cas; [done|]. by rewrite bool_decide_eq_true_2 in Hint. }
    rewrite Hk1, Hv1. cbn [mbind option_bind].
    eexists _, l, r, kv. split; [done|]. split; [done|].
    split; [done|]. split; [done|]. split; [done|].
    split; [by rewrite lookup_insert_eq|].
    split; [|split; [|split; [|split]]].
    - eexists. split; [by rewrite lookup_insert_ne, lookup_insert_ne, lookup_insert_eq|].
      constructor; simpl; rewrite ?Nat.sub_0_r, ?drop_0, ?length_app, ?length_take,
        ?length_drop, ?length_replicate, ?take_nil; try done; try lia.
      + rewrite Nat.min_l, fmap_take by lia. eapply prefix_left; [done|lia..].
      + rewrite Nat.min_l, fmap_take by lia. eapply prefix_left; [done|lia..].
      + by destruct Hok.
    - eexists. split; [by rewrite lookup_insert_ne, lookup_insert_eq|].
      constructor; simpl; rewrite ?Nat.sub_0_r, ?drop_0, ?length_app, ?length_take,
        ?length_drop, ?length_replicate, ?drop_nil; try done; try lia.
      + rewrite fmap_drop. replace (length kvs - B) with (length kvs - B - 0) by lia.
        replace (length kvs - B - 0) with (usage nd - B) at 1 by lia.
        eapply prefix_right; [done|lia..].
      + rewrite fmap_drop. replace (length kvs - B) with (length kvs - B - 0) by lia.
        replace (length kvs - B - 0) with (usage nd - B) at 1 by lia.
        eapply prefix_right; [done|lia..].
      + by destruct Hok.
    - intros j c Hc. by rewrite take_nil in Hc.
    - intros j c Hc. by rewrite drop_nil in Hc.
    - intros x ? ? ? _. by rewrite !lookup_insert_ne. }
  (* internal *)
  assert (length cas = 2 * B) as Hcl2.
  { destruct Hcas as [->|]; [|done]. by rewrite bool_decide_eq_false_2 in Hint by auto. }
  assert (cas ≠ []) as Hne by (intros ->; simpl in *; lia).
  rewrite ?Nat.sub_0_r, ?drop_0.
  match goal with |- context [split_restamp (<[r := ?rn]> (<[l := ?ln]> ?hh))] =>
    set (lnd := ln); set (rnd := rn); set (h0 := hh) end.
  assert (∀ c, c ∈ cas → c ≠ this ∧ c ≠ l ∧ c ≠ r) as Hcne.
  { intros c Hc. destruct (Hdom c Hc) as [cn Hcn].
    split; [|split]; intros ->; [|congruence..].
    apply NoDup_cons in Hnd as [Hnd _]. done. }
  assert (∀ c, c ∈ cas → (<[r:=rnd]> (<[l:=lnd]> h0)) !! c = h !! c) as Hsame.
  { intros c Hc. destruct (Hcne c Hc) as (? & ? & ?).
    unfold h0. by rewrite !lookup_insert_ne. }
  destruct (split_restamp_spec l r lnd rnd (take B cas) (drop B cas) B 0
              (<[r:=rnd]> (<[l:=lnd]> h0)))
    as (h' & -> & Hl2 & Hr2 & Hothers).
  { rewrite take_drop. apply NoDup_cons in Hnd as [_ Hnd].
    apply NoDup_cons. split.
    - intros [Heq|Hin]%elem_of_cons; [done|]. by destruct (Hcne _ Hin) as (_ & ? & _).
    - apply NoDup_cons. split; [|done].
      intros Hin. by destruct (Hcne _ Hin) as (_ & _ & ?). }
  { rewrite length_take. lia. }
  { rewrite length_drop. lia. }
  { lia. }
  { by rewrite lookup_insert_ne, lookup_insert_eq. }
  { by rewrite lookup_insert_eq. }
  { intros j c Hc. apply lookup_take_Some in Hc as [Hc Hj]. unfold lnd. simpl.
    rewrite lookup_app_l by (rewrite length_take; lia).
    rewrite lookup_take_lt by done. by eapply node_ok_child. }
  { intros j c Hc. rewrite lookup_drop in Hc. unfold rnd. simpl.
    pose proof (lookup_lt_Some _ _ _ Hc).
    rewrite lookup_app_l by (rewrite length_take, length_drop; lia).
    rewrite lookup_take_lt, lookup_drop by lia. by eapply node_ok_child. }
  { intros j c _ Hc. rewrite Hsame; [apply Hdom|];
      apply lookup_take_Some in Hc as [Hc _]; by eapply list_elem_of_lookup_2. }
  { intros j c _ Hc. rewrite lookup_drop in Hc.
    rewrite Hsame; [apply Hdom|]; by eapply list_elem_of_lookup_2. }
  rewrite Hk1, Hv1. cbn [mbind option_bind].
  assert (∀ x, x ∉ cas → h' !! x = (<[r:=rnd]> (<[l:=lnd]> h0)) !! x) as Hout.
  { intros x Hx. apply Hothers.
    - intros j _ Hc. apply Hx. apply lookup_take_Some in Hc as [Hc _].
      by eapply list_elem_of_lookup_2.
    - intros j _ Hc. apply Hx. rewrite lookup_drop in Hc.
      by eapply list_elem_of_lookup_2. }
  assert ((this ∉ cas) ∧ (l ∉ cas) ∧ (r ∉ cas)) as (? & ? & ?).
  { split; [|split]; intros Hin; by destruct (Hcne _ Hin) as (? & ? & ?). }
  eexists _, l, r, kv. split; [done|]. split; [done|].
  split; [done|]. split; [done|]. split; [done|].
  split.
  { rewrite Hout by done. unfold h0.
    rewrite lookup_insert_ne, lookup_insert_ne by done. by rewrite lookup_insert_eq. }
  split; [|split; [|split; [|split]]].
  - exists lnd. split.
    { rewrite Hout by done. by rewrite lookup_insert_ne, lookup_insert_eq. }
    constructor; unfold lnd; simpl; rewrite ?length_app, ?length_take,
        ?length_drop, ?length_replicate; try done; try lia.
    + rewrite Nat.min_l, fmap_take by lia. eapply prefix_left; [done|lia..].
    + rewrite Nat.min_l, fmap_take by lia. eapply prefix_left; [done|lia..].
    + by destruct Hok.
    + rewrite bool_decide_eq_true_2; [done|].
      intros Hnil. apply (f_equal length) in Hnil. rewrite length_take in Hnil.
      simpl in Hnil. lia.
    + rewrite Nat.min_l, fmap_take by lia. eapply prefix_left; [done|lia..].
  - exists rnd. split.
    { rewrite Hout by done. by rewrite lookup_insert_eq. }
    constructor; unfold rnd; simpl; rewrite ?length_app, ?length_take,
        ?length_drop, ?length_replicate; try done; try lia.
    + rewrite fmap_drop. replace (length kvs - B) with (length kvs - B - 0) by lia.
      replace (length kvs - B - 0) with (usage nd - B) at 1 by lia.
      eapply prefix_right; [done|lia..].
    + rewrite fmap_drop. replace (length kvs - B) with (length kvs - B - 0) by lia.
      replace (length kvs - B - 0) with (usage nd - B) at 1 by lia.
      eapply prefix_right; [done|lia..].
    + by destruct Hok.
    + rewrite bool_decide_eq_true_2; [done|].
      intros Hnil. apply (f_equal length) in Hnil. rewrite length_drop in Hnil.
      simpl in Hnil. lia.
    + rewrite fmap_drop. replace (length cas - B) with (B + B - B) by lia.
      eapply prefix_right; [done|lia..].
  - intros j c Hc. destruct (Hl2 j c) as (cn & Hcn & Hcn'); [lia|done|].
    exists cn. split; [|done]. rewrite <-Hsame; [done|].
    apply lookup_take_Some in Hc as [Hc _]. by eapply list_elem_of_lookup_2.
  - intros j c Hc. destruct (Hr2 j c) as (cn & Hcn & Hcn'); [lia|done|].
    exists cn. split; [|done]. rewrite <-Hsame; [done|].
    rewrite lookup_drop in Hc. by eapply list_elem_of_lookup_2.
  - intros x ? ? ? Hx. rewrite Hout by done. unfold h0.
    by rewrite !lookup_insert_ne.
Qed.

Lemma NoDup_roots cs : NoDup (concat (addrs <$> cs)) → NoDup (root_addr <$> cs).
Proof.
  induction cs as [|c cs IH]; simpl; [constructor|].
  intros (Hc & Hdis & Hcs)%NoDup_app. apply NoDup_cons. split; [|auto].
  intros Hin. apply list_elem_of_fmap in Hin as (c' & Heq & Hc').
  apply (Hdis (root_addr c)); [apply addrs_root|].
  apply elem_of_concat. exists (addrs c'). split; [rewrite Heq; apply addrs_root|].
  by apply list_elem_of_fmap_2.
Qed.

Lemma root_unique a kvs cs j c x :
  NoDup (addrs (PT a kvs cs)) → cs !! j = Some c → x ∈ addrs c →
  x ∈ root_addr <$> cs → x = root_addr c.
Proof.
  intros Hnd Hc Hx Hin. apply list_elem_of_fmap in Hin as (c' & -> & Hc').
  apply list_elem_of_lookup in Hc' as [j' Hc'].
  assert (j' = j) as ->; [|by simplify_eq].
  eapply NoDup_addrs_disjoint; [done..|apply addrs_root|done].
Qed.

Lemma split_tree h par i a kvs cs :
  rep h par i (PT a kvs cs) → NoDup (addrs (PT a kvs cs)) →
  length kvs = 2 * B - 1 → (cs = [] ∨ length cs = 2 * B) →
  ∃ h' l r kv nd,
    split h a = Some (h', mkSplit l r kv.1 kv.2) ∧ kvs !! (B - 1) = Some kv ∧
    h !! l = None ∧ h !! r = None ∧ l ≠ r ∧
    h !! a = Some nd ∧ parent nd = par ∧ parent_idx nd = i ∧
    h' !! a = Some (set_usage 0 nd) ∧
    rep h' par 0 (PT l (take (B - 1) kvs) (take B cs)) ∧
    rep h' par 0 (PT r (drop B kvs) (drop B cs)) ∧
    (∀ x, x ∉ addrs (PT a kvs cs) → x ≠ l → x ≠ r → h' !! x = h !! x).
Proof.
  intros Hrep Hnd Hlen Hcs.
  inversion Hrep as [? ? ? ? ? nd Ha Hok Hch]; subst.
  assert (∀ c, c ∈ cs → is_Some (h !! root_addr c)) as Hroots.
  { intros c [j Hc]%list_elem_of_lookup. eapply rep_dom; [by eapply Hch|].
    apply addrs_root. }
  destruct (split_node h a nd par i kvs (root_addr <$> cs) Ha Hok Hlen)
    as (h' & l & r & kv & Hsplit & Hkv & Hl & Hr & Hlr & Ha' & (lnd & Hlnd & Hlok)
        & (rnd & Hrnd & Hrok) & Hlc & Hrc & Hout).
  { destruct Hcs as [->|?]; [by left|right]. by rewrite length_fmap. }
  { intros c (c' & -> & Hc')%list_elem_of_fmap. auto. }
  { simpl in Hnd. apply NoDup_cons in Hnd as [Hna Hnd]. apply NoDup_cons. split.
    - intros (c & -> & Hc)%list_elem_of_fmap. apply Hna.
      apply elem_of_concat. exists (addrs c).
      split; [apply addrs_root|by apply list_elem_of_fmap_2].
    - by apply NoDup_roots. }
  assert (∀ j c x, cs !! j = Some c → x ∈ addrs c → x ≠ root_addr c →
                   h' !! x = h !! x) as Hinner.
  { intros j c x Hc Hx Hne. apply Hout.
    - intros ->. eapply NoDup_addrs_root; [done| |done].
      by eapply list_elem_of_lookup_2.
    - intros ->. destruct (rep_dom _ _ _ _ l (Hch _ _ Hc) Hx). congruence.
    - intros ->. destruct (rep_dom _ _ _ _ r (Hch _ _ Hc) Hx). congruence.
    - intros Hin. apply Hne. by eapply root_unique. }
  exists h', l, r, kv, nd.
  split; [done|]. split; [done|]. split; [done|]. split; [done|]. split; [done|].
  split; [done|]. split; [by destruct Hok|]. split; [by destruct Hok|].
  split; [done|]. split; [|split].
  - apply rep_PT with lnd; [done|by rewrite fmap_take|].
    intros j c Hc. pose proof Hc as [Hc' Hj]%lookup_take_Some.
    destruct (Hlc j (root_addr c)) as (cn & Hcn & Hcn').
    { by rewrite <-fmap_take, list_lookup_fmap, Hc. }
    eapply rep_restamp; [by eapply Hch|by eapply NoDup_addrs_child|done|done|].
    intros x Hx Hne. by eapply Hinner.
  - apply rep_PT with rnd; [done|by rewrite fmap_drop|].
    intros j c Hc. pose proof Hc as Hc'. rewrite lookup_drop in Hc'.
    destruct (Hrc j (root_addr c)) as (cn & Hcn & Hcn').
    { by rewrite <-fmap_drop, list_lookup_fmap, Hc. }
    eapply rep_restamp; [by eapply Hch|by eapply NoDup_addrs_child|done|done|].
    intros x Hx Hne. by eapply Hinner.
  - intros x Hx ? ?. apply Hout; [|done|done|].
    + intros ->. apply Hx. by left.
    + intros (c & -> & Hc)%list_elem_of_fmap. apply Hx.
      eapply addrs_child; [done|apply addrs_root].
Qed.

(** *** singleton *)

Lemma store_eq {X} i (x : X) l : i < length l → store i x l = Some (<[i := x]> l).
Proof. intros. unfold store. by rewrite decide_True. Qed.

Lemma singleton_tree h pl il pr ir l r kv :
  rep h pl il l → rep h pr ir r → NoDup (addrs l ++ addrs r) →
  ∃ h' s,
    singleton h (root_addr l) (root_addr r) kv.1 kv.2 = Some (h', s) ∧
    h !! s = None ∧
    rep h' None 0 (PT s [kv] [l; r]) ∧
    (∀ x, x ≠ s → x ≠ root_addr l → x ≠ root_addr r → h' !! x = h !! x).
Proof.
  intros Hl Hr Hnd.
  destruct (rep_root _ _ _ _ Hl) as (ln & Hln & Hlok).
  destruct (rep_root _ _ _ _ Hr) as (rn & Hrn & Hrok).
  unfold singleton, alloc. set (s := fresh (dom h)).
  assert (h !! s = None) as Hs by (apply not_elem_of_dom, is_fresh).
  assert (s ≠ root_addr l) by (intros E; rewrite E in Hs; congruence).
  assert (s ≠ root_addr r) by (intros E; rewrite E in Hs; congruence).
  assert (root_addr l ≠ root_addr r) as Hlr.
  { intros E. apply NoDup_app in Hnd as (_ & Hd & _).
    apply (Hd (root_addr l)); [apply addrs_root|rewrite E; apply addrs_root]. }
  erewrite update_eq; [|by rewrite lookup_insert_eq|done]. cbn [mbind option_bind].
  rewrite insert_insert_eq.
  erewrite update_eq; [|by rewrite lookup_insert_eq|
    simpl; rewrite store_eq by (rewrite length_replicate; lia); done].
  cbn [mbind option_bind]. rewrite insert_insert_eq.
  erewrite update_eq; [|by rewrite lookup_insert_eq|
    simpl; rewrite store_eq by (rewrite length_replicate; lia); done].
  cbn [mbind option_bind]. rewrite insert_insert_eq.
  erewrite update_eq; [|by rewrite lookup_insert_eq|
    simpl; rewrite store_eq by (rewrite length_replicate; lia); done].
  cbn [mbind option_bind]. rewrite insert_insert_eq.
  erewrite write_idx_eq; [|by rewrite lookup_insert_ne|lia].
  cbn [mbind option_bind].
  erewrite write_parent_eq; [|by rewrite lookup_insert_eq].
  cbn [mbind option_bind]. rewrite insert_insert_eq.
  erewrite update_eq; [|by rewrite lookup_insert_ne, lookup_insert_eq|
    simpl; rewrite store_eq by (rewrite length_insert, length_replicate; lia); done].
  cbn [mbind option_bind].
  erewrite write_idx_eq;
    [|by rewrite lookup_insert_ne, lookup_insert_ne, lookup_insert_ne|lia].
  cbn [mbind option_bind].
  erewrite write_parent_eq; [|by rewrite lookup_insert_eq].
  cbn [mbind option_bind]. rewrite insert_insert_eq.
  eexists _, s. split; [done|]. split; [done|]. split.
  - eapply rep_PT.
    + by rewrite lookup_insert_ne, lookup_insert_eq.
    + constructor; simpl; rewrite ?length_insert, ?length_replicate; try done; try lia.
      * destruct (B + (B + 0) - 1) as [|m] eqn:E; [lia|]. done.
      * destruct (B + (B + 0) - 1) as [|m] eqn:E; [lia|]. done.
      * destruct (B + (B + 0)) as [|[|m]] eqn:E; [lia..|]. done.
    + assert (∀ x, x ∈ addrs l → x ≠ s ∧ x ≠ root_addr r) as Hlx.
      { intros x Hx. split; intros ->.
        - destruct (rep_dom _ _ _ _ s Hl Hx). congruence.
        - apply NoDup_app in Hnd as (_ & Hd & _).
          apply (Hd (root_addr r)); [done|apply addrs_root]. }
      assert (∀ x, x ∈ addrs r → x ≠ s ∧ x ≠ root_addr l) as Hrx.
      { intros x Hx. split; intros ->.
        - destruct (rep_dom _ _ _ _ s Hr Hx). congruence.
        - apply NoDup_app in Hnd as (_ & Hd & _).
          apply (Hd (root_addr l)); [apply addrs_root|done]. }
      intros j c Hc. destruct j as [|[|j]]; simplify_eq/=.
      * eapply (rep_restamp h); [done| |done| |].
        -- by apply NoDup_app in Hnd as (? & _ & _).
        -- lookups. done.
        -- intros x Hx Hne. destruct (Hlx x Hx). by lookups.
      * eapply (rep_restamp h); [done| |done| |].
        -- by apply NoDup_app in Hnd as (_ & _ & ?).
        -- lookups. done.
        -- intros x Hx Hne. destruct (Hrx x Hx). by lookups.
  - intros x ? ? ?. by lookups.
Qed.

(** *** adopt *)

Lemma adopt_restamp_spec this nd cas todo : ∀ i h,
  NoDup (this :: cas) →
  length cas = i + todo → (Z.of_nat (i + todo) < 65536)%Z →
  h !! this = Some nd →
  (∀ j c, cas !! j = Some c → children nd !! j = Some (Some c)) →
  (∀ j c, i ≤ j → cas !! j = Some c → is_Some (h !! c)) →
  ∃ h', adopt_restamp h this i todo = Some h' ∧
    (∀ j c, i ≤ j → cas !! j = Some c →
            ∃ cn, h !! c = Some cn ∧ h' !! c = Some (set_parent_idx j cn)) ∧
    (∀ x, (∀ j, i ≤ j → cas !! j ≠ Some x) → h' !! x = h !! x).
Proof.
  induction todo as [|todo IH]; intros i h Hnd Hlen Hmax Hthis Hch Hdom.
  - exists h. split; [done|]. split; [|done].
    intros j c Hj Hc. apply lookup_lt_Some in Hc. lia.
  - assert (is_Some (cas !! i)) as [c0 Hc0] by (apply lookup_lt_is_Some; lia).
    destruct (Hdom i c0) as [cn0 Hcn0]; [lia|done|].
    apply NoDup_cons in Hnd as [Hnthis Hnd'].
    assert (∀ j c, cas !! j = Some c → c ≠ this) as Hne.
    { intros j c Hc ->. apply Hnthis. by eapply list_elem_of_lookup_2. }
    assert (∀ j1 j2 c, cas !! j1 = Some c → cas !! j2 = Some c → j1 = j2) as Hinj.
    { intros j1 j2 c. by apply NoDup_lookup. }
    pose proof (Hne _ _ Hc0).
    simpl. rewrite (child_eq h this nd i c0) by eauto.
    erewrite write_idx_eq; [|done|lia]. cbn [mbind option_bind].
    set (h1 := <[c0 := set_parent_idx i cn0]> h).
    destruct (IH (S i) h1) as (h' & -> & Hst & Hothers); try done; try lia.
    { by apply NoDup_cons. }
    { unfold h1. by lookups. }
    { intros j c Hj Hc. unfold h1. rewrite lookup_insert_ne; [eapply Hdom; [|done]; lia|].
      intros ->. assert (i = j) by eauto. lia. }
    exists h'. split; [done|]. split.
    + intros j c Hj Hc. destruct (decide (j = i)) as [->|Hji].
      * simplify_eq. exists cn0. split; [done|]. rewrite Hothers.
        -- unfold h1. by lookups.
        -- intros j Hj' Hc'. assert (i = j) by eauto. lia.
      * destruct (Hst j c) as (cn & Hcn & Hcn'); [lia|done|].
        exists cn. split; [|done]. unfold h1 in Hcn.
        rewrite lookup_insert_ne in Hcn; [done|].
        intros ->. assert (i = j) by eauto. lia.
    + intros x Hx. rewrite Hothers.
      * unfold h1. rewrite lookup_insert_ne; [done|]. intros ->. by eapply (Hx i).
      * intros j Hj. apply Hx. lia.
Qed.

Lemma memmove_adopt {X} (cs : list X) p u a b :
  p ≤ u → u + 2 ≤ length cs →
  ∃ cs1, memmove (p + 1) p (u + 1 - p) cs = Some cs1 ∧
         cs1 !! p = cs !! p ∧ length cs1 = length cs ∧
         take (u + 2) (<[p + 1 := b]> (<[p := a]> cs1))
         = take p (take (u + 1) cs) ++ a :: b :: drop (S p) (take (u + 1) cs).
Proof.
  intros Hp Hu. unfold memmove. rewrite decide_True by lia.
  eexists. split; [done|]. split; [|split].
  - rewrite lookup_app_l by (rewrite length_take; lia).
    by rewrite lookup_take_lt by lia.
  - rewrite !length_app, !length_take, !length_drop. lia.
  - assert (is_Some (cs !! p)) as [y Hy] by (apply lookup_lt_is_Some; lia).
    replace (p + 1) with (S p) by lia.
    rewrite (take_S_r _ _ _ Hy), <-!app_assoc.
    rewrite insert_app_r_alt by (rewrite length_take; lia).
    rewrite length_take, Nat.min_l, Nat.sub_diag by lia.
    rewrite insert_app_r_alt by (rewrite length_take; lia).
    rewrite length_take, Nat.min_l by lia.
    replace (S p - p) with 1 by lia.
    replace (u + 1 - p) with (S (u - p)) by lia.
    rewrite <-(take_drop_middle cs p y Hy) at 2.
    rewrite drop_app_length' by (rewrite length_take; lia).
    simpl. rewrite take_take, Nat.min_l by lia.
    rewrite take_app_ge; rewrite length_take, Nat.min_l by lia; [|lia].
    f_equal. replace (u + 2 - p) with (S (S (u - p))) by lia. simpl. do 2 f_equal.
    rewrite take_app_ge; rewrite length_take, length_drop, Nat.min_l by lia; [|lia].
    rewrite Nat.sub_diag, take_0, app_nil_r.
    rewrite take_drop_commute. do 2 f_equal. lia.
Qed.

Lemma adopt_local_node fuel h this nd par i kvs cas p stale snd l ln r rn key value :
  h !! this = Some nd → node_ok nd par i kvs cas →
  length cas = S (length kvs) → length kvs ≤ 2 * B - 2 →
  cas !! p = Some stale →
  h !! stale = Some snd → usage snd = 0 →
  h !! l = Some ln → parent ln = Some this →
  h !! r = Some rn → parent rn = Some this →
  NoDup (this :: stale :: take p cas ++ l :: r :: drop (S p) cas) →
  (∀ c, c ∈ take p cas ++ drop (S p) cas → is_Some (h !! c)) →
  ∃ h' nd',
    adopt_local (S fuel) h this l r key value p = Some h' ∧
    h' !! this = Some nd' ∧
    node_ok nd' par i (insert_at p (key, value) kvs)
            (take p cas ++ l :: r :: drop (S p) cas) ∧
    h' !! stale = None ∧
    (∀ j c, p ≤ j → (take p cas ++ l :: r :: drop (S p) cas) !! j = Some c →
            ∃ cn, h !! c = Some cn ∧ h' !! c = Some (set_parent_idx j cn)) ∧
    (∀ x, x ≠ this → x ≠ stale →
          (∀ j, p ≤ j → (take p cas ++ l :: r :: drop (S p) cas) !! j ≠ Some x) →
          h' !! x = h !! x).
Proof.
  intros Hthis Hok Hlen Hroom Hstale Hsnd Hsu Hl Hlp Hr Hrp Hnd Hdom.
  set (cas' := take p cas ++ l :: r :: drop (S p) cas) in *.
  pose proof (ok_usage _ _ _ _ _ Hok) as Hu.
  pose proof (ok_keys_len _ _ _ _ _ Hok) as Hkl.
  pose proof (ok_values_len _ _ _ _ _ Hok) as Hvl.
  pose proof (ok_keys _ _ _ _ _ Hok) as Hks.
  pose proof (ok_values _ _ _ _ _ Hok) as Hvs.
  pose proof (ok_children _ _ _ _ _ Hok) as Hcs.
  pose proof (lookup_lt_Some _ _ _ Hstale) as Hp.
  assert (IsInternal nd = true) as Hint.
  { eapply node_ok_internal; [done|]. intros ->. simpl in *. lia. }
  pose proof (ok_children_len _ _ _ _ _ Hok) as Hcl. rewrite Hint in Hcl.
  assert (length cas' = length kvs + 2) as Hlen'.
  { unfold cas'. rewrite length_app, length_take. simpl. rewrite length_drop. lia. }
  destruct (move_store (values nd) p (usage nd) value) as (vs1 & vs2 & Hmv & Hvl1 & Hsv & Hvl2 & Hvs2);
    [lia..|].
  destruct (move_store (keys nd) p (usage nd) key) as (ks1 & ks2 & Hmk & Hkl1 & Hsk & Hkl2 & Hks2);
    [lia..|].
  destruct (memmove_adopt (children nd) p (usage nd) (Some l) (Some r))
    as (cs1 & Hmm & Hcs1p & Hcl1 & Hcs3); [lia..|].
  set (cs3 := <[p + 1 := Some r]> (<[p := Some l]> cs1)) in *.
  assert (take (length cas') cs3 = Some <$> cas') as Hcs3'.
  { rewrite Hlen', <-Hu, Hcs3. unfold cas'.
    replace (usage nd + 1) with (length cas) by lia. rewrite Hcs.
    by rewrite fmap_app, !fmap_cons, fmap_take, fmap_drop. }
  (* the distinctness facts *)
  apply NoDup_cons in Hnd as [Hn1 Hnd]. apply NoDup_cons in Hnd as [Hn2 Hnd].
  assert (l ∈ cas' ∧ r ∈ cas') as [Hlin Hrin] by (unfold cas'; set_solver).
  assert (stale ≠ this) by (intros ->; apply Hn1; by left).
  assert (l ≠ this ∧ r ≠ this) as [? ?] by (split; intros ->; apply Hn1; by right).
  assert (l ≠ stale ∧ r ≠ stale) as [? ?] by (split; intros ->; by apply Hn2).
  assert (l ≠ r).
  { intros ->. apply NoDup_app in Hnd as (_ & _ & Hnd).
    apply NoDup_cons in Hnd as [Hnd _]. apply Hnd. by left. }
  unfold adopt_local.
  erewrite update_eq; [|done|simpl; rewrite Hmv; done]. cbn [mbind option_bind].
  erewrite update_eq; [|by lookups|simpl; rewrite Hmk; done]. cbn [mbind option_bind].
  rewrite insert_insert_eq.
  erewrite update_eq; [|by lookups|simpl; rewrite Hmm; done]. cbn [mbind option_bind].
  rewrite insert_insert_eq. rewrite lookup_insert_eq. cbn [mbind option_bind].
  simpl children. rewrite Hcs1p, (node_ok_child _ _ _ _ _ _ _ Hok Hstale).
  cbn [mbind option_bind].
  erewrite destroy_stale; [|by lookups|done]. cbn [mbind option_bind].
  erewrite update_eq; [|by lookups|simpl; rewrite store_eq by lia; done].
  cbn [mbind option_bind].
  erewrite write_parent_eq; [|by lookups]. cbn [mbind option_bind].
  rewrite (set_parent_id ln) by done.
  erewrite update_eq; [|by lookups|
    simpl; rewrite store_eq by (rewrite length_insert; lia); done].
  cbn [mbind option_bind].
  erewrite write_parent_eq; [|by lookups]. cbn [mbind option_bind].
  rewrite (set_parent_id rn) by done.
  rewrite lookup_insert_ne, lookup_insert_eq by done. cbn [mbind option_bind].
  match goal with |- context [adopt_restamp ?hh this p (usage ?n + 2 - p)] =>
    set (h9 := hh); set (nd8 := n) end.
  assert (h9 !! this = Some nd8) as F1 by (unfold h9; by lookups).
  assert (h9 !! stale = None) as F2 by (unfold h9; by lookups).
  assert (∀ x, x ≠ this → x ≠ stale → h9 !! x = h !! x) as F3.
  { intros x ? ?. unfold h9.
    destruct (decide (x = r)) as [->|]; [by lookups|].
    destruct (decide (x = l)) as [->|]; by lookups. }
  assert (∀ j c, cas' !! j = Some c → c ≠ this ∧ c ≠ stale) as Hcne.
  { intros j c Hc. pose proof (list_elem_of_lookup_2 _ _ _ Hc).
    split; intros ->; [apply Hn1; by right|by apply Hn2]. }
  assert (∀ j c, cas' !! j = Some c → is_Some (h !! c)) as Hdom'.
  { intros j c Hc. apply list_elem_of_lookup_2 in Hc. unfold cas' in Hc.
    apply elem_of_app in Hc as [Hc|Hc]; [apply Hdom; set_solver|].
    apply elem_of_cons in Hc as [->|Hc]; [eauto|].
    apply elem_of_cons in Hc as [->|Hc]; [eauto|]. apply Hdom; set_solver. }
  destruct (adopt_restamp_spec this nd8 cas' (usage nd8 + 2 - p) p h9)
    as (h10 & -> & Hst & Hothers).
  { apply NoDup_cons. split; [|done]. intros Hin. apply Hn1. by right. }
  { unfold nd8. simpl. lia. }
  { unfold nd8. simpl. lia. }
  { done. }
  { intros j c Hc. unfold nd8. simpl. fold cs3.
    rewrite <-(lookup_take_lt _ (length cas')) by (by eapply lookup_lt_Some).
    by rewrite Hcs3', list_lookup_fmap, Hc. }
  { intros j c _ Hc. destruct (Hcne _ _ Hc). rewrite F3 by done. eauto. }
  cbn [mbind option_bind].
  assert (h10 !! this = Some nd8) as F4.
  { rewrite Hothers; [done|]. intros j _ Hc. by destruct (Hcne _ _ Hc). }
  erewrite update_eq; [|done|unfold nd8; simpl; rewrite Hsv; done].
  cbn [mbind option_bind].
  erewrite update_eq; [|by lookups|unfold nd8; simpl; rewrite Hsk; done].
  cbn [mbind option_bind]. rewrite insert_insert_eq.
  erewrite update_eq; [|by lookups|done].
  cbn [mbind option_bind]. rewrite insert_insert_eq.
  eexists _, _. split; [done|]. split; [by lookups|].
  split; [|split; [|split]].
  - unfold nd8. constructor; simpl; try done.
    + rewrite u16_succ by lia. rewrite insert_at_length. lia.
    + lia.
    + lia.
    + by rewrite insert_at_length, insert_at_fmap, <-Hks, <-Hu.
    + by rewrite insert_at_length, insert_at_fmap, <-Hvs, <-Hu.
    + by destruct Hok.
    + by destruct Hok.
    + rewrite Hint. symmetry. apply bool_decide_eq_true_2.
      intros E. rewrite E in Hlen'. simpl in Hlen'. lia.
    + rewrite Hint, !length_insert. lia.
  - rewrite lookup_insert_ne by done. rewrite Hothers; [done|].
    intros j _ Hc. by destruct (Hcne _ _ Hc).
  - intros j c Hj Hc. destruct (Hcne _ _ Hc).
    destruct (Hst j c Hj Hc) as (cn & Hcn & Hcn').
    exists cn. rewrite <-F3 by done. split; [done|]. by lookups.
  - intros x ? ? Hx. rewrite lookup_insert_ne by done.
    rewrite Hothers by done. by apply F3.
Qed.

Lemma adopt_unfold up h this l r key value p root :
  adopt (S up) h this l r key value p root
  = h ← adopt_local (S up) h this l r key value p; finish up h this root.
Proof. done. Qed.

Lemma pre_shape_shape n a kvs cs :
  pre_shape n kvs cs → 1 ≤ length kvs ≤ 2 * B - 2 → shape n (PT a kvs cs).
Proof.
  intros [[-> ->]|(m & -> & ? & ?)] ?; by constructor.
Qed.

Lemma pre_shape_arity n kvs cs :
  pre_shape n kvs cs → cs = [] ∨ length cs = S (length kvs).
Proof. intros [[-> ->]|(m & -> & ? & ?)]; auto. Qed.

Lemma inorder_halves a la ra kvs cs kv :
  cs = [] ∨ length cs = S (length kvs) →
  length kvs = 2 * B - 1 → kvs !! (B - 1) = Some kv →
  inorder (PT la (take (B - 1) kvs) (take B cs)) ++
    kv :: inorder (PT ra (drop B kvs) (drop B cs))
  = inorder (PT a kvs cs).
Proof.
  intros Hcs Hlen Hkv.
  assert (kvs = take (B - 1) kvs ++ kv :: drop B kvs) as Hsplit.
  { rewrite <-(take_drop_middle kvs (B - 1) kv Hkv) at 1.
    do 3 f_equal. lia. }
  destruct Hcs as [->|Hcs].
  - rewrite take_nil, drop_nil, !inorder_leaf. done.
  - unfold inorder; fold inorder.
    rewrite Hsplit at 3. rewrite <-(take_drop B cs) at 3.
    rewrite fmap_app, interleave_mid, fmap_take, fmap_drop; [done|].
    rewrite length_fmap, !length_take. lia.
Qed.

Lemma finish_spec n h t h2 a kvs2 cs2 par i up root key value :
  root_addr t = a →
  rep h2 par i (PT a kvs2 cs2) → NoDup (addrs (PT a kvs2 cs2)) →
  1 ≤ length kvs2 ≤ 2 * B - 1 → pre_shape n kvs2 cs2 →
  inorder (PT a kvs2 cs2) = ins key value (inorder t) →
  (∀ x, x ∈ addrs (PT a kvs2 cs2) → x ∈ addrs t ∨ h !! x = None) →
  (∀ x, x ∉ addrs t → is_Some (h !! x) → h2 !! x = h !! x) →
  (finish up h2 a root = Some (h2, root) ∧
   absorbed h t par i n key value h2 (PT a kvs2 cs2))
  ∨ (∃ h3 l r kv,
       finish up h2 a root
       = promote up h3 a (mkSplit (root_addr l) (root_addr r) kv.1 kv.2) root ∧
       overflowed h t par i n key value h3 l r kv).
Proof.
  intros Hroot Hrep Hnd Hsize Hpre Hin Hnew Hframe.
  pose proof Hrep as Hrep'. inversion Hrep' as [? ? ? ? ? nd2 Ha Hok Hch]; subst.
  pose proof (ok_usage _ _ _ _ _ Hok) as Hu.
  unfold finish. rewrite Ha. cbn [mbind option_bind].
  destruct (decide (usage nd2 = 2 * B - 1)) as [Hfull|Hroom].
  - right.
    destruct (split_tree h2 par i (root_addr t) kvs2 cs2 Hrep Hnd) as
      (h3 & la & ra & kv & nd & Hsplit & Hkv & Hla & Hra & Hlr & Ha2 & Hpar & Hidx
       & Ha3 & Hrl & Hrr & Hout); [lia| |].
    { destruct (pre_shape_arity _ _ _ Hpre) as [->|?]; [by left|right; lia]. }
    simplify_eq.
    exists h3, (PT la (take (B - 1) kvs2) (take B cs2)),
           (PT ra (drop B kvs2) (drop B cs2)), kv.
    rewrite Hsplit. split; [done|].
    assert (∀ x, x ∈ concat (addrs <$> cs2) → is_Some (h2 !! x)) as Hdom.
    { intros x Hx. eapply rep_dom; [done|]. by right. }
    assert (concat (addrs <$> cs2)
            = concat (addrs <$> take B cs2) ++ concat (addrs <$> drop B cs2)) as Econcat.
    { by rewrite <-concat_app, <-fmap_app, take_drop. }
    simpl in Hnd. apply NoDup_cons in Hnd as [Hna Hnd].
    split; [|split; [|split; [|split; [|split; [|split; [|split; [|split; [|split;
      [|split; [|split]]]]]]]]]]; [| | | | | | | | | |simpl; rewrite length_take; lia
                                     |simpl; rewrite length_drop; lia].
    + exists (set_usage 0 nd2). by destruct Hok.
    + done.
    + done.
    + destruct Hpre as [[-> ->]|(m & -> & Hl & Hs)].
      * rewrite take_nil. constructor. rewrite length_take. lia.
      * constructor; rewrite ?length_take; [lia|lia|].
        intros c Hc. apply Hs. by eapply in_take.
    + destruct Hpre as [[-> ->]|(m & -> & Hl & Hs)].
      * rewrite drop_nil. constructor. rewrite length_drop. lia.
      * constructor; rewrite ?length_drop; [lia|lia|].
        intros c Hc. apply Hs. by eapply in_drop.
    + simpl. rewrite Econcat in Hnd, Hdom. apply NoDup_cons. split.
      * intros [Hx|[Hx|Hx]%elem_of_cons]%elem_of_app; [|done|].
        -- destruct (Hdom la); [apply elem_of_app; by left|congruence].
        -- destruct (Hdom la); [apply elem_of_app; by right|congruence].
      * apply NoDup_app in Hnd as (H1 & H2 & H3). apply NoDup_app.
        split; [done|]. split.
        -- intros x Hx [->|Hx']%elem_of_cons; [|by eapply H2].
           destruct (Hdom ra); [apply elem_of_app; by left|congruence].
        -- apply NoDup_cons. split; [|done]. intros Hx.
           destruct (Hdom ra); [apply elem_of_app; by right|congruence].
    + simpl. rewrite Econcat in Hna.
      intros [E|[Hx|[E|Hx]%elem_of_cons]%elem_of_app]%elem_of_cons.
      * rewrite <-E in Hla. congruence.
      * apply Hna, elem_of_app. by left.
      * rewrite <-E in Hra. congruence.
      * apply Hna, elem_of_app. by right.
    + rewrite <-Hin. apply inorder_halves; [|lia|done].
      by eapply pre_shape_arity.
    + assert (∀ x, h2 !! x = None → x ∈ addrs t ∨ h !! x = None) as Hgone.
      { intros x Hx. destruct (decide (x ∈ addrs t)); [by left|right].
        destruct (h !! x) eqn:E; [|done].
        rewrite Hframe in Hx by (done || eauto). congruence. }
      simpl in *. rewrite Econcat in Hnew.
      intros x [->|[Hx|[->|Hx]%elem_of_cons]%elem_of_app]%elem_of_cons; auto.
      * apply Hnew. right. apply elem_of_app. by left.
      * apply Hnew. right. apply elem_of_app. by right.
    + intros x Hx Hsome. rewrite Hout; [by apply Hframe| | |].
      * intros Hx2. destruct (Hnew x Hx2) as [?|E]; [done|].
        rewrite E in Hsome. by destruct Hsome.
      * intros ->. rewrite Hframe in Hla by done. rewrite Hla in Hsome.
        by destruct Hsome.
      * intros ->. rewrite Hframe in Hra by done. rewrite Hra in Hsome.
        by destruct Hsome.
  - left. split; [done|].
    split; [done|]. split; [done|]. split; [apply pre_shape_shape; [done|lia]|].
    split; [done|]. split; [done|]. split; done.
Qed.

(** *** Adoption at the level of trees *)

Lemma NoDup_replace {X} (A C D N : list X) :
  NoDup (A ++ C ++ D) → NoDup N →
  (∀ x, x ∈ N → x ∈ C ∨ x ∉ A ++ C ++ D) →
  NoDup (A ++ N ++ D).
Proof.
  intros (HA & HAC & HCD)%NoDup_app HN Hnew.
  apply NoDup_app in HCD as (HC & HCD & HD).
  apply NoDup_app. split; [done|]. split.
  - intros x Hx [Hx'|Hx']%elem_of_app.
    + destruct (Hnew x Hx') as [?|Hout].
      * apply (HAC x Hx), elem_of_app. by left.
      * apply Hout, elem_of_app. by left.
    + apply (HAC x Hx), elem_of_app. by right.
  - apply NoDup_app. split; [done|]. split; [|done].
    intros x Hx Hx'. destruct (Hnew x Hx) as [?|Hout].
    + by apply (HCD x).
    + apply Hout. rewrite !elem_of_app. auto.
Qed.

Lemma lookup_adopt {X} (cs : list X) p l r j c :
  p < length cs →
  (take p cs ++ l :: r :: drop (S p) cs) !! j = Some c →
  (j < p ∧ cs !! j = Some c) ∨ (j = p ∧ c = l) ∨ (j = S p ∧ c = r)
  ∨ (S p < j ∧ cs !! (j - 1) = Some c).
Proof.
  intros Hp Hj. destruct (decide (j < p)).
  - left. rewrite lookup_app_l in Hj by (rewrite length_take; lia).
    apply lookup_take_Some in Hj as [? ?]. done.
  - right. rewrite lookup_app_r in Hj by (rewrite length_take; lia).
    rewrite length_take, Nat.min_l in Hj by lia.
    destruct (j - p) as [|[|k]] eqn:E; simpl in Hj.
    + left. split; [lia|congruence].
    + right; left. split; [lia|congruence].
    + right; right. split; [lia|]. rewrite lookup_drop in Hj.
      by replace (j - 1) with (S p + k) by lia.
Qed.

Lemma concat_middle {X Y} (f : X → list Y) cs p c :
  cs !! p = Some c →
  concat (f <$> cs)
  = concat (f <$> take p cs) ++ f c ++ concat (f <$> drop (S p) cs).
Proof.
  intros Hc. rewrite <-(take_drop_middle cs p c Hc) at 1.
  by rewrite fmap_app, fmap_cons, concat_app.
Qed.

Lemma concat_adopt {X Y} (f : X → list Y) cs p l r :
  concat (f <$> (take p cs ++ l :: r :: drop (S p) cs))
  = concat (f <$> take p cs) ++ (f l ++ f r) ++ concat (f <$> drop (S p) cs).
Proof. rewrite fmap_app, !fmap_cons, concat_app. simpl. by rewrite <-!app_assoc. Qed.

Lemma NoDup_node_roots a kvs cs :
  NoDup (addrs (PT a kvs cs)) → NoDup (a :: (root_addr <$> cs)).
Proof.
  simpl. intros [Hna Hnd]%NoDup_cons. apply NoDup_cons. split.
  - intros (c & -> & Hc)%list_elem_of_fmap. apply Hna.
    apply elem_of_concat. exists (addrs c).
    split; [apply addrs_root|by apply list_elem_of_fmap_2].
  - by apply NoDup_roots.
Qed.

Lemma adopt_tree fuel n h h1 par i a kvs cs p c l r kv key value :
  rep h par i (PT a kvs cs) → NoDup (addrs (PT a kvs cs)) →
  length cs = S (length kvs) → length kvs ≤ 2 * B - 2 →
  cs !! p = Some c →
  overflowed h c (Some a) p n key value h1 l r kv →
  ∃ h2,
    adopt_local (S fuel) h1 a (root_addr l) (root_addr r) kv.1 kv.2 p = Some h2 ∧
    rep h2 par i (PT a (insert_at p kv kvs) (take p cs ++ l :: r :: drop (S p) cs)) ∧
    NoDup (addrs (PT a (insert_at p kv kvs) (take p cs ++ l :: r :: drop (S p) cs))) ∧
    (∀ x, x ∈ addrs (PT a (insert_at p kv kvs) (take p cs ++ l :: r :: drop (S p) cs)) →
          x ∈ addrs (PT a kvs cs) ∨ h !! x = None) ∧
    (∀ x, x ∉ addrs (PT a kvs cs) → is_Some (h !! x) → h2 !! x = h !! x).
Proof.
  intros Hrep Hnd Hlen Hroom Hc
    ((snd & Hsnd & Hsu & Hsp & Hsi) & Hrl & Hrr & _ & _ & Hndlr & Hstale & _ & Hnew
     & Hframe & _).
  set (t := PT a kvs cs) in *.
  set (cs2 := take p cs ++ l :: r :: drop (S p) cs).
  set (t2 := PT a (insert_at p kv kvs) cs2).
  pose proof (lookup_lt_Some _ _ _ Hc) as Hp.
  pose proof (list_elem_of_lookup_2 _ _ _ Hc) as Hcin.
  destruct (rep_root _ _ _ _ Hrep) as (nd & Ha & Hok). simpl in Ha, Hok.
  pose proof (λ j c', rep_child h par i a kvs cs j c' Hrep) as Hch.
  assert (∀ x, x ∈ addrs t → is_Some (h !! x)) as Hdom by (intros; by eapply rep_dom).
  assert (a ∉ addrs c) as Hac by (by eapply NoDup_addrs_root).
  assert (∀ x, x ∈ addrs c → x ∈ addrs t) as Hct by (intros; by eapply addrs_child).
  (* the new tree has no repeated address *)
  assert (NoDup (addrs t2)) as Hnd2.
  { unfold t2, t in *. simpl in *. unfold cs2. rewrite concat_adopt.
    rewrite (concat_middle addrs cs p c Hc) in Hnd.
    rewrite !app_comm_cons in *.
    apply (NoDup_replace _ (addrs c)); [done|done|].
    intros x Hx. destruct (Hnew x Hx) as [?|Hx']; [by left|right].
    intros Hin. rewrite <-!app_comm_cons, <-(concat_middle addrs cs p c Hc) in Hin.
    destruct (Hdom x Hin). congruence. }
  assert (∀ x, x ∈ addrs t2 → x ∈ addrs t ∨ h !! x = None) as Hnew2.
  { unfold t2, t. simpl. unfold cs2. rewrite concat_adopt.
    rewrite (concat_middle addrs cs p c Hc).
    intros x [->|Hx]%elem_of_cons; [left; by left|].
    rewrite !elem_of_app in Hx. destruct Hx as [Hx|[Hx|Hx]].
    - left. right. rewrite !elem_of_app. auto.
    - destruct (Hnew x) as [?|?]; [by apply elem_of_app| |by right].
      left. right. rewrite !elem_of_app. auto.
    - left. right. rewrite !elem_of_app. auto. }
  assert (root_addr c ∉ addrs t2) as Hst2.
  { unfold t2. simpl. unfold cs2. rewrite concat_adopt.
    intros [E|Hx]%elem_of_cons; [apply Hac; rewrite <-E; apply addrs_root|].
    rewrite !elem_of_app in Hx. destruct Hx as [Hx|[Hx|Hx]].
    - apply elem_of_concat in Hx as (ll & Hx & (c' & -> & Hc')%list_elem_of_fmap).
      apply list_elem_of_lookup in Hc' as [j Hj].
      apply lookup_take_Some in Hj as [Hj ?].
      assert (p = j); [|lia].
      eapply (NoDup_addrs_disjoint a kvs cs); [done..|apply addrs_root|done].
    - apply Hstale. by apply elem_of_app.
    - apply elem_of_concat in Hx as (ll & Hx & (c' & -> & Hc')%list_elem_of_fmap).
      apply list_elem_of_lookup in Hc' as [j Hj]. rewrite lookup_drop in Hj.
      assert (p = S p + j); [|lia].
      eapply (NoDup_addrs_disjoint a kvs cs); [done..|apply addrs_root|done]. }
  (* what the store holds after the child's split *)
  assert (h1 !! a = Some nd) as Ha1.
  { rewrite Hframe; [done|done|eauto]. }
  assert (∀ j c', cs2 !! j = Some c' →
            ∃ j0, rep h1 (Some a) j0 c' ∧ (j < p → j0 = j)) as Hch1.
  { intros j c' Hj. apply lookup_adopt in Hj as [[? Hj]|[[? ->]|[[? ->]|[? Hj]]]]; [| | | |done].
    - exists j. split; [|done]. eapply rep_ext; [by eapply Hch|].
      intros x Hx. apply Hframe.
      + intros Hx'. assert (j = p); [|lia].
        by eapply (NoDup_addrs_disjoint a kvs cs).
      + eapply rep_dom; [by eapply Hch|done].
    - exists 0. split; [done|lia].
    - exists 0. split; [done|lia].
    - exists (j - 1). split; [|lia]. eapply rep_ext; [by eapply Hch|].
      intros x Hx. apply Hframe.
      + intros Hx'. assert (j - 1 = p); [|lia].
        by eapply (NoDup_addrs_disjoint a kvs cs).
      + eapply rep_dom; [by eapply Hch|done]. }
  destruct (rep_root _ _ _ _ Hrl) as (ln & Hln & Hlok).
  destruct (rep_root _ _ _ _ Hrr) as (rn & Hrn & Hrok).
  pose proof (NoDup_node_roots _ _ _ Hnd2) as Hroots2.
  assert (root_addr <$> cs2
          = take p (root_addr <$> cs) ++ root_addr l :: root_addr r
              :: drop (S p) (root_addr <$> cs)) as Ecas.
  { unfold cs2. by rewrite fmap_app, !fmap_cons, fmap_take, fmap_drop. }
  destruct (adopt_local_node fuel h1 a nd par i kvs (root_addr <$> cs) p
              (root_addr c) snd (root_addr l) ln (root_addr r) rn kv.1 kv.2)
    as (h2 & nd' & Hadopt & Ha2 & Hok2 & Hgone & Hst & Hothers); try done.
  { by rewrite length_fmap. }
  { by rewrite list_lookup_fmap, Hc. }
  { by destruct Hlok. }
  { by destruct Hrok. }
  { rewrite <-Ecas. apply NoDup_cons in Hroots2 as [? ?].
    apply NoDup_cons. split.
    - rewrite elem_of_cons. intros [E|Hin]; [apply Hst2; rewrite <-E; by left|done].
    - apply NoDup_cons. split; [|done].
      intros (c' & E & Hc')%list_elem_of_fmap.
      apply Hst2. rewrite E. eapply addrs_child; [done|apply addrs_root]. }
  { intros x Hx. assert (x ∈ root_addr <$> cs2) as Hx2.
    { rewrite Ecas. rewrite !elem_of_app, !elem_of_cons in *. tauto. }
    apply list_elem_of_fmap in Hx2 as (c' & -> & [j Hj]%list_elem_of_lookup).
    destruct (Hch1 j c' Hj) as (j0 & Hr0 & _).
    eapply rep_dom; [done|apply addrs_root]. }
  rewrite <-Ecas in *. destruct kv as [k v]. simpl in *.
  exists h2. split; [done|].
  assert (∀ j c' x, cs2 !! j = Some c' → x ∈ addrs c' →
            x ≠ a ∧ x ≠ root_addr c ∧
            ∀ j', (root_addr <$> cs2) !! j' = Some x → j' = j ∧ x = root_addr c') as Hsep.
  { intros j c' x Hj Hx.
    pose proof (list_elem_of_lookup_2 _ _ _ Hj) as Hc'.
    split; [|split].
    - intros ->. by eapply (NoDup_addrs_root a [] cs2 c').
    - intros ->. apply Hst2. by eapply (addrs_child a [] cs2).
    - intros j' Hj'. rewrite list_lookup_fmap in Hj'.
      destruct (cs2 !! j') as [c''|] eqn:E; [|done]. simplify_eq/=.
      assert (j' = j) as ->; [|by simplify_eq].
      eapply (NoDup_addrs_disjoint a [] cs2); [done..|apply addrs_root|done]. }
  split; [|split; [done|split; [done|]]].
  - apply rep_PT with nd'; [done|done|].
    intros j c' Hj. destruct (Hch1 j c' Hj) as (j0 & Hr0 & Hj0).
    destruct (decide (j < p)) as [Hlt|Hge].
    + rewrite Hj0 in Hr0 by done. eapply rep_ext; [done|].
      intros x Hx. destruct (Hsep j c' x Hj Hx) as (? & ? & Hu).
      apply Hothers; [done|done|]. intros j' ? Hj'.
      destruct (Hu j' Hj'). lia.
    + destruct (rep_root _ _ _ _ Hr0) as (cn & Hcn & Hcok).
      destruct (Hst j (root_addr c')) as (cn' & Hcn1 & Hcn2); [lia| |].
      { by rewrite list_lookup_fmap, Hj. }
      simplify_eq.
      eapply rep_restamp; [done|by eapply (NoDup_addrs_child a [] cs2)|done| |].
      * rewrite Hcn2. by rewrite set_parent_id by (by destruct Hcok).
      * intros x Hx Hne. destruct (Hsep j c' x Hj Hx) as (? & ? & Hu).
        apply Hothers; [done|done|]. intros j' ? Hj'.
        destruct (Hu j' Hj'). done.
  - intros x Hx Hsome. rewrite Hothers.
    + apply Hframe; [|done]. intros Hx'. apply Hx. by apply Hct.
    + intros ->. apply Hx. by left.
    + intros ->. apply Hx. apply Hct, addrs_root.
    + intros j _ Hj. rewrite list_lookup_fmap in Hj.
      destruct (cs2 !! j) as [c'|] eqn:E; [|done]. simplify_eq/=.
      destruct (Hnew2 (root_addr c')) as [?|E'].
      * eapply (addrs_child a [] cs2); [by eapply list_elem_of_lookup_2|apply addrs_root].
      * done.
      * rewrite E' in Hsome. by destruct Hsome.
Qed.

(** *** insert *)

Lemma addrs_slots a kvs kvs' cs : addrs (PT a kvs cs) = addrs (PT a kvs' cs).
Proof. done. Qed.

Lemma found_absorbed h par i a kvs cs nd n p x key value :
  rep h par i (PT a kvs cs) → h !! a = Some nd → shape n (PT a kvs cs) →
  NoDup (addrs (PT a kvs cs)) → ascending (inorder (PT a kvs cs)) →
  kvs !! p = Some x → comp key x.1 = 0%Z →
  ∃ vs, values nd !! p = Some x.2 ∧ store p value (values nd) = Some vs ∧
        assoc key (inorder (PT a kvs cs)) = Some x.2 ∧
        absorbed h (PT a kvs cs) par i n key value
                 (<[a := set_values vs nd]> h) (PT a (<[p := (x.1, value)]> kvs) cs).
Proof.
  intros Hrep Ha Hsh Hnd Hasc Hx Hcmp.
  destruct (rep_root _ _ _ _ Hrep) as (nd0 & Ha0 & Hok). simpl in Ha0, Hok.
  simplify_eq.
  pose proof (lookup_lt_Some _ _ _ Hx) as Hp.
  pose proof (shape_slots _ _ Hsh) as Hsize. simpl in Hsize.
  assert (values nd !! p = Some x.2) as Hv.
  { rewrite <-(lookup_take_lt _ (length kvs)) by done.
    by rewrite (ok_values _ _ _ _ _ Hok), list_lookup_fmap, Hx. }
  exists (<[p := value]> (values nd)). split; [done|]. split.
  { apply store_eq. rewrite (ok_values_len _ _ _ _ _ Hok). lia. }
  destruct (inorder_slot a kvs cs p x) as (pre & post & E).
  { by apply (shape_arity _ _ Hsh). }
  { done. }
  pose proof (E x) as Ex. rewrite list_insert_id in Ex by done.
  rewrite Ex in Hasc |- *.
  destruct (found_facts pre x post key value Hasc Hcmp) as [Hins Hassoc].
  split; [done|]. unfold absorbed.
  split; [done|]. split; [|split; [|split; [done|split; [by rewrite E, Ex|split]]]].
  - apply rep_PT with (set_values (<[p:=value]> (values nd)) nd).
    + by lookups.
    + destruct Hok. constructor; simpl; rewrite ?length_insert; try done.
      * rewrite list_fmap_insert. simpl. rewrite list_insert_id; [done|].
        by rewrite list_lookup_fmap, Hx.
      * rewrite list_fmap_insert. simpl.
        by rewrite take_insert_lt, ok_values0 by done.
    + intros j c Hc. eapply rep_ext; [by eapply rep_child|].
      intros y Hy. rewrite lookup_insert_ne; [done|]. intros ->.
      eapply NoDup_addrs_root; [done| |done]. by eapply list_elem_of_lookup_2.
  - inversion Hsh; subst; constructor; rewrite ?length_insert; done.
  - intros y Hy. by left.
  - intros y Hy _. rewrite lookup_insert_ne; [done|]. intros ->. apply Hy. by left.
Qed.

Lemma leaf_insert_local h par i a kvs nd p key value :
  h !! a = Some nd → node_ok nd par i kvs [] →
  length kvs ≤ 2 * B - 2 → p ≤ length kvs →
  ∃ nd',
    insert_local h a p key value = Some (<[a := nd']> h) ∧
    node_ok nd' par i (insert_at p (key, value) kvs) [].
Proof.
  intros Ha Hok Hroom Hp.
  pose proof (ok_usage _ _ _ _ _ Hok) as Hu.
  pose proof (ok_keys_len _ _ _ _ _ Hok) as Hkl.
  pose proof (ok_values_len _ _ _ _ _ Hok) as Hvl.
  destruct (move_store (values nd) p (usage nd) value)
    as (vs1 & vs2 & Hmv & Hvl1 & Hsv & Hvl2 & Hvs2); [lia..|].
  destruct (move_store (keys nd) p (usage nd) key)
    as (ks1 & ks2 & Hmk & Hkl1 & Hsk & Hkl2 & Hks2); [lia..|].
  rewrite insert_local_eq.
  erewrite update_eq; [|done|simpl; rewrite Hmv; done]. cbn [mbind option_bind].
  erewrite update_eq; [|by lookups|simpl; rewrite Hmk; done]. cbn [mbind option_bind].
  rewrite insert_insert_eq.
  erewrite update_eq; [|by lookups|simpl; rewrite Hsv; done]. cbn [mbind option_bind].
  rewrite insert_insert_eq.
  erewrite update_eq; [|by lookups|simpl; rewrite Hsk; done]. cbn [mbind option_bind].
  rewrite insert_insert_eq.
  erewrite update_eq; [|by lookups|done]. rewrite insert_insert_eq.
  eexists. split; [done|].
  destruct Hok. constructor; simpl; try done.
  - rewrite u16_succ by lia. rewrite insert_at_length. lia.
  - lia.
  - lia.
  - by rewrite insert_at_length, insert_at_fmap, <-ok_keys0, <-Hu.
  - by rewrite insert_at_length, insert_at_fmap, <-ok_values0, <-Hu.
Qed.

Lemma leaf_tail up h a root :
  (nd ← h !! a;
   if decide (usage nd = 2 * B - 1) then
     '(h1, result) ← split h a;
     '(h2, root2) ← promote up h1 a result root;
     Some (h2, root2, @None V)
   else Some (h, root, None))
  = '(h2, root2) ← finish up h a root; Some (h2, root2, None).
Proof.
  unfold finish. destruct (h !! a) as [nd|]; [|done]. simpl.
  destruct (decide _); [|done]. by destruct (split h a) as [[? ?]|].
Qed.

Lemma down_facts a kvs cs p c key value :
  length cs = S (length kvs) → cs !! p = Some c →
  ascending (inorder (PT a kvs cs)) →
  (∀ k, kvs.*1 !! p = Some k → (comp key k < 0)%Z) →
  (∀ j k, j < p → kvs.*1 !! j = Some k → (0 < comp key k)%Z) →
  ascending (inorder c) ∧
  assoc key (inorder (PT a kvs cs)) = assoc key (inorder c) ∧
  (∀ c', inorder c' = ins key value (inorder c) →
         inorder (PT a kvs (<[p := c']> cs)) = ins key value (inorder (PT a kvs cs))) ∧
  (∀ a' l r kv,
      inorder l ++ kv :: inorder r = ins key value (inorder c) →
      inorder (PT a' (insert_at p kv kvs) (take p cs ++ l :: r :: drop (S p) cs))
      = ins key value (inorder (PT a kvs cs))).
Proof.
  intros Hlen Hc Hasc Hnext Hprev.
  destruct (inorder_child_order a kvs cs p c key) as (Ha & Hcasc & Hb); [done..|].
  destruct (inorder_child a kvs cs p c Hlen Hc) as (pre & post & -> & -> & E & E1 & E2).
  split; [done|]. rewrite E. split; [|split].
  - by rewrite assoc_above, assoc_app_below.
  - intros c' Hc'. by rewrite E1, Hc', ins_above, ins_below.
  - intros a' l r kv Hlr. by rewrite E2, Hlr, ins_above, ins_below.
Qed.

Lemma child_absorbed h h' par i a kvs cs n p c c' key value :
  rep h par i (PT a kvs cs) → shape (S n) (PT a kvs cs) →
  NoDup (addrs (PT a kvs cs)) →
  cs !! p = Some c →
  (∀ c', inorder c' = ins key value (inorder c) →
         inorder (PT a kvs (<[p := c']> cs)) = ins key value (inorder (PT a kvs cs))) →
  absorbed h c (Some a) p n key value h' c' →
  absorbed h (PT a kvs cs) par i (S n) key value h' (PT a kvs (<[p := c']> cs)).
Proof.
  intros Hrep Hsh Hnd Hc Hins (Hroot & Hrepc & Hshc & Hndc & Hinc & Hnew & Hframe).
  pose proof (lookup_lt_Some _ _ _ Hc) as Hp.
  destruct (rep_root _ _ _ _ Hrep) as (nd & Ha & Hok). simpl in Ha, Hok.
  assert (∀ x, x ∈ addrs (PT a kvs cs) → is_Some (h !! x)) as Hdom
    by (intros; by eapply rep_dom).
  assert (addrs (PT a kvs (<[p := c']> cs))
          = (a :: concat (addrs <$> take p cs)) ++ addrs c'
              ++ concat (addrs <$> drop (S p) cs)) as Eaddrs.
  { simpl. f_equal. rewrite (concat_middle addrs _ p c') by (by apply list_lookup_insert_eq).
    by rewrite take_insert_ge, drop_insert_lt by lia. }
  assert (addrs (PT a kvs cs)
          = (a :: concat (addrs <$> take p cs)) ++ addrs c
              ++ concat (addrs <$> drop (S p) cs)) as Eaddrs0.
  { simpl. f_equal. by apply concat_middle. }
  split; [done|]. split; [|split; [|split; [|split; [|split]]]].
  - apply rep_PT with nd.
    + rewrite Hframe; [done| |eauto]. eapply NoDup_addrs_root; [done|].
      by eapply list_elem_of_lookup_2.
    + rewrite list_fmap_insert, Hroot, list_insert_id; [done|].
      by rewrite list_lookup_fmap, Hc.
    + intros j c'' Hj. destruct (decide (j = p)) as [->|Hne].
      * rewrite list_lookup_insert_eq in Hj by done. by simplify_eq.
      * rewrite list_lookup_insert_ne in Hj by done.
        eapply rep_ext; [by eapply rep_child|].
        intros x Hx. apply Hframe.
        -- intros Hx'. apply Hne. by eapply (NoDup_addrs_disjoint a kvs cs).
        -- apply Hdom. eapply addrs_child; [|done]. by eapply list_elem_of_lookup_2.
  - inversion Hsh; subst. constructor; rewrite ?length_insert; [done|done|].
    intros c'' [j Hj]%list_elem_of_lookup. destruct (decide (j = p)) as [->|Hne].
    + rewrite list_lookup_insert_eq in Hj by done. by simplify_eq.
    + rewrite list_lookup_insert_ne in Hj by done.
      match goal with H : ∀ c, c ∈ cs → shape _ c |- _ => apply H end.
      by eapply list_elem_of_lookup_2.
  - rewrite Eaddrs. rewrite Eaddrs0 in Hnd. eapply NoDup_replace; [done|done|].
    intros x Hx. destruct (Hnew x Hx) as [?|Hx']; [by left|right].
    rewrite <-Eaddrs0. intros Hin. destruct (Hdom x Hin). congruence.
  - by apply Hins.
  - rewrite Eaddrs, Eaddrs0. intros x. rewrite !elem_of_app.
    intros [?|[Hx|?]]; auto. destruct (Hnew x Hx); auto.
  - intros x Hx Hsome. apply Hframe; [|done]. intros Hx'. apply Hx.
    eapply addrs_child; [|done]. by eapply list_elem_of_lookup_2.
Qed.

Lemma insert_node n t :
  shape n t → ∀ h par i root up fuel key value,
  rep h par i t → NoDup (addrs t) → ascending (inorder t) → n < fuel →
  (∃ h' t',
      BTreeNode_insert (n + up) fuel h (root_addr t) key value root
      = Some (h', root, assoc key (inorder t)) ∧
      absorbed h t par i n key value h' t')
  ∨ (∃ h1 l r kv,
      BTreeNode_insert (n + up) fuel h (root_addr t) key value root
      = ('(h2, root2) ← promote up h1 (root_addr t)
                          (mkSplit (root_addr l) (root_addr r) kv.1 kv.2) root;
         Some (h2, root2, None)) ∧
      assoc key (inorder t) = None ∧
      overflowed h t par i n key value h1 l r kv).
Proof.
  intros Hsh. pose proof Hsh as Hsh0. revert Hsh0.
  induction Hsh as [a kvs Hk|n a kvs cs Hk Hlen Hsh IH];
    intros Hsh0 h par i root up fuel key value Hrep Hnd Hasc Hfuel;
    (destruct fuel as [|fuel]; [lia|]);
    destruct (rep_root _ _ _ _ Hrep) as (nd & Ha & Hok); simpl in Ha, Hok;
    cbn [root_addr]; rewrite BTreeNode_insert_eq, Ha; cbn [mbind option_bind];
    (destruct (linear_search_spec nd par i kvs _ key Hok) as (flag & -> & Hres); [lia|]);
    cbn [mbind option_bind];
    (apply search_cases in Hres; [|rewrite length_fmap; lia]);
    destruct Hres as [(p & k & Hp & Hcmp & Hprev & -> & Hidx)
                     |(p & Hp & Hnext & Hprev & -> & Hidx)];
    cbn [negb]; rewrite ?Hidx.
  - (* leaf, key present *)
    apply list_lookup_fmap_Some in Hp as (x & -> & Hx).
    destruct (found_absorbed h par i a kvs [] nd 0 p x key value)
      as (vs & -> & -> & -> & Habs); try done.
    left. eauto.
  - (* leaf, key absent *)
    rewrite (node_ok_leaf _ _ _ _ Hok). rewrite length_fmap in Hp.
    destruct (leaf_insert_local h par i a kvs nd p key value)
      as (nd' & -> & Hok'); [done|done|lia|done|].
    cbn [mbind option_bind]. rewrite leaf_tail. change (0 + up) with up.
    rewrite inorder_leaf in Hasc.
    destruct (leaf_down_facts kvs p key) as [Hab Hbe]; [done..|].
    assert (assoc key (inorder (PT a kvs [])) = None) as Hnone.
    { rewrite inorder_leaf. by eapply assoc_at. }
    destruct (finish_spec 0 h (PT a kvs []) (<[a:=nd']> h) a
                (insert_at p (key, value) kvs) [] par i up root key value)
      as [[-> Habs]|(h3 & l & r & kv & -> & Hov)]; try done.
    + apply rep_PT with nd'; [by lookups|done|]. by intros j c ?.
    + rewrite insert_at_length. lia.
    + by left.
    + rewrite !inorder_leaf. symmetry. by apply ins_at.
    + intros x Hx. by left.
    + intros x Hx _. rewrite lookup_insert_ne; [done|]. intros ->. apply Hx. by left.
    + left. rewrite Hnone. eauto.
    + right. eauto 10.
  - (* internal, key present *)
    apply list_lookup_fmap_Some in Hp as (x & -> & Hx).
    destruct (found_absorbed h par i a kvs cs nd (S n) p x key value)
      as (vs & -> & -> & -> & Habs); try done.
    left. eauto.
  - (* internal, key absent *)
    rewrite length_fmap in Hp.
    assert (is_Some (cs !! p)) as [c Hc] by (apply lookup_lt_is_Some; lia).
    rewrite (node_ok_internal _ _ _ _ _ Hok) by (by destruct cs).
    rewrite (node_ok_child _ _ _ _ _ p (root_addr c) Hok)
      by (by rewrite list_lookup_fmap, Hc).
    cbn [mbind option_bind mjoin option_join].
    destruct (down_facts a kvs cs p c key value) as (Hcasc & Hassoc & Hins1 & Hins2);
      [done..|].
    pose proof (list_elem_of_lookup_2 _ _ _ Hc) as Hcin.
    replace (S n + up) with (n + S up) by lia.
    destruct (IH c Hcin (Hsh c Hcin) h (Some a) p root (S up) fuel key value)
      as [(h' & c' & -> & Habs)|(h1 & l & r & kv & -> & Hnone & Hov)].
    { by eapply rep_child. }
    { by eapply NoDup_addrs_child. }
    { done. }
    { lia. }
    + left. exists h', (PT a kvs (<[p := c']> cs)). rewrite Hassoc. split; [done|].
      by eapply child_absorbed.
    + rewrite Hassoc, Hnone.
      destruct (adopt_tree up n h h1 par i a kvs cs p c l r kv key value)
        as (h2 & Hadopt & Hrep2 & Hnd2 & Hnew2 & Hframe2); [done|done|done|lia|done|done|].
      pose proof Hov as ((snd & Hsnd & _ & Hsp & Hsi) & _ & _ & Hshl & Hshr & _ & _
                         & Hinlr & _).
      assert (promote (S up) h1 (root_addr c)
                (mkSplit (root_addr l) (root_addr r) kv.1 kv.2) root
              = finish up h2 a root) as ->.
      { unfold promote. rewrite Hsnd. cbn [mbind option_bind]. rewrite Hsp, Hsi.
        rewrite adopt_unfold. cbn [sr_l sr_r sr_key sr_value]. by rewrite Hadopt. }
      destruct (finish_spec (S n) h (PT a kvs cs) h2 a (insert_at p kv kvs)
                  (take p cs ++ l :: r :: drop (S p) cs) par i up root key value)
        as [[-> Habs]|(h3 & l' & r' & kv' & -> & Hov')]; try done.
      * rewrite insert_at_length. lia.
      * right. exists n. split; [done|]. split.
        -- rewrite length_app, length_take, insert_at_length. simpl.
           rewrite length_drop. lia.
        -- intros c' [Hc'|Hc']%elem_of_app; [apply Hsh; by eapply in_take|].
           apply elem_of_cons in Hc' as [->|Hc']; [done|].
           apply elem_of_cons in Hc' as [->|Hc']; [done|].
           apply Hsh. by eapply in_drop.
      * by apply Hins2.
      * left. eauto.
      * right. eauto 10.
Qed.

(** *** The tree *)

Lemma NoDup_size (h : gmap addr BTreeNode) (l : list addr) :
  NoDup l → (∀ x, x ∈ l → is_Some (h !! x)) → length l ≤ size h.
Proof.
  intros Hnd Hdom. rewrite <-size_dom, <-(size_list_to_set (C := gset addr) l) by done.
  apply subseteq_size. intros x Hx. apply elem_of_list_to_set in Hx.
  by apply elem_of_dom, Hdom.
Qed.

Lemma gas_enough t T n : tree_rep t T n → n < gas t.
Proof.
  intros (_ & Hrep & Hsh & Hnd). unfold gas.
  pose proof (shape_height _ _ Hsh).
  pose proof (NoDup_size (heap t) (addrs T) Hnd). 
  assert (length (addrs T) ≤ size (heap t)); [|lia].
  apply H0. intros x Hx. by eapply rep_dom.
Qed.

Lemma inorder_two s kv l r :
  inorder (PT s [kv] [l; r]) = inorder l ++ kv :: inorder r.
Proof. unfold inorder; fold inorder. simpl. by rewrite app_nil_r. Qed.

(** One insert into a non-empty tree. *)
Lemma BTree_insert_rep t T n key value :
  tree_rep t T n → ascending (inorder T) →
  ∃ t' T' n',
    BTree_insert t key value = Some (t', assoc key (inorder T)) ∧
    tree_rep t' T' n' ∧
    inorder T' = ins key value (inorder T) ∧
    ((n' = n ∧ root t' = root t) ∨
     (n' = S n ∧ ∃ s kv l r, T' = PT s [kv] [l; r] ∧
                  length (slots l) = B - 1 ∧ length (slots r) = B - 1)).
Proof.
  intros Hrep Hasc. pose proof (gas_enough _ _ _ Hrep) as Hgas.
  destruct Hrep as (Hroot & Hrep & Hsh & Hnd).
  rewrite BTree_insert_eq, Hroot.
  destruct (insert_node n T Hsh (heap t) None 0 (Some (root_addr T)) (gas t - n)
              (gas t) key value Hrep Hnd Hasc Hgas)
    as [(h' & T' & Hins & Habs)|(h1 & l & r & kv & Hins & Hnone & Hov)];
    replace (n + (gas t - n)) with (gas t) in Hins by lia; rewrite Hins.
  - destruct Habs as (Hr' & Hrep' & Hsh' & Hnd' & Hin' & _).
    exists (mkTree h' (Some (root_addr T))), T', n. cbn [mbind option_bind].
    split; [done|]. split; [|split; [done|by left]].
    split; [by rewrite Hr'|]. done.
  - destruct Hov as ((snd & Hsnd & Hsu & Hsp & _) & Hrl & Hrr & Hshl & Hshr & Hndlr
                     & Hstale & Hinlr & _ & _ & Hll & Hlr).
    unfold promote. rewrite Hsnd. cbn [mbind option_bind]. rewrite Hsp.
    erewrite destroy_stale by done. cbn [mbind option_bind sr_l sr_r sr_key sr_value].
    destruct (singleton_tree (delete (root_addr T) h1) None 0 None 0 l r kv)
      as (h' & s & -> & Hs & Hrep' & _); [| |done|].
    { eapply rep_ext; [done|]. intros x Hx. rewrite lookup_delete_ne; [done|].
      intros <-. apply Hstale, elem_of_app. by left. }
    { eapply rep_ext; [done|]. intros x Hx. rewrite lookup_delete_ne; [done|].
      intros <-. apply Hstale, elem_of_app. by right. }
    cbn [mbind option_bind].
    exists (mkTree h' (Some s)), (PT s [kv] [l; r]), (S n).
    rewrite Hnone. split; [done|]. split; [|split].
    + split; [done|]. split; [done|]. split.
      * constructor; simpl; [lia|done|].
        intros c [->|[->|[]%elem_of_nil]%elem_of_cons]%elem_of_cons; done.
      * simpl. rewrite app_nil_r. apply NoDup_cons. split; [|done].
        intros Hin. assert (is_Some (delete (root_addr T) h1 !! s)) as [? ?]; [|congruence].
        apply elem_of_app in Hin as [Hin|Hin].
        -- eapply (rep_dom _ _ _ l); [|done]. eapply rep_ext; [done|].
           intros x Hx. rewrite lookup_delete_ne; [done|].
           intros <-. apply Hstale, elem_of_app. by left.
        -- eapply (rep_dom _ _ _ r); [|done]. eapply rep_ext; [done|].
           intros x Hx. rewrite lookup_delete_ne; [done|].
           intros <-. apply Hstale, elem_of_app. by right.
    + by rewrite inorder_two.
    + right. split; [done|]. exists s, kv, l, r. split; [done|]. by split.
Qed.

Lemma BTree_insert_empty t key value :
  root t = None →
  ∃ t' a, BTree_insert t key value = Some (t', None) ∧
          tree_rep t' (PT a [(key, value)] []) 0.
Proof.
  intros Hroot. rewrite BTree_insert_eq, Hroot. unfold alloc.
  set (a := fresh (dom (heap t))).
  erewrite update_eq; [|by lookups|done]. cbn [mbind option_bind].
  rewrite insert_insert_eq.
  erewrite update_eq; [|by lookups|
    simpl; rewrite store_eq by (rewrite length_replicate; lia); done].
  cbn [mbind option_bind]. rewrite insert_insert_eq.
  erewrite update_eq; [|by lookups|
    simpl; rewrite store_eq by (rewrite length_replicate; lia); done].
  cbn [mbind option_bind]. rewrite insert_insert_eq.
  eexists _, a. split; [done|]. split; [done|]. split; [|split].
  - eapply rep_PT; [by simpl; lookups| |by intros j c ?].
    constructor; simpl; rewrite ?length_insert, ?length_replicate; try done.
    + destruct (B + (B + 0) - 1) as [|m] eqn:E; [lia|]. done.
    + destruct (B + (B + 0) - 1) as [|m] eqn:E; [lia|]. done.
  - constructor. simpl. lia.
  - simpl. apply NoDup_singleton.
Qed.

Lemma BTree_insert_inv t l key value :
  tree_inv t l → ascending l →
  ∃ t', BTree_insert t key value = Some (t', assoc key l) ∧
        tree_inv t' (ins key value l) ∧ is_Some (root t').
Proof.
  unfold tree_inv. intros Hinv Hasc. destruct (root t) as [r|] eqn:Hroot.
  - destruct Hinv as (n & T & Hrep & <-).
    destruct (BTree_insert_rep t T n key value Hrep Hasc)
      as (t' & T' & n' & Hins & Hrep' & Hin' & _).
    exists t'. split; [done|]. destruct Hrep' as (Hroot' & ?).
    rewrite Hroot'. split; [|eauto]. exists n', T'. by split.
  - subst l. destruct (BTree_insert_empty t key value Hroot) as (t' & a & Hins & Hrep).
    exists t'. split; [done|]. destruct Hrep as (Hroot' & ?).
    rewrite Hroot'. split; [|eauto]. eexists 0, _. by split.
Qed.

Lemma run_inv ops : ∀ t l,
  tree_inv t l → ascending l →
  ∃ t', run ops t = Some t' ∧
        tree_inv t' (foldl (λ acc kv, ins kv.1 kv.2 acc) l ops) ∧
        ascending (foldl (λ acc kv, ins kv.1 kv.2 acc) l ops).
Proof.
  induction ops as [|[k v] ops IH]; intros t l Hinv Hasc; simpl.
  - eauto.
  - destruct (BTree_insert_inv t l k v Hinv Hasc) as (t' & -> & Hinv' & _).
    cbn [mbind option_bind]. apply IH; [done|]. by apply ins_ascending.
Qed.

Lemma run_model ops :
  ∃ t, run ops BTree_empty = Some t ∧ tree_inv t (model ops) ∧ ascending (model ops).
Proof. apply run_inv; [done|]. constructor. Qed.

Lemma model_snoc ops k v : model (ops ++ [(k, v)]) = ins k v (model ops).
Proof. unfold model. by rewrite foldl_app. Qed.

Lemma model_keys ops x : x ∈ (model ops).*1 ↔ x ∈ ops.*1.
Proof.
  induction ops as [|[k v] ops IH] using rev_ind; [done|].
  rewrite model_snoc, ins_keys, fmap_app, elem_of_app, IH. simpl.
  rewrite list_elem_of_singleton. tauto.
Qed.

Lemma run_snoc ops k v t0 :
  run (ops ++ [(k, v)]) t0 = t ← run ops t0; fst <$> BTree_insert t k v.
Proof.
  revert t0. induction ops as [|[k' v'] ops IH]; intros t0; simpl.
  - by destruct (BTree_insert t0 k v) as [[? ?]|].
  - destruct (BTree_insert t0 k' v') as [[t1 ?]|]; [|done]. simpl. apply IH.
Qed.


(** *** Linked lists of positions *)

Lemma linked_app next P1 P2 exit :
  linked next P1 (hd exit P2) → linked next P2 exit → linked next (P1 ++ P2) exit.
Proof.
  induction P1 as [|it P1 IH]; simpl; [done|]. intros [Hit H1] H2.
  split; [|by apply IH]. by destruct P1.
Qed.

Lemma linked_lookup next P exit j it :
  linked next P exit → P !! j = Some it →
  next it = Some (default exit (P !! S j)).
Proof.
  revert j. induction P as [|it0 P IH]; intros j Hl Hj; [done|].
  destruct Hl as [H0 Hl]. destruct j as [|j]; simplify_eq/=.
  - by destruct P.
  - by apply IH.
Qed.

Lemma linked_node next (css : list (list iterator)) ks exit :
  length css = S (length ks) →
  (∀ P, P ∈ css → P ≠ []) →
  (∀ j P, css !! j = Some P → linked next P (default exit (ks !! j))) →
  (∀ j k P, ks !! j = Some k → css !! S j = Some P → next k = Some (hd exit P)) →
  linked next (interleave css ks) exit.
Proof.
  revert ks. induction css as [|c css IH]; intros ks Hlen Hne Hch Hk; [done|].
  destruct ks as [|k ks]; simpl in *.
  - destruct css; [|done]. simpl. rewrite app_nil_r. by apply (Hch 0).
  - apply linked_app; simpl.
    + by apply (Hch 0).
    + assert (is_Some (css !! 0)) as [P HP] by (apply lookup_lt_is_Some; lia).
      assert (hd exit (interleave css ks) = hd exit P) as ->.
      { destruct css as [|P' css]; simplify_eq/=.
        assert (P ≠ []) by (apply Hne; right; by left). by destruct P. }
      split; [by apply (Hk 0)|]. apply IH; [lia| | |].
      * intros P' HP'. apply Hne. by right.
      * intros j P' HP'. by apply (Hch (S j)).
      * intros j k' P' Hk' HP'. by apply (Hk (S j)).
Qed.

Lemma linked_back_app prev entry P1 P2 :
  linked_back prev entry P1 → linked_back prev (default entry (last P1)) P2 →
  linked_back prev entry (P1 ++ P2).
Proof.
  revert entry. induction P1 as [|it P1 IH]; intros entry; simpl; [done|].
  intros [Hit H1] H2. split; [done|]. apply IH; [done|].
  destruct P1 as [|x P1']; [by simpl in *|]. rewrite last_cons_cons in H2.
  revert H2. destruct (last (x :: P1')) eqn:E; [done|]. by apply last_None in E.
Qed.

Lemma linked_back_lookup prev entry P j it :
  linked_back prev entry P → P !! j = Some it →
  prev it = Some (match j with 0 => entry | S j' => default entry (P !! j') end).
Proof.
  revert entry j. induction P as [|it0 P IH]; intros entry j Hl Hj; [done|].
  destruct Hl as [H0 Hl]. destruct j as [|j]; simplify_eq/=; [done|].
  rewrite (IH it0 j Hl Hj). destruct j; [done|]. simpl.
  apply lookup_lt_Some in Hj.
  assert (is_Some (P !! j)) as [? ->] by (apply lookup_lt_is_Some; lia). done.
Qed.

Lemma last_interleave {X} (css : list (list X)) ks P :
  length css = S (length ks) → last css = Some P → P ≠ [] →
  last (interleave css ks) = last P.
Proof.
  revert ks. induction css as [|c css IH]; intros ks Hlen Hlast HP; [done|].
  destruct ks as [|k ks]; simpl in *.
  - destruct css; [|done]. simpl in *. simplify_eq. by rewrite app_nil_r.
  - destruct css as [|c' css]; [done|]. rewrite last_cons_cons in Hlast.
    rewrite last_app. rewrite last_cons.
    rewrite (IH ks) by (done || simpl in *; lia).
    destruct (last P) eqn:E; [done|]. apply last_None in E. done.
Qed.

Lemma linked_back_node prev (css : list (list iterator)) ks entry :
  length css = S (length ks) →
  (∀ P, P ∈ css → P ≠ []) →
  (∀ j P, css !! j = Some P →
          linked_back prev (match j with 0 => entry | S j' => default entry (ks !! j') end) P) →
  (∀ j k P, ks !! j = Some k → css !! j = Some P → prev k = Some (default entry (last P))) →
  linked_back prev entry (interleave css ks).
Proof.
  revert ks entry. induction css as [|c css IH]; intros ks entry Hlen Hne Hch Hk; [done|].
  destruct ks as [|k ks]; simpl in *.
  - destruct css; [|done]. simpl. rewrite app_nil_r. by apply (Hch 0).
  - assert (c ≠ []) as Hc by (apply Hne; by left).
    apply linked_back_app; [by apply (Hch 0)|]. simpl.
    split; [by apply (Hk 0)|]. apply IH; [lia| | |].
    + intros P' HP'. apply Hne. by right.
    + intros j P' HP'. specialize (Hch (S j) P' HP'). simpl in Hch.
      destruct j as [|j]; [done|]. simpl.
      change ((k :: ks) !! S j) with (ks !! j) in Hch.
      destruct (ks !! j) eqn:E; [done|]. exfalso.
      apply lookup_lt_Some in HP'. apply lookup_ge_None in E. simpl in *. lia.
    + intros j k' P' Hk' HP'. rewrite (Hk (S j) k' P') by done.
      assert (P' ≠ []) by (apply Hne; right; by eapply list_elem_of_lookup_2).
      destruct (last P') eqn:E; [done|]. by apply last_None in E.
Qed.

(** *** min, max and the climbs *)

Lemma positions_leaf a kvs :
  positions (PT a kvs []) = (λ i, mkIter i (Some a)) <$> seq 0 (length kvs).
Proof. done. Qed.

Lemma positions_node a kvs cs :
  positions (PT a kvs cs)
  = interleave (positions <$> cs) ((λ i, mkIter i (Some a)) <$> seq 0 (length kvs)).
Proof. done. Qed.

Lemma positions_nonempty n t : shape n t → positions t ≠ [].
Proof.
  induction 1 as [a kvs Hk|n a kvs cs Hk Hlen _ IH].
  - rewrite positions_leaf. destruct (length kvs); [lia|done].
  - rewrite positions_node. destruct cs as [|c cs]; [done|].
    rewrite fmap_cons, interleave_cons. intros E.
    apply app_eq_nil in E as [E _]. by apply (IH c); [left|].
Qed.

Lemma min_spec n t :
  shape n t → ∀ h par i fuel, rep h par i t → n < fuel →
  ∃ it, head (positions t) = Some it ∧ BTreeNode_min fuel h (root_addr t) = Some it.
Proof.
  induction 1 as [a kvs Hk|n a kvs cs Hk Hlen Hsh IH]; intros h par i fuel Hrep Hfuel;
    (destruct fuel as [|fuel]; [lia|]);
    destruct (rep_root _ _ _ _ Hrep) as (nd & Ha & Hok); simpl in Ha, Hok;
    cbn [root_addr BTreeNode_min]; rewrite Ha; cbn [mbind option_bind].
  - rewrite (node_ok_leaf _ _ _ _ Hok), positions_leaf.
    exists (mkIter 0 (Some a)). split; [|done]. destruct (length kvs); [lia|done].
  - destruct cs as [|c cs]; [done|].
    rewrite (node_ok_internal _ _ _ _ _ Hok) by done.
    rewrite (node_ok_child _ _ _ _ _ 0 (root_addr c) Hok) by done.
    cbn [mbind option_bind mjoin option_join].
    destruct (IH c ltac:(by left) h (Some a) 0 fuel) as (it & Hhd & Hmin);
      [by eapply rep_child|lia|].
    exists it. split; [|done].
    rewrite positions_node, fmap_cons, interleave_cons.
    destruct (positions c); [done|]. done.
Qed.

Lemma last_seq_fmap {X} (f : nat → X) u : last (f <$> seq 0 (S u)) = Some (f u).
Proof. rewrite seq_S, fmap_app. simpl. apply last_snoc. Qed.

Lemma max_spec n t :
  shape n t → ∀ h par i fuel, rep h par i t → n < fuel →
  ∃ it, last (positions t) = Some it ∧ BTreeNode_max fuel h (root_addr t) = Some it.
Proof.
  induction 1 as [a kvs Hk|n a kvs cs Hk Hlen Hsh IH]; intros h par i fuel Hrep Hfuel;
    (destruct fuel as [|fuel]; [lia|]);
    destruct (rep_root _ _ _ _ Hrep) as (nd & Ha & Hok); simpl in Ha, Hok;
    pose proof (ok_usage _ _ _ _ _ Hok) as Hu;
    cbn [root_addr BTreeNode_max]; rewrite Ha; cbn [mbind option_bind].
  - rewrite (node_ok_leaf _ _ _ _ Hok), positions_leaf.
    eexists. split; [|done]. rewrite Hu, u16_pred by lia.
    destruct (length kvs) as [|u]; [lia|]. rewrite last_seq_fmap.
    do 2 f_equal. lia.
  - rewrite (node_ok_internal _ _ _ _ _ Hok) by (by destruct cs).
    assert (is_Some (cs !! length kvs)) as [c Hc] by (apply lookup_lt_is_Some; lia).
    rewrite Hu, (node_ok_child _ _ _ _ _ (length kvs) (root_addr c) Hok)
      by (by rewrite list_lookup_fmap, Hc).
    cbn [mbind option_bind mjoin option_join].
    pose proof (list_elem_of_lookup_2 _ _ _ Hc) as Hcin.
    destruct (IH c Hcin h (Some a) (length kvs) fuel) as (it & Hlast & Hmax);
      [by eapply rep_child|lia|].
    exists it. split; [|done].
    rewrite positions_node. rewrite (last_interleave _ _ (positions c)); [done| | |].
    + rewrite !length_fmap, length_seq. done.
    + rewrite fmap_last, last_lookup, Hlen. simpl. by rewrite Hc.
    + by eapply positions_nonempty, Hsh.
Qed.

Lemma after_here h a nd p pn fuel :
  h !! a = Some nd → parent nd = Some p → h !! p = Some pn →
  parent_idx nd ≠ usage pn →
  after (S fuel) h a = Some (mkIter (parent_idx nd) (Some p)).
Proof.
  intros Ha Hp Hpn Hne. unfold after. simpl. rewrite Ha. simpl. rewrite Hp, Hpn. simpl.
  destruct (Nat.eqb_spec (parent_idx nd) (usage pn)); [done|].
  simpl. by rewrite Ha; simpl; rewrite Hp.
Qed.

Lemma after_up h a nd p pn fuel :
  h !! a = Some nd → parent nd = Some p → h !! p = Some pn →
  parent_idx nd = usage pn →
  after (S fuel) h a = after fuel h p.
Proof.
  intros Ha Hp Hpn He. unfold after. simpl. rewrite Ha. simpl. rewrite Hp, Hpn. simpl.
  by rewrite He, Nat.eqb_refl.
Qed.

Lemma after_root h a nd fuel :
  h !! a = Some nd → parent nd = None → after (S fuel) h a = Some (mkIter 0 None).
Proof.
  intros Ha Hp. unfold after. simpl. rewrite Ha. simpl. rewrite Hp. simpl.
  by rewrite Ha; simpl; rewrite Hp.
Qed.

Lemma before_here h a nd p fuel :
  h !! a = Some nd → parent nd = Some p → parent_idx nd ≠ 0 →
  (Z.of_nat (parent_idx nd) < 65536)%Z →
  before_pos (S fuel) h a = Some (mkIter (parent_idx nd - 1) (Some p)).
Proof.
  intros Ha Hp Hne Hmax. unfold before_pos. simpl. rewrite Ha. simpl. rewrite Hp.
  destruct (Nat.eqb_spec (parent_idx nd) 0); [done|].
  simpl. rewrite Ha; simpl; rewrite Hp. by rewrite u16_pred by lia.
Qed.

Lemma before_up h a nd p fuel :
  h !! a = Some nd → parent nd = Some p → parent_idx nd = 0 →
  before_pos (S fuel) h a = before_pos fuel h p.
Proof.
  intros Ha Hp He. unfold before_pos. simpl. rewrite Ha. simpl. rewrite Hp.
  by rewrite He.
Qed.

Lemma before_root h a nd fuel :
  h !! a = Some nd → parent nd = None → before_pos (S fuel) h a = Some (mkIter 0 None).
Proof.
  intros Ha Hp. unfold before_pos. simpl. rewrite Ha. simpl. rewrite Hp. simpl.
  by rewrite Ha; simpl; rewrite Hp.
Qed.

Lemma linked_seq next a exit m : ∀ s,
  (∀ j, s ≤ j → S j < s + m → next (mkIter j (Some a)) = Some (mkIter (S j) (Some a))) →
  (0 < m → next (mkIter (s + m - 1) (Some a)) = Some exit) →
  linked next ((λ i, mkIter i (Some a)) <$> seq s m) exit.
Proof.
  induction m as [|m IH]; intros s Hin Hlast; [done|].
  simpl. split.
  - destruct m as [|m]; simpl.
    + rewrite <-Hlast by lia. do 2 f_equal. lia.
    + apply Hin; lia.
  - apply IH.
    + intros j ? ?. apply Hin; lia.
    + intros ?. rewrite <-Hlast by lia. do 2 f_equal. lia.
Qed.

Lemma linked_back_seq prev a m : ∀ s entry,
  (0 < m → prev (mkIter s (Some a)) = Some entry) →
  (∀ j, s ≤ j → S j < s + m → prev (mkIter (S j) (Some a)) = Some (mkIter j (Some a))) →
  linked_back prev entry ((λ i, mkIter i (Some a)) <$> seq s m).
Proof.
  induction m as [|m IH]; intros s entry Hfirst Hin; [done|].
  simpl. split; [apply Hfirst; lia|]. apply IH.
  - intros ?. apply Hin; lia.
  - intros j ? ?. apply Hin; lia.
Qed.

(** *** successor and predecessor along the in-order positions *)

Lemma succ_linked n t :
  shape n t → ∀ h par i fuel F exit,
  rep h par i t →
  (∀ f, F ≤ f → after f h (root_addr t) = Some exit) →
  n + F ≤ fuel → n < fuel →
  linked (step_next fuel h) (positions t) exit.
Proof.
  induction 1 as [a kvs Hk|n a kvs cs Hk Hlen Hsh IH];
    intros h par i fuel F exit Hrep Hexit HF Hfuel;
    destruct (rep_root _ _ _ _ Hrep) as (nd & Ha & Hok); simpl in Ha, Hok;
    pose proof (ok_usage _ _ _ _ _ Hok) as Hu.
  - rewrite positions_leaf. apply linked_seq.
    + intros j _ Hj. unfold step_next, successor. simpl. rewrite Ha. simpl.
      rewrite (node_ok_leaf _ _ _ _ Hok), Hu.
      destruct (Z.ltb_spec (Z.of_nat j) (Z.of_nat (length kvs) - 1)); [|lia].
      by rewrite u16_succ by lia.
    + intros _. unfold step_next, successor. simpl. rewrite Ha. simpl.
      rewrite (node_ok_leaf _ _ _ _ Hok), Hu.
      destruct (Z.ltb_spec (Z.of_nat (length kvs - 1)) (Z.of_nat (length kvs) - 1)); [lia|].
      apply (Hexit fuel). lia.
  - assert (IsInternal nd = true) as Hint
      by (eapply node_ok_internal; [done|by destruct cs]).
    rewrite positions_node. apply linked_node.
    + by rewrite !length_fmap, length_seq.
    + intros P (c & -> & Hc)%list_elem_of_fmap. by eapply positions_nonempty, Hsh.
    + intros j P HP. rewrite list_lookup_fmap in HP.
      destruct (cs !! j) as [c|] eqn:Hc; [|done]. simplify_eq/=.
      pose proof (list_elem_of_lookup_2 _ _ _ Hc) as Hcin.
      pose proof (lookup_lt_Some _ _ _ Hc) as Hj.
      pose proof (rep_child _ _ _ _ _ _ _ _ Hrep Hc) as Hrc.
      destruct (rep_root _ _ _ _ Hrc) as (cn & Hcn & Hcok).
      destruct (decide (j = length kvs)) as [->|Hne].
      * rewrite lookup_ge_None_2 by (rewrite length_fmap, length_seq; lia). simpl.
        apply (IH c Hcin h (Some a) (length kvs) fuel (S F)); [done| |lia|lia].
        intros f Hf. destruct f as [|f]; [lia|].
        rewrite (after_up h (root_addr c) cn a nd); [apply Hexit; lia|done| |done|].
        -- by destruct Hcok.
        -- destruct Hcok. lia.
      * rewrite list_lookup_fmap, lookup_seq_lt by lia. simpl.
        apply (IH c Hcin h (Some a) j fuel 1); [done| |lia|lia].
        intros f Hf. destruct f as [|f]; [lia|].
        rewrite (after_here h (root_addr c) cn a nd); [|done| |done|].
        -- by destruct Hcok as [_ _ _ _ _ _ -> _ _ _].
        -- by destruct Hcok.
        -- destruct Hcok. lia.
    + intros j k P Hk' HP. rewrite list_lookup_fmap in HP. rewrite list_lookup_fmap in Hk'.
      destruct (cs !! S j) as [c|] eqn:Hc; [|done].
      apply fmap_Some in Hk' as (j' & [-> ?]%lookup_seq & ->). simplify_eq/=.
      unfold step_next, successor. simpl. rewrite Ha. simpl. rewrite Hint.
      replace (j + 1) with (S j) by lia.
      rewrite (node_ok_child _ _ _ _ _ (S j) (root_addr c) Hok)
        by (by rewrite list_lookup_fmap, Hc).
      simpl.
      destruct (min_spec n c (Hsh c (list_elem_of_lookup_2 _ _ _ Hc)) h (Some a) (S j) fuel)
        as (it & Hhd & ->); [by eapply rep_child|lia|].
      by destruct (positions c); simplify_eq/=.
Qed.

Lemma pred_linked n t :
  shape n t → ∀ h par i fuel F entry,
  rep h par i t →
  (∀ f, F ≤ f → before_pos f h (root_addr t) = Some entry) →
  n + F ≤ fuel → n < fuel →
  linked_back (step_prev fuel h) entry (positions t).
Proof.
  induction 1 as [a kvs Hk|n a kvs cs Hk Hlen Hsh IH];
    intros h par i fuel F entry Hrep Hentry HF Hfuel;
    destruct (rep_root _ _ _ _ Hrep) as (nd & Ha & Hok); simpl in Ha, Hok;
    pose proof (ok_usage _ _ _ _ _ Hok) as Hu.
  - rewrite positions_leaf. apply linked_back_seq.
    + intros _. unfold step_prev, predecessor. simpl. rewrite Ha. simpl.
      rewrite (node_ok_leaf _ _ _ _ Hok). simpl. apply (Hentry fuel). lia.
    + intros j _ Hj. unfold step_prev, predecessor. simpl. rewrite Ha. simpl.
      rewrite (node_ok_leaf _ _ _ _ Hok). simpl.
      rewrite u16_pred by lia. do 2 f_equal. lia.
  - assert (IsInternal nd = true) as Hint
      by (eapply node_ok_internal; [done|by destruct cs]).
    rewrite positions_node. apply linked_back_node.
    + by rewrite !length_fmap, length_seq.
    + intros P (c & -> & Hc)%list_elem_of_fmap. by eapply positions_nonempty, Hsh.
    + intros j P HP. rewrite list_lookup_fmap in HP.
      destruct (cs !! j) as [c|] eqn:Hc; [|done]. simplify_eq/=.
      pose proof (list_elem_of_lookup_2 _ _ _ Hc) as Hcin.
      pose proof (lookup_lt_Some _ _ _ Hc) as Hj.
      pose proof (rep_child _ _ _ _ _ _ _ _ Hrep Hc) as Hrc.
      destruct (rep_root _ _ _ _ Hrc) as (cn & Hcn & Hcok).
      destruct j as [|j].
      * apply (IH c Hcin h (Some a) 0 fuel (S F)); [done| |lia|lia].
        intros f Hf. destruct f as [|f]; [lia|].
        rewrite (before_up h (root_addr c) cn a); [apply Hentry; lia|done| |].
        -- by destruct Hcok.
        -- by destruct Hcok.
      * rewrite list_lookup_fmap, lookup_seq_lt by lia. simpl.
        apply (IH c Hcin h (Some a) (S j) fuel 1); [done| |lia|lia].
        intros f Hf. destruct f as [|f]; [lia|].
        rewrite (before_here h (root_addr c) cn a); [|done| | |].
        -- destruct Hcok as [_ _ _ _ _ _ -> _ _ _]. do 2 f_equal. lia.
        -- by destruct Hcok.
        -- destruct Hcok. lia.
        -- destruct Hcok. lia.
    + intros j k P Hk' HP. rewrite list_lookup_fmap in HP. rewrite list_lookup_fmap in Hk'.
      destruct (cs !! j) as [c|] eqn:Hc; [|done].
      apply fmap_Some in Hk' as (j' & [-> ?]%lookup_seq & ->). simplify_eq/=.
      unfold step_prev, predecessor. simpl. rewrite Ha. simpl. rewrite Hint.
      rewrite (node_ok_child _ _ _ _ _ j (root_addr c) Hok)
        by (by rewrite list_lookup_fmap, Hc).
      simpl.
      destruct (max_spec n c (Hsh c (list_elem_of_lookup_2 _ _ _ Hc)) h (Some a) j fuel)
        as (it & Hlast & ->); [by eapply rep_child|lia|].
      by rewrite Hlast.
Qed.

(** *** Traversal *)

Lemma interleave_Forall2 {X Y} (R : X → Y → Prop) css1 css2 :
  Forall2 (Forall2 R) css1 css2 → ∀ ks1 ks2, Forall2 R ks1 ks2 →
  Forall2 R (interleave css1 ks1) (interleave css2 ks2).
Proof.
  induction 1 as [|c1 c2 css1 css2 Hc _ IH]; intros ks1 ks2 Hks; [done|].
  simpl. apply Forall2_app; [done|].
  destruct Hks; [by apply IH|]. constructor; [done|]. by apply IH.
Qed.

Lemma deref_positions n t :
  shape n t → ∀ h par i, rep h par i t →
  Forall2 (at_pos h) (positions t) (inorder t).
Proof.
  induction 1 as [a kvs Hk|n a kvs cs Hk Hlen Hsh IH]; intros h par i Hrep;
    destruct (rep_root _ _ _ _ Hrep) as (nd & Ha & Hok); simpl in Ha, Hok;
    assert (Forall2 (at_pos h) ((λ i, mkIter i (Some a)) <$> seq 0 (length kvs)) kvs)
      as Hown.
  1,3: apply Forall2_same_length_lookup_2;
    [by rewrite length_fmap, length_seq|];
    intros j it kv Hit Hkv; rewrite list_lookup_fmap in Hit;
    apply fmap_Some in Hit as (j' & [-> ?]%lookup_seq & ->);
    unfold at_pos, deref; simpl; rewrite Ha; simpl;
    rewrite <-(lookup_take_lt (keys nd) (length kvs)) by done;
    rewrite <-(lookup_take_lt (values nd) (length kvs)) by done;
    rewrite (ok_keys _ _ _ _ _ Hok), (ok_values _ _ _ _ _ Hok), !list_lookup_fmap, Hkv;
    simpl; by destruct kv.
  - by rewrite positions_leaf, inorder_leaf.
  - rewrite positions_node. unfold inorder; fold inorder.
    apply interleave_Forall2; [|done].
    apply Forall2_fmap, Forall2_same_length_lookup_2; [done|].
    intros j c c' Hc Hc'. simplify_eq.
    eapply IH; [by eapply list_elem_of_lookup_2|by eapply rep_child].
Qed.

Lemma walk_spec t P L :
  Forall2 (at_pos (heap t)) P L →
  linked (iter_next t) P BTree_end →
  ∀ steps, length P < steps → walk steps t (hd BTree_end P) = Some L.
Proof.
  induction 1 as [|it kv P L Hit _ IH]; intros Hl steps Hsteps;
    (destruct steps as [|steps]; [simpl in *; lia|]); [done|].
  destruct Hl as [Hnext Hl]. cbn [walk hd].
  assert (iterator_neq it BTree_end = true) as ->.
  { unfold at_pos, deref in Hit. unfold iterator_neq. simpl.
    destruct (node it); [|done]. rewrite (bool_decide_eq_false_2 (Some _ = None)) by done.
    by rewrite orb_true_r. }
  unfold at_pos in Hit. rewrite Hit, Hnext. cbn [mbind option_bind].
  rewrite IH; [done|done|simpl in *; lia].
Qed.

Lemma traverse_rep t T n :
  tree_rep t T n →
  ∃ it, BTree_begin t = Some it ∧ head (positions T) = Some it ∧
        linked (iter_next t) (positions T) BTree_end ∧
        linked_back (iter_prev t) BTree_end (positions T) ∧
        Forall2 (at_pos (heap t)) (positions T) (inorder T).
Proof.
  intros Hrep. pose proof (gas_enough _ _ _ Hrep) as Hgas.
  destruct Hrep as (Hroot & Hrep & Hsh & Hnd).
  destruct (rep_root _ _ _ _ Hrep) as (nd & Ha & Hok).
  destruct (min_spec n T Hsh (heap t) None 0 (gas t) Hrep Hgas) as (it & Hhd & Hmin).
  exists it. unfold BTree_begin. rewrite Hroot. split; [done|]. split; [done|].
  split; [|split].
  - apply (succ_linked n T Hsh (heap t) None 0 (gas t) 1); [done| |lia|lia].
    intros f Hf. destruct f as [|f]; [lia|].
    eapply after_root; [done|by destruct Hok].
  - apply (pred_linked n T Hsh (heap t) None 0 (gas t) 1); [done| |lia|lia].
    intros f Hf. destruct f as [|f]; [lia|].
    eapply before_root; [done|by destruct Hok].
  - by eapply deref_positions.
Qed.

Lemma traverse_inv t l :
  tree_inv t l →
  ∃ it, BTree_begin t = Some it ∧
        ∀ steps, length l < steps → walk steps t it = Some l.
Proof.
  unfold tree_inv. intros Hinv. destruct (root t) as [r|] eqn:Hroot.
  - destruct Hinv as (n & T & Hrep & <-).
    destruct (traverse_rep t T n Hrep) as (it & Hbegin & Hhd & Hl & _ & Hd).
    exists it. split; [done|]. intros steps Hsteps.
    replace it with (hd BTree_end (positions T)) by (by destruct (positions T); simplify_eq/=).
    apply walk_spec; [done|done|]. by rewrite (Forall2_length _ _ _ Hd).
  - subst l. exists BTree_end. unfold BTree_begin. rewrite Hroot. split; [done|].
    intros [|steps] ?; [simpl in *; lia|done].
Qed.


(** *** The dictionary of a history *)

Lemma ins_not_nil k v l : ins k v l ≠ [].
Proof.
  destruct l as [|[k' v'] l]; simpl; [done|].
  destruct (comp k k' <? 0)%Z; [done|]. by destruct (comp k k' =? 0)%Z.
Qed.

Lemma model_nil ops : model ops = [] → ops = [].
Proof.
  destruct ops as [|[k v] ops _] using rev_ind; [done|].
  rewrite model_snoc. intros E. by apply ins_not_nil in E.
Qed.

Lemma assoc_ins k k' v' l :
  assoc k (ins k' v' l) = if (comp k k' =? 0)%Z then Some v' else assoc k l.
Proof.
  induction l as [|[k0 v0] l IH]; simpl; [done|].
  destruct (Z.ltb_spec (comp k' k0) 0); [done|].
  destruct (Z.eqb_spec (comp k' k0) 0) as [E|E]; simpl.
  - apply comp_ok in E as ->. by destruct (comp k k0 =? 0)%Z.
  - rewrite IH. destruct (Z.eqb_spec (comp k k0) 0) as [E0|]; [|done].
    destruct (Z.eqb_spec (comp k k') 0) as [E1|]; [|done].
    apply comp_ok in E0, E1. subst. exfalso. apply E. by apply comp_ok.
Qed.

Lemma assoc_elem k v l : ascending l → (k, v) ∈ l ↔ assoc k l = Some v.
Proof.
  unfold ascending. induction l as [|[k' v'] l IH]; intros Hasc; simpl.
  - split; [by intros ?%elem_of_nil|done].
  - apply StronglySorted_inv in Hasc as [Hasc Hall].
    destruct (comp k k' =? 0)%Z eqn:Hcmp.
    + apply Z.eqb_eq in Hcmp. apply (comp_eq comp_ok) in Hcmp as ->. split.
      * intros [Heq|Hin]%elem_of_cons; [by simplify_eq|].
        exfalso. eapply Forall_forall in Hall; [by apply before_irrefl in Hall|].
        by apply (list_elem_of_fmap_2 fst l (k', v)).
      * intros [= ->]. by left.
    + apply Z.eqb_neq in Hcmp. rewrite <-IH by done. split.
      * intros [Heq|Hin]%elem_of_cons; [|done]. simplify_eq.
        exfalso. apply Hcmp. by apply (comp_eq comp_ok).
      * intros Hin. by right.
Qed.

Lemma assoc_model k ops : assoc k (model ops) = latest k ops.
Proof.
  induction ops as [|[k' v'] ops IH] using rev_ind; [done|].
  rewrite model_snoc, assoc_ins, IH. unfold latest. by rewrite foldl_app.
Qed.



(** *** Reference arguments of insert *)




(** A leaf that has stored a pair was given a pair. *)
Lemma insert_local_ref_given h this p (key : ref K) (value : ref V) h' :
  insert_local_ref h this p key value = Some h' →
  ∃ k v, insert_local h this p k v = Some h'.
Proof.
  unfold insert_local_ref. intros Hl.
  apply bind_Some in Hl as (h1 & H1 & Hl). apply bind_Some in Hl as (h2 & H2 & Hl).
  apply bind_Some in Hl as (v & Hv & Hl). apply bind_Some in Hl as (h3 & H3 & Hl).
  apply bind_Some in Hl as (k & Hk & Hl). exists k, v.
  rewrite insert_local_eq, H1. cbn [mbind option_bind]. rewrite H2. cbn [mbind option_bind].
  rewrite H3. cbn [mbind option_bind]. done.
Qed.




Lemma run_ref_object ops t :
  run_ref ((λ kv, (object kv.1, object kv.2)) <$> ops) t = run ops t.
Proof.
  revert t. induction ops as [|[k v] ops IH]; intros t; [done|].
  cbn [fmap list_fmap run_ref run fst snd].
  change (BTree_insert_ref t (object k) (object v)) with (BTree_insert t k v).
  destruct (BTree_insert t k v) as [[t' ?]|]; [|done]. cbn [mbind option_bind]. apply IH.
Qed.

(** *** Runs of inserts: order, membership, update *)




(** *** Depth of the leaves and size of the nodes *)

Lemma at_depth_shape n t :
  shape n t → ∀ h par i d a, rep h par i t → at_depth h (root_addr t) d a →
  ∃ nd, h !! a = Some nd ∧ 1 ≤ usage nd ≤ 2 * B - 2 ∧ d ≤ n ∧
        (IsInternal nd = false ↔ d = n).
Proof.
  induction 1 as [a kvs Hk|n a kvs cs Hk Hlen Hsh IH]; intros h par i d b Hrep Hd;
    destruct (rep_root _ _ _ _ Hrep) as (nd & Ha & Hok); simpl in Ha, Hok;
    pose proof (ok_usage _ _ _ _ _ Hok) as Hu;
    inversion Hd as [|? nd' j c d' ? Ha' Hint Hj Hc Hd']; simplify_eq/=.
  - exists nd. split; [done|]. split; [lia|]. split; [done|].
    by rewrite (node_ok_leaf _ _ _ _ Hok).
  - by rewrite (node_ok_leaf _ _ _ _ Hok) in Hint.
  - exists nd. split; [done|]. split; [lia|]. split; [lia|].
    rewrite (node_ok_internal _ _ _ _ _ Hok) by (by destruct cs). split; [done|lia].
  - assert (is_Some (cs !! j)) as [c' Hc'] by (apply lookup_lt_is_Some; lia).
    rewrite (node_ok_child _ _ _ _ _ j (root_addr c') Hok) in Hc
      by (by rewrite list_lookup_fmap, Hc').
    simplify_eq.
    destruct (IH c' (list_elem_of_lookup_2 _ _ _ Hc') h (Some a) j d' b)
      as (bn & Hb & Hbu & Hle & Hleaf); [by eapply rep_child|done|].
    exists bn. split; [done|]. split; [done|]. split; [lia|].
    rewrite Hleaf. split; lia.
Qed.

Lemma leftmost_depth_spec n t :
  shape n t → ∀ h par i fuel, rep h par i t → n < fuel →
  leftmost_depth fuel h (root_addr t) = Some n.
Proof.
  induction 1 as [a kvs Hk|n a kvs cs Hk Hlen Hsh IH]; intros h par i fuel Hrep Hfuel;
    (destruct fuel as [|fuel]; [lia|]);
    destruct (rep_root _ _ _ _ Hrep) as (nd & Ha & Hok); simpl in Ha, Hok;
    cbn [root_addr leftmost_depth]; rewrite Ha; cbn [mbind option_bind].
  - by rewrite (node_ok_leaf _ _ _ _ Hok).
  - destruct cs as [|c cs]; [done|].
    rewrite (node_ok_internal _ _ _ _ _ Hok) by done.
    rewrite (node_ok_child _ _ _ _ _ 0 (root_addr c) Hok) by done.
    cbn [mbind option_bind mjoin option_join].
    by rewrite (IH c ltac:(by left) h (Some a) 0 fuel) by (by eapply rep_child || lia).
Qed.

Lemma height_rep t T n : tree_rep t T n → BTree_height t = Some n.
Proof.
  intros Hrep. pose proof (gas_enough _ _ _ Hrep).
  destruct Hrep as (Hroot & Hrep & Hsh & _). unfold BTree_height. rewrite Hroot.
  cbn [mbind option_bind]. by eapply leftmost_depth_spec.
Qed.

Lemma run_rep ops :
  ∃ t, run ops BTree_empty = Some t ∧
       match root t with
       | Some _ => ∃ n T, tree_rep t T n ∧ inorder T = model ops ∧ ascending (inorder T)
       | None => ops = []
       end.
Proof.
  destruct (run_model ops) as (t & Hrun & Hinv & Hasc). exists t. split; [done|].
  unfold tree_inv in Hinv. destruct (root t); [|by apply model_nil].
  destruct Hinv as (n & T & Hrep & Hin). exists n, T. by rewrite Hin.
Qed.

(** C6: after any sequence of inserts every leaf lies at the same depth
    below the root; one more insert leaves that depth unchanged or raises
    it by one, and it raises it only by putting above the two halves of
    the split old root a new internal root with one key and two
    children. *)
Theorem C6_leaves_level (ops : list (K * V)) (k : K) (v : V) :
  ∃ t t' old,
    run ops BTree_empty = Some t ∧
    BTree_insert t k v = Some (t', old) ∧
    (∀ r, root t = Some r →
       ∃ d, BTree_height t = Some d ∧
            ∀ a da nd, at_depth (heap t) r da a → heap t !! a = Some nd →
                       IsInternal nd = false → da = d) ∧
    (root t = None ∨ BTree_height t' = BTree_height t ∨
     (BTree_height t' = S <$> BTree_height t ∧
      ∃ r' nd' l r ln rn,
        root t' = Some r' ∧ heap t' !! r' = Some nd' ∧
        IsInternal nd' = true ∧ usage nd' = 1 ∧ parent nd' = None ∧
        take 2 (children nd') = [Some l; Some r] ∧
        heap t' !! l = Some ln ∧ heap t' !! r = Some rn ∧
        usage ln = B - 1 ∧ usage rn = B - 1)).
Proof.
  destruct (run_rep ops) as (t & Hrun & Hinv).
  destruct (root t) as [r0|] eqn:Hroot.
  - destruct Hinv as (n & T & Hrep & Hin & Hasc).
    destruct (BTree_insert_rep t T n k v Hrep Hasc)
      as (t' & T' & n' & Hins & Hrep' & _ & Hgrow).
    exists t, t'. eexists. split; [done|]. split; [done|]. split.
    + intros r Hr. exists n. split; [by eapply height_rep|].
      intros a da nd Hd Ha Hleaf. destruct Hrep as (Hroot' & Hrep & Hsh & _).
      rewrite Hroot in Hroot'. simplify_eq.
      destruct (at_depth_shape n T Hsh (heap t) None 0 da a Hrep Hd)
        as (nd0 & Ha0 & _ & _ & Hiff).
      simplify_eq. by apply Hiff.
    + right. rewrite (height_rep _ _ _ Hrep), (height_rep _ _ _ Hrep').
      destruct Hgrow as [[-> _]|[-> (s & kv & l & r & -> & Hll & Hlr)]]; [by left|right].
      split; [done|]. destruct Hrep' as (Hroot' & Hrep' & _).
      destruct (rep_root _ _ _ _ Hrep') as (nd' & Hnd' & Hok'). simpl in Hnd', Hok'.
      destruct (rep_root _ _ _ _ (rep_child _ _ _ _ _ _ 0 l Hrep' eq_refl))
        as (ln & Hln & Hlok).
      destruct (rep_root _ _ _ _ (rep_child _ _ _ _ _ _ 1 r Hrep' eq_refl))
        as (rn & Hrn & Hrok).
      exists s, nd', (root_addr l), (root_addr r), ln, rn.
      split; [done|]. split; [done|]. split; [by eapply node_ok_internal|].
      split; [by destruct Hok'|]. split; [by destruct Hok'|].
      split; [by destruct Hok'|]. split; [done|]. split; [done|].
      split; [by rewrite (ok_usage _ _ _ _ _ Hlok)|by rewrite (ok_usage _ _ _ _ _ Hrok)].
  - destruct (BTree_insert_empty t k v Hroot) as (t' & a & Hins & _).
    exists t, t', None. split; [done|]. split; [done|].
    split; [intros r; congruence|by left].
Qed.

(** C10: after every completed insert of a run, every node reachable
    from the root is allocated and holds at least one and at most
    [2B-2] pairs: none is left at the capacity [2B-1] of the arrays. *)
Theorem C10_below_capacity (ops : list (K * V)) :
  ∃ t,
    run ops BTree_empty = Some t ∧
    ∀ r d a, root t = Some r → at_depth (heap t) r d a →
             ∃ nd, heap t !! a = Some nd ∧ 1 ≤ usage nd ≤ 2 * B - 2.
Proof.
  destruct (run_rep ops) as (t & Hrun & Hinv). exists t. split; [done|].
  intros r d a Hroot Hd. rewrite Hroot in Hinv.
  destruct Hinv as (n & T & (Hroot' & Hrep & Hsh & _) & _).
  rewrite Hroot in Hroot'. simplify_eq.
  destruct (at_depth_shape n T Hsh (heap t) None 0 d a Hrep Hd) as (nd & ? & ? & _).
  eauto.
Qed.


(** *** Stepping forth and back *)

Lemma at_pos_neq_end h it kv : at_pos h it kv → iterator_neq it BTree_end = true.
Proof.
  unfold at_pos, deref, iterator_neq. simpl. intros Hit.
  destruct (node it); [|done]. rewrite (bool_decide_eq_false_2 (Some _ = None)) by done.
  by rewrite orb_true_r.
Qed.

Lemma walk_positions_spec t P L :
  Forall2 (at_pos (heap t)) P L →
  linked (iter_next t) P BTree_end →
  ∀ steps, length P < steps → walk_positions steps t (hd BTree_end P) = Some P.
Proof.
  induction 1 as [|it kv P L Hit _ IH]; intros Hl steps Hsteps;
    (destruct steps as [|steps]; [simpl in *; lia|]); [done|].
  destruct Hl as [Hnext Hl]. cbn [walk_positions hd].
  rewrite (at_pos_neq_end _ _ _ Hit), Hnext. cbn [mbind option_bind].
  rewrite IH; [done|done|simpl in *; lia].
Qed.

Lemma iterator_eq_refl it : iterator_eq it it = true.
Proof. unfold iterator_eq. by rewrite !bool_decide_eq_true_2. Qed.

Lemma interleave_elem_slot {X} (cs : list (list X)) (ks : list X) x :
  x ∈ ks → x ∈ interleave cs ks.
Proof.
  revert ks. induction cs as [|c cs IH]; intros ks Hx; [done|].
  destruct ks as [|k ks]; [by apply elem_of_nil in Hx|].
  cbn [interleave]. apply elem_of_app. right.
  apply elem_of_cons in Hx as [->|Hx]; [by left|]. right. by apply IH.
Qed.

Lemma interleave_elem_child {X} (cs : list (list X)) (ks : list X) c x :
  c ∈ cs → x ∈ c → x ∈ interleave cs ks.
Proof.
  revert ks. induction cs as [|c' cs IH]; intros ks Hc Hx; [by apply elem_of_nil in Hc|].
  cbn [interleave]. apply elem_of_app.
  apply elem_of_cons in Hc as [->|Hc]; [by left|]. right.
  destruct ks as [|k ks]; [by apply IH|]. right. by apply IH.
Qed.

(** Every slot in use of every node below the root is a position. *)
Lemma at_depth_position n t :
  shape n t → ∀ h par i d b bn j, rep h par i t → at_depth h (root_addr t) d b →
  h !! b = Some bn → j < usage bn → mkIter j (Some b) ∈ positions t.
Proof.
  induction 1 as [a kvs Hk|n a kvs cs Hk Hlen Hsh IH];
    intros h par i d b bn j Hrep Hd Hb Hj;
    destruct (rep_root _ _ _ _ Hrep) as (nd & Ha & Hok); simpl in Ha, Hok;
    pose proof (ok_usage _ _ _ _ _ Hok) as Hu;
    inversion Hd as [|? nd' j' c d' ? Ha' Hint Hj' Hc Hd']; simplify_eq/=.
  - rewrite positions_leaf.
    apply (list_elem_of_fmap_2 (λ i, mkIter i (Some b))). apply elem_of_seq. lia.
  - by rewrite (node_ok_leaf _ _ _ _ Hok) in Hint.
  - rewrite positions_node. apply interleave_elem_slot.
    apply (list_elem_of_fmap_2 (λ i, mkIter i (Some b))). apply elem_of_seq. lia.
  - assert (is_Some (cs !! j')) as [c' Hc'] by (apply lookup_lt_is_Some; lia).
    rewrite (node_ok_child _ _ _ _ _ j' (root_addr c') Hok) in Hc
      by (by rewrite list_lookup_fmap, Hc').
    simplify_eq. rewrite positions_node.
    apply (interleave_elem_child _ _ (positions c')).
    + apply list_elem_of_fmap_2. by eapply list_elem_of_lookup_2.
    + eapply (IH c' (list_elem_of_lookup_2 _ _ _ Hc') h (Some a) j' d' b);
        [by eapply rep_child|done..].
Qed.

(** The positions that the loop from [begin()] passes through in the tree
    of a history: every inserted key is at one of them, and every slot in
    use of every node reached from the root is one of them. *)
Lemma positions_cover ops t T n :
  tree_rep t T n → inorder T = model ops →
  (∀ k, k ∈ ops.*1 → ∃ it v, it ∈ positions T ∧ deref (heap t) it = Some (k, v)) ∧
  (∀ r d a nd i, root t = Some r → at_depth (heap t) r d a → heap t !! a = Some nd →
     i < usage nd → mkIter i (Some a) ∈ positions T).
Proof.
  intros Hrep Hin. pose proof Hrep as (Hroot & Hrep' & Hsh & _). split.
  - intros k Hk. apply model_keys in Hk. rewrite <-Hin in Hk.
    apply list_elem_of_fmap in Hk as ([k' v] & -> & Hkv).
    apply list_elem_of_lookup in Hkv as [j Hj].
    destruct (Forall2_lookup_r _ _ _ _ _ (deref_positions n T Hsh _ _ _ Hrep') Hj)
      as (it & Hit & Hat).
    exists it, v. split; [by eapply list_elem_of_lookup_2|done].
  - intros r d a nd i Hr Hd Ha Hi. rewrite Hroot in Hr. simplify_eq.
    by eapply at_depth_position.
Qed.

(** C7: in the tree reached by any sequence of inserts, the loop from
    [begin()] passes through the positions of all the inserted keys, which
    are all the slots in use of the nodes reached from the root; at every
    one of them other than the last, stepping to the successor gives the
    next position, and stepping from there to the predecessor comes back
    to a position that compares equal to the starting one.  This covers
    in particular every position that is neither the first nor the
    last. *)
Theorem C7_predecessor_of_successor (ops : list (K * V)) :
  ∃ t it0 P,
    run ops BTree_empty = Some t ∧ BTree_begin t = Some it0 ∧
    (∀ steps, length P < steps → walk_positions steps t it0 = Some P) ∧
    (∀ k, k ∈ ops.*1 → ∃ it v, it ∈ P ∧ deref (heap t) it = Some (k, v)) ∧
    (∀ r d a nd i, root t = Some r → at_depth (heap t) r d a → heap t !! a = Some nd →
       i < usage nd → mkIter i (Some a) ∈ P) ∧
    ∀ j it, S j < length P → P !! j = Some it →
      ∃ it' it'', iter_next t it = Some it' ∧ P !! S j = Some it' ∧
                  iter_prev t it' = Some it'' ∧ it'' = it ∧
                  iterator_eq it'' it = true.
Proof.
  destruct (run_rep ops) as (t & Hrun & Hinv). exists t.
  destruct (root t) as [r|] eqn:Hroot.
  - destruct Hinv as (n & T & Hrep & Hin & _).
    destruct (traverse_rep t T n Hrep) as (it0 & Hbegin & Hhd & Hl & Hb & Hd).
    destruct (positions_cover ops t T n Hrep Hin) as [Hkeys Hslots].
    exists it0, (positions T). split; [done|]. split; [done|]. split; [|split; [|split]].
    + intros steps Hsteps.
      replace it0 with (hd BTree_end (positions T))
        by (by destruct (positions T); simplify_eq/=).
      by eapply walk_positions_spec.
    + done.
    + intros r' d a nd i Hr. apply Hslots. by rewrite Hroot.
    + intros j it Hj Hit.
      destruct (lookup_lt_is_Some_2 (positions T) (S j) Hj) as [it' Hit'].
      exists it', it. split.
      { rewrite (linked_lookup _ _ _ _ _ Hl Hit). by rewrite Hit'. }
      split; [done|]. split; [|split; [done|apply iterator_eq_refl]].
      rewrite (linked_back_lookup _ _ _ _ _ Hb Hit'). by rewrite Hit.
  - subst ops. exists BTree_end, []. unfold BTree_begin. rewrite Hroot.
    split; [done|]. split; [done|]. split; [|split; [|split]].
    + intros [|steps] ?; [simpl in *; lia|done].
    + intros k Hk. by apply elem_of_nil in Hk.
    + intros r d a nd i Hr. done.
    + intros j it Hj. simpl in Hj. lia.
Qed.


(** *** Iterator equality and the sentinels *)

Lemma iterator_eq_spec a b : iterator_eq a b = true ↔ idx a = idx b ∧ node a = node b.
Proof.
  unfold iterator_eq. rewrite andb_true_iff, !bool_decide_eq_true. done.
Qed.

Lemma iterator_neq_eq a b : iterator_neq a b = negb (iterator_eq a b).
Proof. unfold iterator_neq, iterator_eq. by rewrite negb_andb. Qed.

Lemma at_pos_not_end h it kv : at_pos h it kv → iterator_eq BTree_end it = false.
Proof.
  intros Hit. apply at_pos_neq_end in Hit. rewrite iterator_neq_eq in Hit.
  apply negb_true_iff in Hit. apply not_true_is_false. intros Heq.
  apply iterator_eq_spec in Heq as [H1 H2].
  assert (iterator_eq it BTree_end = true) as Heq'
    by (by apply iterator_eq_spec). congruence.
Qed.

(** C9 (as the code has it): two iterators compare equal exactly when
    slot index and node reference both agree, and [!=] is the negation;
    the end sentinel compares equal to exactly the iterators with index 0
    and no node, so to no position of the traversal of a tree reached by
    inserts; and stepping back from the first position of such a
    traversal yields the very value of the end sentinel, with which it
    therefore compares equal. *)
Theorem C9_iterator_equality (ops : list (K * V)) :
  (∀ a b, iterator_eq a b = true ↔ idx a = idx b ∧ node a = node b) ∧
  (∀ a b, iterator_neq a b = negb (iterator_eq a b)) ∧
  (∀ s, iterator_eq BTree_end s = true ↔ s = BTree_end) ∧
  ∃ t it0 P,
    run ops BTree_empty = Some t ∧ BTree_begin t = Some it0 ∧
    (∀ steps, length P < steps → walk_positions steps t it0 = Some P) ∧
    (∀ it, it ∈ P → iterator_eq BTree_end it = false) ∧
    (∀ it, head P = Some it →
       iter_prev t it = Some BTree_end ∧
       ∀ s, iter_prev t it = Some s → iterator_eq BTree_end s = true).
Proof.
  split; [apply iterator_eq_spec|]. split; [apply iterator_neq_eq|]. split.
  { intros [i nd]. rewrite iterator_eq_spec. simpl. split.
    - by intros [<- <-].
    - by intros [= -> ->]. }
  destruct (run_rep ops) as (t & Hrun & Hinv). exists t.
  destruct (root t) as [r|] eqn:Hroot.
  - destruct Hinv as (n & T & Hrep & _ & _).
    destruct (traverse_rep t T n Hrep) as (it0 & Hbegin & Hhd & Hl & Hb & Hd).
    exists it0, (positions T). split; [done|]. split; [done|]. split; [|split].
    + intros steps Hsteps.
      replace it0 with (hd BTree_end (positions T))
        by (by destruct (positions T); simplify_eq/=).
      by eapply walk_positions_spec.
    + intros it Hin. apply list_elem_of_lookup in Hin as [j Hj].
      destruct (Forall2_lookup_l _ _ _ _ _ Hd Hj) as (kv & _ & Hat).
      by eapply at_pos_not_end.
    + intros it Hit. rewrite Hhd in Hit. simplify_eq.
      assert (iter_prev t it = Some BTree_end) as Hp.
      { destruct (positions T) as [|it' P']; simplify_eq/=. by destruct Hb. }
      split; [done|]. intros s Hs. rewrite Hp in Hs. simplify_eq.
      apply iterator_eq_refl.
  - exists BTree_end, []. unfold BTree_begin. rewrite Hroot.
    split; [done|]. split; [done|]. split; [|split].
    + intros [|steps] ?; [simpl in *; lia|done].
    + intros it Hin. by apply elem_of_nil in Hin.
    + intros it Hit. done.
Qed.


(** *** The split of a node at capacity *)

Lemma raw_node_ok nd cas :
  usage nd = 2 * B - 1 →
  length (keys nd) = 2 * B - 1 → length (values nd) = 2 * B - 1 →
  children nd = Some <$> cas →
  length cas = (if IsInternal nd then 2 * B else 0) →
  node_ok nd (parent nd) (parent_idx nd) (zip (keys nd) (values nd)) cas.
Proof.
  intros Hu Hkl Hvl Hcs Hcl.
  assert (length (zip (keys nd) (values nd)) = 2 * B - 1) as Hzl
    by (rewrite length_zip; lia).
  constructor; try done.
  - lia.
  - rewrite Hzl, <-Hkl, firstn_all. symmetry. apply fst_zip. lia.
  - rewrite Hzl, <-Hvl, firstn_all. symmetry. apply snd_zip. lia.
  - destruct (IsInternal nd); symmetry.
    + apply bool_decide_eq_true_2. intros ->. simpl in Hcl. lia.
    + apply bool_decide_eq_false_2. intros Hne. by destruct cas.
  - by rewrite Hcs, length_fmap.
  - by rewrite Hcs, <-(length_fmap Some), firstn_all.
Qed.

(** C4: a node whose usage an insert or an adoption has just raised to
    [2B-1] is split before anything else happens: on a leaf, the rest of
    [insert] after its own updates is [split] followed by the promotion,
    and so is the rest of [adopt] after its own updates.  The split makes
    two fresh siblings of [B-1] keys; the left one holds keys and values
    [0..B-1) of the node, the right one those at [B..2B-1), the pair at
    [B-1] is the promoted one; for an internal node children [0..B) go to
    the left sibling and children [B..2B) to the right one, and every such
    child then carries its new parent and its index below it. *)
Theorem C4_split_at_capacity (h : gmap addr BTreeNode) (this : addr) (nd : BTreeNode)
    (cas : list addr) :
  h !! this = Some nd →
  usage nd = 2 * B - 1 →
  length (keys nd) = 2 * B - 1 → length (values nd) = 2 * B - 1 →
  children nd = Some <$> cas →
  length cas = (if IsInternal nd then 2 * B else 0) →
  (∀ c, c ∈ cas → is_Some (h !! c)) →
  NoDup (this :: cas) →
  (∀ up fuel h0 nd0 res key value root,
     h0 !! this = Some nd0 → linear_search nd0 key = Some res →
     Z.land res FOUND = 0%Z → IsInternal nd0 = false →
     insert_local h0 this (Z.to_nat (Z.land res GO_DOWN_MASK)) key value = Some h →
     BTreeNode_insert up (S fuel) h0 this key value root
     = '(h1, result) ← split h this;
       '(h2, root') ← promote up h1 this result root;
       Some (h2, root', None)) ∧
  (∀ up h0 l r key value position root,
     adopt_local (S up) h0 this l r key value position = Some h →
     adopt (S up) h0 this l r key value position root
     = '(h1, result) ← split h this; promote up h1 this result root) ∧
  ∃ h' l r key value lnd rnd,
    split h this = Some (h', mkSplit l r key value) ∧
    h !! l = None ∧ h !! r = None ∧ l ≠ r ∧
    h' !! l = Some lnd ∧ h' !! r = Some rnd ∧
    usage lnd = B - 1 ∧ usage rnd = B - 1 ∧
    IsInternal lnd = IsInternal nd ∧ IsInternal rnd = IsInternal nd ∧
    take (B - 1) (keys lnd) = take (B - 1) (keys nd) ∧
    take (B - 1) (values lnd) = take (B - 1) (values nd) ∧
    take (B - 1) (keys rnd) = drop B (keys nd) ∧
    take (B - 1) (values rnd) = drop B (values nd) ∧
    keys nd !! (B - 1) = Some key ∧ values nd !! (B - 1) = Some value ∧
    (IsInternal nd = true →
       take B (children lnd) = take B (children nd) ∧
       take B (children rnd) = drop B (children nd) ∧
       ∀ j c, j < B →
         (children nd !! j = Some (Some c) →
            ∃ cn, h' !! c = Some cn ∧ parent cn = Some l ∧ parent_idx cn = j) ∧
         (children nd !! (B + j) = Some (Some c) →
            ∃ cn, h' !! c = Some cn ∧ parent cn = Some r ∧ parent_idx cn = j)).
Proof.
  intros Hthis Hu Hkl Hvl Hcs Hcl Hdom Hnd.
  split; [|split].
  - intros up fuel h0 nd0 res key value root H0 Hres Hf Hleaf Hloc.
    rewrite BTreeNode_insert_eq, H0. cbn [mbind option_bind]. rewrite Hres.
    cbn [mbind option_bind]. rewrite Hf. cbn [Z.eqb negb]. rewrite Hleaf, Hloc.
    cbn [mbind option_bind]. rewrite Hthis. cbn [mbind option_bind].
    by rewrite decide_True by done.
  - intros up h0 l r key value position root Hloc.
    rewrite adopt_unfold, Hloc. cbn [mbind option_bind]. unfold finish.
    rewrite Hthis. cbn [mbind option_bind]. by rewrite decide_True by done.
  - pose proof (raw_node_ok nd cas Hu Hkl Hvl Hcs Hcl) as Hok.
    set (kvs := zip (keys nd) (values nd)) in *.
    assert (length kvs = 2 * B - 1) as Hzl by (unfold kvs; rewrite length_zip; lia).
    assert (kvs.*1 = keys nd) as Hk1 by (apply fst_zip; lia).
    assert (kvs.*2 = values nd) as Hk2 by (apply snd_zip; lia).
    destruct (split_node h this nd (parent nd) (parent_idx nd) kvs cas Hthis Hok Hzl)
      as (h' & l & r & kv & Hsplit & Hkv & Hl & Hr & Hlr & Ha' & (lnd & Hlnd & Hlok)
          & (rnd & Hrnd & Hrok) & Hlc & Hrc & Hout); [| done | done |].
    { destruct (IsInternal nd); [by right|left]. by destruct cas. }
    exists h', l, r, kv.1, kv.2, lnd, rnd.
    assert (length (take (B - 1) kvs) = B - 1) as Hltl by (rewrite length_take; lia).
    assert (length (drop B kvs) = B - 1) as Hldl by (rewrite length_drop; lia).
    pose proof (ok_usage _ _ _ _ _ Hlok) as Hlu.
    pose proof (ok_usage _ _ _ _ _ Hrok) as Hru.
    pose proof (ok_keys _ _ _ _ _ Hlok) as Hlk.
    pose proof (ok_keys _ _ _ _ _ Hrok) as Hrk.
    pose proof (ok_values _ _ _ _ _ Hlok) as Hlv.
    pose proof (ok_values _ _ _ _ _ Hrok) as Hrv.
    rewrite Hltl in Hlk, Hlv. rewrite Hldl in Hrk, Hrv.
    rewrite fmap_take, Hk1 in Hlk. rewrite fmap_take, Hk2 in Hlv.
    rewrite fmap_drop, Hk1 in Hrk. rewrite fmap_drop, Hk2 in Hrv.
    do 4 (split; [done|]). do 2 (split; [done|]).
    split; [lia|]. split; [lia|].
    assert (IsInternal nd = true → length (take B cas) = B ∧ length (drop B cas) = B)
      as Hhalves.
    { intros Hi. rewrite Hi in Hcl. rewrite length_take, length_drop. lia. }
    split; [|split].
    { rewrite (ok_internal _ _ _ _ _ Hlok). destruct (IsInternal nd) eqn:Hi.
      - apply bool_decide_eq_true_2. intros Hnil.
        destruct (Hhalves eq_refl) as [H1 _]. rewrite Hnil in H1. simpl in H1. lia.
      - apply bool_decide_eq_false_2. intros Hne. apply Hne.
        destruct cas; [by rewrite ?take_nil, ?drop_nil|simpl in Hcl; lia]. }
    { rewrite (ok_internal _ _ _ _ _ Hrok). destruct (IsInternal nd) eqn:Hi.
      - apply bool_decide_eq_true_2. intros Hnil.
        destruct (Hhalves eq_refl) as [_ H1]. rewrite Hnil in H1. simpl in H1. lia.
      - apply bool_decide_eq_false_2. intros Hne. apply Hne.
        destruct cas; [by rewrite ?take_nil, ?drop_nil|simpl in Hcl; lia]. }
    do 4 (split; [done|]).
    split; [by rewrite <-Hk1, list_lookup_fmap, Hkv|].
    split; [by rewrite <-Hk2, list_lookup_fmap, Hkv|].
    intros Hi. destruct (Hhalves Hi) as [Hlt Hld].
    pose proof (ok_children _ _ _ _ _ Hlok) as Hlch.
    pose proof (ok_children _ _ _ _ _ Hrok) as Hrch.
    rewrite Hlt in Hlch. rewrite Hld in Hrch.
    split; [by rewrite Hlch, Hcs, fmap_take|].
    split; [by rewrite Hrch, Hcs, fmap_drop|].
    intros j c Hj. rewrite Hcs, !list_lookup_fmap. split.
    + intros Hc. destruct (cas !! j) as [c'|] eqn:Hc'; simplify_eq/=.
      destruct (Hlc j c) as (cn & _ & Hcn); [by rewrite lookup_take_lt|].
      eexists. split; [done|]. done.
    + intros Hc. destruct (cas !! (B + j)) as [c'|] eqn:Hc'; simplify_eq/=.
      destruct (Hrc j c) as (cn & _ & Hcn); [by rewrite lookup_drop|].
      eexists. split; [done|]. done.
Qed.


(** *** Key counts across the updates of [insert] and [adopt] *)

Lemma usage_kept_refl a h : usage_kept a h h.
Proof. intros nd Hnd. by exists nd. Qed.

Lemma usage_kept_trans a h1 h2 h3 :
  usage_kept a h1 h2 → usage_kept a h2 h3 → usage_kept a h1 h3.
Proof.
  intros H12 H23 nd3 H3. destruct (H23 nd3 H3) as (nd2 & H2 & Hu2).
  destruct (H12 nd2 H2) as (nd1 & H1 & Hu1). exists nd1. split; [done|congruence].
Qed.

Lemma update_inv h a f h' :
  update h a f = Some h' →
  ∃ nd nd', h !! a = Some nd ∧ f nd = Some nd' ∧ h' = <[a := nd']> h.
Proof.
  unfold update. intros (nd & Hnd & H)%bind_Some.
  apply bind_Some in H as (nd' & Hf & [= <-]). by exists nd, nd'.
Qed.

Lemma update_usage_kept this h a f h' :
  (∀ nd nd', f nd = Some nd' → usage nd' = usage nd) →
  update h a f = Some h' → usage_kept this h h'.
Proof.
  intros Hf (nd & nd' & Ha & Hfn & ->)%update_inv x Hx.
  destruct (decide (this = a)) as [->|Hne].
  - rewrite lookup_insert_eq in Hx. simplify_eq. exists nd. split; [done|].
    symmetry. by apply Hf.
  - rewrite lookup_insert_ne in Hx by done. by exists x.
Qed.

Lemma write_parent_usage_kept this h p q h' :
  write_parent h p q = Some h' → usage_kept this h h'.
Proof.
  unfold write_parent. intros (a & -> & H)%bind_Some.
  apply bind_Some in H as (nd & Hnd & [= <-]). intros x Hx.
  destruct (decide (this = a)) as [->|Hne].
  - rewrite lookup_insert_eq in Hx. simplify_eq. by exists nd.
  - rewrite lookup_insert_ne in Hx by done. by exists x.
Qed.

Lemma write_idx_usage_kept this h p j h' :
  write_idx h p j = Some h' → usage_kept this h h'.
Proof.
  unfold write_idx. intros (a & -> & H)%bind_Some.
  apply bind_Some in H as (nd & Hnd & [= <-]). intros x Hx.
  destruct (decide (this = a)) as [->|Hne].
  - rewrite lookup_insert_eq in Hx. simplify_eq. by exists nd.
  - rewrite lookup_insert_ne in Hx by done. by exists x.
Qed.

Lemma destroy_sub fuel : ∀ h p h', destroy fuel h p = Some h' → h' ⊆ h.
Proof.
  induction fuel as [|fuel IH]; intros h p h' Hd.
  - destruct p; simplify_eq/=. done.
  - destruct p as [a|]; [|by simplify_eq/=]. cbn [destroy] in Hd.
    apply bind_Some in Hd as (nd & Hnd & Hd).
    apply bind_Some in Hd as (h1 & H1 & Hd).
    apply bind_Some in Hd as (? & _ & [= <-]).
    assert (h1 ⊆ h) as Hsub.
    { destruct (IsInternal nd && negb (usage nd =? 0)); [|by simplify_eq].
      clear Hnd. revert H1. generalize (seq 0 (S (usage nd))). intros l.
      assert (∀ acc, foldl (λ acc i, hh ← acc; c ← children nd !! i; destroy fuel hh c)
                       acc l = Some h1 → ∃ h0, acc = Some h0 ∧ h1 ⊆ h0) as Hfold.
      { induction l as [|i l IHl]; intros acc Hacc; simpl in Hacc.
        - by exists h1.
        - destruct (IHl _ Hacc) as (h0 & H0 & Hsub).
          apply bind_Some in H0 as (hh & -> & H0).
          apply bind_Some in H0 as (c & _ & H0).
          exists hh. split; [done|]. etrans; [done|]. by eapply IH. }
      intros Hacc. destruct (Hfold _ Hacc) as (h0 & [= <-] & Hsub). done. }
    etrans; [apply delete_subseteq|done].
Qed.

Lemma destroy_usage_kept this fuel h p h' :
  destroy fuel h p = Some h' → usage_kept this h h'.
Proof.
  intros Hsub%destroy_sub x Hx. exists x. split; [|done].
  by eapply lookup_weaken.
Qed.

Lemma adopt_restamp_usage_kept this a : ∀ todo i h h',
  adopt_restamp h a i todo = Some h' → usage_kept this h h'.
Proof.
  induction todo as [|todo IH]; intros i h h' Hr; simplify_eq/=.
  - apply usage_kept_refl.
  - apply bind_Some in Hr as (h1 & H1 & Hr).
    eapply usage_kept_trans; [by eapply write_idx_usage_kept|by eapply IH].
Qed.

Lemma usage_bumped this h0 h4 h nd0 nd :
  usage_kept this h0 h4 →
  update h4 this (λ nd, Some (set_usage (u16 (Z.of_nat (usage nd) + 1)) nd)) = Some h →
  h0 !! this = Some nd0 → h !! this = Some nd →
  usage nd = u16 (Z.of_nat (usage nd0) + 1).
Proof.
  intros Hk (nd4 & nd4' & H4 & [= <-] & ->)%update_inv H0 Hnd.
  rewrite lookup_insert_eq in Hnd. simplify_eq/=.
  destruct (Hk nd4 H4) as (nd0' & ? & Hu). simplify_eq. by rewrite Hu.
Qed.

Lemma insert_local_usage h0 this p key value h nd0 nd :
  insert_local h0 this p key value = Some h →
  h0 !! this = Some nd0 → h !! this = Some nd →
  usage nd = u16 (Z.of_nat (usage nd0) + 1).
Proof.
  rewrite insert_local_eq. intros Hl.
  apply bind_Some in Hl as (h1 & H1 & Hl).
  apply bind_Some in Hl as (h2 & H2 & Hl).
  apply bind_Some in Hl as (h3 & H3 & Hl).
  apply bind_Some in Hl as (h4 & H4 & Hl).
  apply (usage_bumped this h0 h4); [|done].
  repeat (eapply usage_kept_trans;
          [eapply update_usage_kept; [|done];
           intros x x' (? & _ & [= <-])%bind_Some; done|]).
  apply usage_kept_refl.
Qed.

Lemma adopt_local_usage fuel h0 this l r key value p h nd0 nd :
  adopt_local fuel h0 this l r key value p = Some h →
  h0 !! this = Some nd0 → h !! this = Some nd →
  usage nd = u16 (Z.of_nat (usage nd0) + 1).
Proof.
  unfold adopt_local. intros Hl.
  apply bind_Some in Hl as (h1 & H1 & Hl).
  apply bind_Some in Hl as (h2 & H2 & Hl).
  apply bind_Some in Hl as (h3 & H3 & Hl).
  apply bind_Some in Hl as (nd3 & Hnd3 & Hl).
  apply bind_Some in Hl as (stale & Hstale & Hl).
  apply bind_Some in Hl as (h4 & H4 & Hl).
  apply bind_Some in Hl as (h5 & H5 & Hl).
  apply bind_Some in Hl as (h6 & H6 & Hl).
  apply bind_Some in Hl as (h7 & H7 & Hl).
  apply bind_Some in Hl as (h8 & H8 & Hl).
  apply bind_Some in Hl as (nd8 & Hnd8 & Hl).
  apply bind_Some in Hl as (h9 & H9 & Hl).
  apply bind_Some in Hl as (h10 & H10 & Hl).
  apply bind_Some in Hl as (h11 & H11 & Hl).
  apply (usage_bumped this h0 h11); [|done].
  assert (∀ (g : BTreeNode → option BTreeNode) ha hb,
            (∀ x x', g x = Some x' → usage x' = usage x) →
            update ha this g = Some hb → usage_kept this ha hb) as Hup
    by (intros; by eapply update_usage_kept).
  eapply usage_kept_trans;
    [eapply Hup; [|exact H1]; intros x x' (? & _ & [= <-])%bind_Some; done|].
  eapply usage_kept_trans;
    [eapply Hup; [|exact H2]; intros x x' (? & _ & [= <-])%bind_Some; done|].
  eapply usage_kept_trans;
    [eapply Hup; [|exact H3]; intros x x' (? & _ & [= <-])%bind_Some; done|].
  eapply usage_kept_trans; [by eapply destroy_usage_kept|].
  eapply usage_kept_trans;
    [eapply Hup; [|exact H5]; intros x x' (? & _ & [= <-])%bind_Some; done|].
  eapply usage_kept_trans; [by eapply write_parent_usage_kept|].
  eapply usage_kept_trans;
    [eapply Hup; [|exact H7]; intros x x' (? & _ & [= <-])%bind_Some; done|].
  eapply usage_kept_trans; [by eapply write_parent_usage_kept|].
  eapply usage_kept_trans; [by eapply adopt_restamp_usage_kept|].
  eapply usage_kept_trans;
    [eapply Hup; [|exact H10]; intros x x' (? & _ & [= <-])%bind_Some; done|].
  eapply Hup; [|exact H11]. intros x x' (? & _ & [= <-])%bind_Some; done.
Qed.


Lemma u16_bump_full n : (Z.of_nat n < 65536)%Z → u16 (Z.of_nat n + 1) = 2 * B - 1 → n = 2 * B - 2.
Proof.
  intros Hn Hu. unfold u16 in Hu.
  destruct (decide (Z.of_nat n + 1 = 65536)%Z) as [Heq|Hne].
  - rewrite Heq, Z_mod_same_full in Hu. simpl in Hu. lia.
  - rewrite Z.mod_small in Hu by lia. lia.
Qed.

(** C5: a node splits when receiving a key brings it to capacity, [2B-1]
    keys, so the node held [2B-2] keys before, whether it received the key
    as a leaf in [insert] (with any arguments) or as an internal node in
    [adopt].  The split makes two nodes of [B-1] keys each, which with the promoted pair
    between them hold the [2B-1] pairs of the node; the parent that adopts
    the two halves then has one more key, the promoted one at the position
    of the split child, and one more child, the two halves in place of the
    split child, which is released. *)
Theorem C5_split_counts (h : gmap addr BTreeNode) (this : addr) (nd : BTreeNode)
    (cas : list addr) (par : addr) (pnd : BTreeNode) (ppar : option addr) (pi : nat)
    (pkvs : list (K * V)) (pcas : list addr) (fuel : nat) :
  h !! this = Some nd →
  usage nd = 2 * B - 1 →
  length (keys nd) = 2 * B - 1 → length (values nd) = 2 * B - 1 →
  children nd = Some <$> cas →
  length cas = (if IsInternal nd then 2 * B else 0) →
  (∀ c, c ∈ cas → is_Some (h !! c)) →
  parent nd = Some par →
  h !! par = Some pnd →
  node_ok pnd ppar pi pkvs pcas →
  length pcas = S (length pkvs) → length pkvs ≤ 2 * B - 2 →
  pcas !! parent_idx nd = Some this →
  (∀ c, c ∈ pcas → is_Some (h !! c)) →
  NoDup (par :: pcas ++ cas) →
  (∀ h0 nd0 position (key : ref K) (value : ref V),
     h0 !! this = Some nd0 → (Z.of_nat (usage nd0) < 65536)%Z →
     insert_local_ref h0 this position key value = Some h →
     usage nd0 = 2 * B - 2) ∧
  (∀ up h0 nd0 l r key value position,
     h0 !! this = Some nd0 → (Z.of_nat (usage nd0) < 65536)%Z →
     adopt_local up h0 this l r key value position = Some h →
     usage nd0 = 2 * B - 2) ∧
  ∃ h1 l r key value lnd rnd h2 pnd',
    split h this = Some (h1, mkSplit l r key value) ∧
    h !! l = None ∧ h !! r = None ∧ l ≠ r ∧
    h1 !! l = Some lnd ∧ h1 !! r = Some rnd ∧
    usage lnd = B - 1 ∧ usage rnd = B - 1 ∧
    take (B - 1) (keys lnd) ++ key :: take (B - 1) (keys rnd) = keys nd ∧
    take (B - 1) (values lnd) ++ value :: take (B - 1) (values rnd) = values nd ∧
    adopt_local (S fuel) h1 par l r key value (parent_idx nd) = Some h2 ∧
    h2 !! par = Some pnd' ∧
    usage pnd' = S (usage pnd) ∧
    take (usage pnd') (keys pnd')
      = insert_at (parent_idx nd) key (take (usage pnd) (keys pnd)) ∧
    take (usage pnd') (values pnd')
      = insert_at (parent_idx nd) value (take (usage pnd) (values pnd)) ∧
    take (S (usage pnd)) (children pnd) = Some <$> pcas ∧
    take (S (usage pnd')) (children pnd')
      = Some <$> (take (parent_idx nd) pcas ++ l :: r :: drop (S (parent_idx nd)) pcas) ∧
    h2 !! this = None.
Proof.
  intros Hthis Hu Hkl Hvl Hcs Hcl Hdom Hpar Hp Hpok Hpl Hroom Hpos Hpdom Hnd.
  split; [|split].
  - intros h0 nd0 position key value H0 H16 Hloc. apply u16_bump_full; [done|].
    apply insert_local_ref_given in Hloc as (k & v & Hloc).
    rewrite <-Hu. symmetry. by eapply insert_local_usage.
  - intros up h0 nd0 l r key value position H0 H16 Hloc. apply u16_bump_full; [done|].
    rewrite <-Hu. symmetry. by eapply adopt_local_usage.
  - set (i := parent_idx nd) in *.
    pose proof (raw_node_ok nd cas Hu Hkl Hvl Hcs Hcl) as Hok. fold i in Hok.
    set (kvs := zip (keys nd) (values nd)) in *.
    assert (length kvs = 2 * B - 1) as Hzl by (unfold kvs; rewrite length_zip; lia).
    assert (kvs.*1 = keys nd) as Hk1 by (apply fst_zip; lia).
    assert (kvs.*2 = values nd) as Hk2 by (apply snd_zip; lia).
    pose proof (list_elem_of_lookup_2 _ _ _ Hpos) as Hthis_in.
    apply NoDup_cons in Hnd as [Hpar_out Hnd].
    pose proof Hnd as (Hnd_p & Hdisj & Hnd_c)%NoDup_app.
    assert (this ∉ cas) as Hthis_cas by (by apply Hdisj).
    assert (par ≠ this) as Hpt.
    { intros ->. apply Hpar_out. apply elem_of_app. by left. }
    destruct (split_node h this nd (parent nd) i kvs cas Hthis Hok Hzl)
      as (h1 & l & r & kv & Hsplit & Hkv & Hl & Hr & Hlr & Ha' & (lnd & Hlnd & Hlok)
          & (rnd & Hrnd & Hrok) & Hlc & Hrc & Hout); [|done|by apply NoDup_cons|].
    { destruct (IsInternal nd); [by right|left]. by destruct cas. }
    assert (∀ x, is_Some (h !! x) → x ≠ l ∧ x ≠ r) as Hfresh.
    { intros x [? Hx]. split; intros ->; congruence. }
    assert (∀ x, x ∈ par :: pcas → x ≠ this → h1 !! x = h !! x) as Hkeep.
    { intros x Hx Hxt.
      assert (is_Some (h !! x)) as Hsx.
      { apply elem_of_cons in Hx as [->|Hx]; [by eexists|by apply Hpdom]. }
      destruct (Hfresh x Hsx). apply Hout; [done..|].
      apply elem_of_cons in Hx as [->|Hx].
      - intros Hin. apply Hpar_out. apply elem_of_app. by right.
      - by apply Hdisj. }
    assert (pcas = take i pcas ++ [this] ++ drop (S i) pcas) as Hpcas
      by (by rewrite <-(take_drop_middle pcas i this Hpos) at 1).
    set (cas' := take i pcas ++ l :: r :: drop (S i) pcas).
    assert ((l ∉ par :: pcas) ∧ (r ∉ par :: pcas)) as [Hl_out Hr_out].
    { split; intros Hx.
      - assert (is_Some (h !! l)) as [? ?]; [|congruence].
        apply elem_of_cons in Hx as [->|Hx]; [by eexists|by apply Hpdom].
      - assert (is_Some (h !! r)) as [? ?]; [|congruence].
        apply elem_of_cons in Hx as [->|Hx]; [by eexists|by apply Hpdom]. }
    destruct (adopt_local_node fuel h1 par pnd ppar pi pkvs pcas i this
                (set_usage 0 nd) l lnd r rnd kv.1 kv.2)
      as (h2 & pnd' & Hadopt & Hp' & Hpok' & Hgone & _ & _); try done.
    { rewrite Hkeep; [done|apply elem_of_cons; by left|done]. }
    { by rewrite (ok_parent _ _ _ _ _ Hlok). }
    { by rewrite (ok_parent _ _ _ _ _ Hrok). }
    { apply NoDup_cons. split.
      { intros Hin. apply elem_of_cons in Hin as [?|Hin]; [done|].
        apply elem_of_app in Hin as [Hin|Hin].
        - apply Hpar_out. apply elem_of_app. left. by eapply in_take.
        - apply elem_of_cons in Hin as [->|Hin];
            [apply Hl_out; apply elem_of_cons; by left|].
          apply elem_of_cons in Hin as [->|Hin];
            [apply Hr_out; apply elem_of_cons; by left|].
          apply Hpar_out. apply elem_of_app. left. by eapply in_drop. }
      rewrite Hpcas in Hnd_p.
      change (this :: take i pcas ++ l :: r :: drop (S i) pcas)
        with ([this] ++ (take i pcas ++ [l; r] ++ drop (S i) pcas)).
      apply NoDup_app. split; [apply NoDup_singleton|]. split.
      - intros x ->%list_elem_of_singleton Hin.
        apply elem_of_app in Hin as [Hin|Hin].
        + apply NoDup_app in Hnd_p as (_ & Hd & _). apply (Hd this Hin).
          apply elem_of_app. left. by apply list_elem_of_singleton.
        + apply elem_of_app in Hin as [Hin|Hin].
          * apply elem_of_cons in Hin as [->|Hin];
              [apply Hl_out; apply elem_of_cons; by right|].
            apply list_elem_of_singleton in Hin as ->.
            apply Hr_out. apply elem_of_cons; by right.
          * apply NoDup_app in Hnd_p as (_ & _ & Hd).
            apply NoDup_app in Hd as (_ & Hd & _). apply (Hd this); [|done].
            by apply list_elem_of_singleton.
      - apply (NoDup_replace _ [this]); [done| |].
        + apply NoDup_cons. split; [|apply NoDup_singleton].
          by intros ->%list_elem_of_singleton.
        + intros x Hx. right. rewrite <-Hpcas.
          apply elem_of_cons in Hx as [->|Hx].
          * intros Hin. apply Hl_out. apply elem_of_cons; by right.
          * apply list_elem_of_singleton in Hx as ->.
            intros Hin. apply Hr_out. apply elem_of_cons; by right. }
    { intros c Hc.
      assert (c ∈ pcas ∧ c ≠ this) as [Hc_in Hc_ne].
      { rewrite Hpcas in Hnd_p.
        apply elem_of_app in Hc as [Hc|Hc].
        - split; [by eapply in_take|]. intros ->.
          apply NoDup_app in Hnd_p as (_ & Hd & _). apply (Hd this Hc).
          apply elem_of_app. left. by apply list_elem_of_singleton.
        - split; [by eapply in_drop|]. intros ->.
          apply NoDup_app in Hnd_p as (_ & _ & Hd).
          apply NoDup_app in Hd as (_ & Hd & _). apply (Hd this); [|done].
          by apply list_elem_of_singleton. }
      rewrite Hkeep; [by apply Hpdom|apply elem_of_cons; by right|done]. }
    exists h1, l, r, kv.1, kv.2, lnd, rnd, h2, pnd'.
    assert (length (take (B - 1) kvs) = B - 1) as Hltl by (rewrite length_take; lia).
    assert (length (drop B kvs) = B - 1) as Hldl by (rewrite length_drop; lia).
    pose proof (ok_usage _ _ _ _ _ Hlok) as Hlu.
    pose proof (ok_usage _ _ _ _ _ Hrok) as Hru.
    pose proof (ok_keys _ _ _ _ _ Hlok) as Hlk.
    pose proof (ok_keys _ _ _ _ _ Hrok) as Hrk.
    pose proof (ok_values _ _ _ _ _ Hlok) as Hlv.
    pose proof (ok_values _ _ _ _ _ Hrok) as Hrv.
    rewrite Hltl in Hlk, Hlv. rewrite Hldl in Hrk, Hrv.
    assert (kvs = take (B - 1) kvs ++ kv :: drop B kvs) as Hmid.
    { rewrite <-(take_drop_middle kvs (B - 1) kv Hkv) at 1. do 3 f_equal. lia. }
    do 4 (split; [done|]). do 2 (split; [done|]).
    split; [lia|]. split; [lia|].
    split. { rewrite Hlk, Hrk, <-Hk1. rewrite Hmid at 3. by rewrite fmap_app, fmap_cons. }
    split. { rewrite Hlv, Hrv, <-Hk2. rewrite Hmid at 3. by rewrite fmap_app, fmap_cons. }
    split; [done|]. split; [done|].
    pose proof (ok_usage _ _ _ _ _ Hpok) as Hpu.
    pose proof (ok_usage _ _ _ _ _ Hpok') as Hpu'.
    rewrite insert_at_length in Hpu'.
    split; [lia|].
    pose proof (ok_keys _ _ _ _ _ Hpok') as Hpk'.
    pose proof (ok_values _ _ _ _ _ Hpok') as Hpv'.
    rewrite insert_at_length, insert_at_fmap in Hpk'.
    rewrite insert_at_length, insert_at_fmap in Hpv'. simpl in Hpk', Hpv'.
    split; [by rewrite Hpu', Hpk', Hpu, (ok_keys _ _ _ _ _ Hpok)|].
    split; [by rewrite Hpu', Hpv', Hpu, (ok_values _ _ _ _ _ Hpok)|].
    split; [by rewrite Hpu, <-Hpl, (ok_children _ _ _ _ _ Hpok)|].
    split; [|done].
    rewrite <-(ok_children _ _ _ _ _ Hpok'). f_equal.
    rewrite Hpu'. rewrite length_app. simpl. rewrite length_take, length_drop.
    apply lookup_lt_Some in Hpos. lia.
Qed.


(** *** What a traversal holds *)


(** The loop from [begin()] to [end()] over the tree of any sequence of
    calls of [insert] whose arguments are objects of the caller shows for
    every key the value most recently inserted for it, and shows nothing
    else. *)
Theorem traversal_latest_values (ops : list (K * V)) :
  ∃ t it L,
    run_ref ((λ kv, (object kv.1, object kv.2)) <$> ops) BTree_empty = Some t ∧
    BTree_begin t = Some it ∧
    (∀ steps, length L < steps → walk steps t it = Some L) ∧
    ∀ k v, (k, v) ∈ L ↔ latest k ops = Some v.
Proof.
  destruct (run_model ops) as (t & Hrun & Hinv & Hasc).
  destruct (traverse_inv t (model ops) Hinv) as (it & Hbegin & Hwalk).
  exists t, it, (model ops). rewrite run_ref_object.
  split; [done|]. split; [done|]. split; [done|].
  intros k v. by rewrite assoc_elem, assoc_model.
Qed.


(** [min_key()] and [max_key()] are the first and the last key of the
    traversal; on the empty tree both dereference the null root and fail. *)
Theorem min_max_key_traversal (ops : list (K * V)) :
  ∃ t it L,
    run ops BTree_empty = Some t ∧ BTree_begin t = Some it ∧
    (∀ steps, length L < steps → walk steps t it = Some L) ∧
    BTree_min_key t = head L.*1 ∧ BTree_max_key t = last L.*1 ∧
    (ops = [] → BTree_min_key t = None ∧ BTree_max_key t = None).
Proof.
  destruct (run_rep ops) as (t & Hrun & Hinv). exists t.
  unfold BTree_min_key, BTree_max_key.
  destruct (root t) as [r|] eqn:Hroot.
  - destruct Hinv as (n & T & Hrep & _ & _).
    destruct (traverse_rep t T n Hrep) as (it & Hbegin & Hhd & Hl & _ & Hd).
    exists it, (inorder T). split; [done|]. split; [done|]. split.
    { intros steps Hsteps.
      replace it with (hd BTree_end (positions T))
        by (by destruct (positions T); simplify_eq/=).
      apply walk_spec; [done|done|]. by rewrite (Forall2_length _ _ _ Hd). }
    pose proof (gas_enough _ _ _ Hrep) as Hgas.
    destruct Hrep as (Hr & Hrep & Hsh & _). rewrite Hroot in Hr. simplify_eq.
    cbn [mbind option_bind].
    destruct (min_spec n T Hsh (heap t) None 0 (gas t) Hrep Hgas) as (it1 & Hh1 & ->).
    destruct (max_spec n T Hsh (heap t) None 0 (gas t) Hrep Hgas) as (it2 & Hh2 & ->).
    cbn [mbind option_bind].
    assert (∀ it' kv, at_pos (heap t) it' kv →
              (a ← node it'; nd ← heap t !! a; keys nd !! idx it') = Some kv.1) as Hkey.
    { intros it' kv. unfold at_pos, deref.
      destruct (node it') as [a|]; [|done]. simpl.
      destruct (heap t !! a) as [nd|]; [|done]. simpl.
      destruct (keys nd !! idx it'); [|done]. simpl.
      destruct (values nd !! idx it'); [|done]. simpl. by intros [= <-]. }
    split; [|split].
    + destruct Hd as [|it' kv P L Hat Hd]; simplify_eq/=. by apply Hkey.
    + rewrite last_lookup in Hh2. rewrite fmap_last, last_lookup.
      rewrite <-(Forall2_length _ _ _ Hd).
      destruct (Forall2_lookup_l _ _ _ _ _ Hd Hh2) as (kv & -> & Hat). simpl.
      by apply Hkey.
    + intros ->. simplify_eq/=.
  - subst ops. simplify_eq/=. exists BTree_end, []. split; [done|]. split; [done|].
    split; [|done]. intros [|steps] ?; [simpl in *; lia|done].
Qed.

(** [begin()] compares equal to [end()] exactly on the tree that received
    no insert. *)
Theorem begin_is_end_iff_empty (ops : list (K * V)) :
  ∃ t it,
    run ops BTree_empty = Some t ∧ BTree_begin t = Some it ∧
    (iterator_eq it BTree_end = true ↔ ops = []) ∧
    (iterator_neq it BTree_end = false ↔ ops = []).
Proof.
  destruct (run_rep ops) as (t & Hrun & Hinv). exists t.
  destruct (root t) as [r|] eqn:Hroot.
  - destruct Hinv as (n & T & Hrep & Hin & _).
    destruct (traverse_rep t T n Hrep) as (it & Hbegin & Hhd & _ & _ & Hd).
    exists it. split; [done|]. split; [done|].
    assert (ops ≠ []) as Hne.
    { intros ->. destruct Hrep as (_ & _ & Hsh & _).
      apply positions_nonempty in Hsh. destruct (positions T); [done|].
      apply Forall2_length in Hd. rewrite Hin in Hd. done. }
    rewrite head_lookup in Hhd.
    destruct (Forall2_lookup_l _ _ _ _ _ Hd Hhd) as (kv & _ & Hat).
    pose proof (at_pos_neq_end _ _ _ Hat) as Hneq.
    rewrite iterator_neq_eq in Hneq |- *.
    destruct (iterator_eq it BTree_end); simplify_eq/=. split; split; done.
  - subst ops. simplify_eq/=. exists BTree_end.
    split; [done|]. split; [done|]. split; done.
Qed.

(** The mirror of the step forth and back.  The loop from [begin()]
    passes through the positions of all the inserted keys, which are all
    the slots in use of the nodes reached from the root; from every one
    of them but the first, [predecessor] gives the position before it and
    [successor] of that one comes back; and [successor] of the last
    position is [end()]. *)
Theorem successor_of_predecessor (ops : list (K * V)) :
  ∃ t it0 P,
    run ops BTree_empty = Some t ∧ BTree_begin t = Some it0 ∧
    (∀ steps, length P < steps → walk_positions steps t it0 = Some P) ∧
    (∀ k, k ∈ ops.*1 → ∃ it v, it ∈ P ∧ deref (heap t) it = Some (k, v)) ∧
    (∀ r d a nd i, root t = Some r → at_depth (heap t) r d a → heap t !! a = Some nd →
       i < usage nd → mkIter i (Some a) ∈ P) ∧
    (∀ j it, P !! S j = Some it →
       ∃ it' it'', iter_prev t it = Some it' ∧ P !! j = Some it' ∧
                   iter_next t it' = Some it'' ∧ it'' = it ∧
                   iterator_eq it'' it = true) ∧
    (∀ it, last P = Some it → iter_next t it = Some BTree_end).
Proof.
  destruct (run_rep ops) as (t & Hrun & Hinv). exists t.
  destruct (root t) as [r|] eqn:Hroot.
  - destruct Hinv as (n & T & Hrep & Hin & _).
    destruct (traverse_rep t T n Hrep) as (it0 & Hbegin & Hhd & Hl & Hb & Hd).
    destruct (positions_cover ops t T n Hrep Hin) as [Hkeys Hslots].
    exists it0, (positions T). split; [done|]. split; [done|].
    split; [|split; [|split; [|split]]].
    + intros steps Hsteps.
      replace it0 with (hd BTree_end (positions T))
        by (by destruct (positions T); simplify_eq/=).
      by eapply walk_positions_spec.
    + done.
    + intros r' d a nd i Hr. apply Hslots. by rewrite Hroot.
    + intros j it Hit.
      pose proof (lookup_lt_Some _ _ _ Hit) as Hj.
      destruct (lookup_lt_is_Some_2 (positions T) j) as [it' Hit']; [lia|].
      exists it', it. split.
      { rewrite (linked_back_lookup _ _ _ _ _ Hb Hit). by rewrite Hit'. }
      split; [done|]. split; [|split; [done|apply iterator_eq_refl]].
      rewrite (linked_lookup _ _ _ _ _ Hl Hit'). by rewrite Hit.
    + intros it Hit. rewrite last_lookup in Hit.
      rewrite (linked_lookup _ _ _ _ _ Hl Hit).
      rewrite lookup_ge_None_2; [done|].
      destruct (positions T); simpl in *; lia.
  - subst ops. exists BTree_end, []. unfold BTree_begin. rewrite Hroot.
    split; [done|]. split; [done|]. split; [|split; [|split; [|split]]].
    + intros [|steps] ?; [simpl in *; lia|done].
    + intros k Hk. by apply elem_of_nil in Hk.
    + intros r d a nd i Hr. done.
    + intros j it Hit. done.
    + intros it Hit. done.
Qed.


(** *** Allocation across the operations *)

Lemma within_refl h : within h h.
Proof. by intros x. Qed.

Lemma within_trans h1 h2 h3 : within h1 h2 → within h2 h3 → within h1 h3.
Proof. intros H12 H23 x Hx. by apply H12, H23. Qed.

Lemma within_overwrite h a nd nd' : h !! a = Some nd → within h (<[a := nd']> h).
Proof.
  intros Ha x. destruct (decide (x = a)) as [->|Hne]; [by eauto|].
  by rewrite lookup_insert_ne.
Qed.

Lemma update_within h a f h' : update h a f = Some h' → within h h'.
Proof. intros (nd & nd' & Ha & _ & ->)%update_inv. by eapply within_overwrite. Qed.

Lemma write_parent_within h p q h' : write_parent h p q = Some h' → within h h'.
Proof.
  unfold write_parent. intros (a & -> & H)%bind_Some.
  apply bind_Some in H as (nd & Hnd & [= <-]). by eapply within_overwrite.
Qed.

Lemma write_idx_within h p j h' : write_idx h p j = Some h' → within h h'.
Proof.
  unfold write_idx. intros (a & -> & H)%bind_Some.
  apply bind_Some in H as (nd & Hnd & [= <-]). by eapply within_overwrite.
Qed.

Lemma destroy_within fuel h p h' : destroy fuel h p = Some h' → within h h'.
Proof.
  intros Hsub%destroy_sub x [nd Hx]. exists nd. by eapply lookup_weaken.
Qed.

Lemma destroy_frees fuel h a h' : destroy fuel h (Some a) = Some h' → h' !! a = None.
Proof.
  destruct fuel as [|fuel]; [done|]. cbn [destroy]. intros Hd.
  apply bind_Some in Hd as (nd & Hnd & Hd).
  apply bind_Some in Hd as (h1 & H1 & Hd).
  apply bind_Some in Hd as (? & _ & [= <-]). apply lookup_delete_eq.
Qed.

Lemma adopt_restamp_within a : ∀ todo i h h',
  adopt_restamp h a i todo = Some h' → within h h'.
Proof.
  induction todo as [|todo IH]; intros i h h' Hr; simplify_eq/=.
  - apply within_refl.
  - apply bind_Some in Hr as (h1 & H1 & Hr).
    eapply within_trans; [by eapply write_idx_within|by eapply IH].
Qed.

(** [adopt] allocates nothing, and it releases the child that stood at
    [position]. *)
Lemma adopt_local_within fuel h this l r key value p h' :
  adopt_local fuel h this l r key value p = Some h' →
  within h h' ∧
  ∀ nd s, h !! this = Some nd → children nd !! p = Some (Some s) → h' !! s = None.
Proof.
  unfold adopt_local. intros Hl.
  apply bind_Some in Hl as (h1 & H1 & Hl).
  apply bind_Some in Hl as (h2 & H2 & Hl).
  apply bind_Some in Hl as (h3 & H3 & Hl).
  apply bind_Some in Hl as (nd3 & Hnd3 & Hl).
  apply bind_Some in Hl as (stale & Hstale & Hl).
  apply bind_Some in Hl as (h4 & H4 & Hl).
  apply bind_Some in Hl as (h5 & H5 & Hl).
  apply bind_Some in Hl as (h6 & H6 & Hl).
  apply bind_Some in Hl as (h7 & H7 & Hl).
  apply bind_Some in Hl as (h8 & H8 & Hl).
  apply bind_Some in Hl as (nd8 & Hnd8 & Hl).
  apply bind_Some in Hl as (h9 & H9 & Hl).
  apply bind_Some in Hl as (h10 & H10 & Hl).
  apply bind_Some in Hl as (h11 & H11 & Hl).
  assert (within h4 h') as Hlate.
  { eapply within_trans; [by eapply update_within|].
    eapply within_trans; [by eapply write_parent_within|].
    eapply within_trans; [by eapply update_within|].
    eapply within_trans; [by eapply write_parent_within|].
    eapply within_trans; [by eapply adopt_restamp_within|].
    eapply within_trans; [by eapply update_within|].
    eapply within_trans; [by eapply update_within|].
    by eapply update_within. }
  split.
  - eapply within_trans; [by eapply update_within|].
    eapply within_trans; [by eapply update_within|].
    eapply within_trans; [by eapply update_within|].
    eapply within_trans; [by eapply destroy_within|done].
  - intros nd s Hnd Hs.
    apply update_inv in H1 as (x1 & x1' & Hx1 & Hf1 & ->).
    apply update_inv in H2 as (x2 & x2' & Hx2 & Hf2 & ->).
    apply update_inv in H3 as (x3 & x3' & Hx3 & Hf3 & ->).
    rewrite lookup_insert_eq in Hx2, Hx3, Hnd3. simplify_eq.
    apply bind_Some in Hf1 as (vs & _ & [= <-]).
    apply bind_Some in Hf2 as (ks & _ & [= <-]).
    apply bind_Some in Hf3 as (cs' & Hmm & [= <-]). simpl in Hmm, Hstale.
    assert (cs' !! p = Some (Some s)) as Hp.
    { unfold memmove in Hmm. destruct (decide _); [|done]. simplify_eq.
      pose proof (lookup_lt_Some _ _ _ Hs).
      rewrite lookup_app_l by (rewrite length_take; lia).
      by rewrite lookup_take_lt by lia. }
    rewrite Hp in Hstale. simplify_eq.
    apply destroy_frees in H4. destruct (h' !! s) eqn:E; [|done].
    destruct (Hlate s); [by eauto|congruence].
Qed.


(** *** Allocation and occupancy across an insert *)

Lemma finish_more n h t h2 a kvs2 cs2 par i up root key value :
  root_addr t = a →
  rep h2 par i (PT a kvs2 cs2) → NoDup (addrs (PT a kvs2 cs2)) →
  1 ≤ length kvs2 ≤ 2 * B - 1 → pre_shape n kvs2 cs2 →
  inorder (PT a kvs2 cs2) = ins key value (inorder t) →
  (∀ x, x ∈ addrs (PT a kvs2 cs2) → x ∈ addrs t ∨ h !! x = None) →
  (∀ x, x ∉ addrs t → is_Some (h !! x) → h2 !! x = h !! x) →
  (∀ x, is_Some (h2 !! x) → x ∉ addrs (PT a kvs2 cs2) →
        is_Some (h !! x) ∧ x ∉ addrs t) →
  (∀ c, c ∈ cs2 → dense c) →
  (finish up h2 a root = Some (h2, root) ∧
   absorbed h t par i n key value h2 (PT a kvs2 cs2))
  ∨ (∃ h3 l r kv,
       finish up h2 a root
       = promote up h3 a (mkSplit (root_addr l) (root_addr r) kv.1 kv.2) root ∧
       overflowed h t par i n key value h3 l r kv ∧
       (∀ x, is_Some (h3 !! x) → (x ∉ addrs l ++ addrs r) → x ≠ a →
             is_Some (h !! x) ∧ x ∉ addrs t) ∧
       dense l ∧ dense r).
Proof.
  intros Hroot Hrep Hnd Hsize Hpre Hin Hnew Hframe Htight Hdense.
  pose proof Hrep as Hrep'. inversion Hrep' as [? ? ? ? ? nd2 Ha Hok Hch]; subst.
  pose proof (ok_usage _ _ _ _ _ Hok) as Hu.
  unfold finish. rewrite Ha. cbn [mbind option_bind].
  destruct (decide (usage nd2 = 2 * B - 1)) as [Hfull|Hroom].
  - right.
    destruct (split_tree h2 par i (root_addr t) kvs2 cs2 Hrep Hnd) as
      (h3 & la & ra & kv & nd & Hsplit & Hkv & Hla & Hra & Hlr & Ha2 & Hpar & Hidx
       & Ha3 & Hrl & Hrr & Hout); [lia| |].
    { destruct (pre_shape_arity _ _ _ Hpre) as [->|?]; [by left|right; lia]. }
    simplify_eq.
    exists h3, (PT la (take (B - 1) kvs2) (take B cs2)),
           (PT ra (drop B kvs2) (drop B cs2)), kv.
    rewrite Hsplit. split; [done|].
    assert (∀ x, x ∈ concat (addrs <$> cs2) → is_Some (h2 !! x)) as Hdom.
    { intros x Hx. eapply rep_dom; [done|]. by right. }
    assert (concat (addrs <$> cs2)
            = concat (addrs <$> take B cs2) ++ concat (addrs <$> drop B cs2)) as Econcat.
    { by rewrite <-concat_app, <-fmap_app, take_drop. }
    split.
    {
      simpl in Hnd. apply NoDup_cons in Hnd as [Hna Hnd].
      split; [|split; [|split; [|split; [|split; [|split; [|split; [|split; [|split;
        [|split; [|split]]]]]]]]]]; [| | | | | | | | | |simpl; rewrite length_take; lia
                                       |simpl; rewrite length_drop; lia].
      + exists (set_usage 0 nd2). by destruct Hok.
      + done.
      + done.
      + destruct Hpre as [[-> ->]|(m & -> & Hl & Hs)].
        * rewrite take_nil. constructor. rewrite length_take. lia.
        * constructor; rewrite ?length_take; [lia|lia|].
          intros c Hc. apply Hs. by eapply in_take.
      + destruct Hpre as [[-> ->]|(m & -> & Hl & Hs)].
        * rewrite drop_nil. constructor. rewrite length_drop. lia.
        * constructor; rewrite ?length_drop; [lia|lia|].
          intros c Hc. apply Hs. by eapply in_drop.
      + simpl. rewrite Econcat in Hnd, Hdom. apply NoDup_cons. split.
        * intros [Hx|[Hx|Hx]%elem_of_cons]%elem_of_app; [|done|].
          -- destruct (Hdom la); [apply elem_of_app; by left|congruence].
          -- destruct (Hdom la); [apply elem_of_app; by right|congruence].
        * apply NoDup_app in Hnd as (H1 & H2 & H3). apply NoDup_app.
          split; [done|]. split.
          -- intros x Hx [->|Hx']%elem_of_cons; [|by eapply H2].
             destruct (Hdom ra); [apply elem_of_app; by left|congruence].
          -- apply NoDup_cons. split; [|done]. intros Hx.
             destruct (Hdom ra); [apply elem_of_app; by right|congruence].
      + simpl. rewrite Econcat in Hna.
        intros [E|[Hx|[E|Hx]%elem_of_cons]%elem_of_app]%elem_of_cons.
        * rewrite <-E in Hla. congruence.
        * apply Hna, elem_of_app. by left.
        * rewrite <-E in Hra. congruence.
        * apply Hna, elem_of_app. by right.
      + rewrite <-Hin. apply inorder_halves; [|lia|done].
        by eapply pre_shape_arity.
      + assert (∀ x, h2 !! x = None → x ∈ addrs t ∨ h !! x = None) as Hgone.
        { intros x Hx. destruct (decide (x ∈ addrs t)); [by left|right].
          destruct (h !! x) eqn:E; [|done].
          rewrite Hframe in Hx by (done || eauto). congruence. }
        simpl in *. rewrite Econcat in Hnew.
        intros x [->|[Hx|[->|Hx]%elem_of_cons]%elem_of_app]%elem_of_cons; auto.
        * apply Hnew. right. apply elem_of_app. by left.
        * apply Hnew. right. apply elem_of_app. by right.
      + intros x Hx Hsome. rewrite Hout; [by apply Hframe| | |].
        * intros Hx2. destruct (Hnew x Hx2) as [?|E]; [done|].
          rewrite E in Hsome. by destruct Hsome.
        * intros ->. rewrite Hframe in Hla by done. rewrite Hla in Hsome.
          by destruct Hsome.
        * intros ->. rewrite Hframe in Hra by done. rewrite Hra in Hsome.
          by destruct Hsome. }
    split; [|split].
    + intros x Hx Hout' Hxa. apply Htight.
      * rewrite <-Hout; [done| | |].
        -- simpl. rewrite Econcat. intros [->|Hin']%elem_of_cons; [done|].
           apply Hout'. apply elem_of_app.
           apply elem_of_app in Hin' as [?|?]; [left|right]; by right.
        -- intros ->. apply Hout'. apply elem_of_app. left. by left.
        -- intros ->. apply Hout'. apply elem_of_app. right. by left.
      * simpl. rewrite Econcat. intros [->|Hin']%elem_of_cons; [done|].
        apply Hout'. apply elem_of_app.
        apply elem_of_app in Hin' as [?|?]; [left|right]; by right.
    + constructor; [rewrite length_take; lia|].
      intros c Hc. apply Hdense. by eapply in_take.
    + constructor; [rewrite length_drop; lia|].
      intros c Hc. apply Hdense. by eapply in_drop.
  - left. split; [done|].
    split; [done|]. split; [done|]. split; [apply pre_shape_shape; [done|lia]|].
    split; [done|]. split; [done|]. split; done.
Qed.


Lemma dense_inv t : dense t → B - 1 ≤ length (slots t) ∧ ∀ c, c ∈ subtrees t → dense c.
Proof. by destruct 1. Qed.

Lemma dense_intro t :
  B - 1 ≤ length (slots t) → (∀ c, c ∈ subtrees t → dense c) → dense t.
Proof. destruct t. by constructor. Qed.

Lemma positions_slots a kvs kvs' cs :
  length kvs' = length kvs → positions (PT a kvs' cs) = positions (PT a kvs cs).
Proof. intros Hlen. by rewrite !positions_node, Hlen. Qed.

Lemma overwrite_more h a nd nd' kvs kvs' cs key :
  h !! a = Some nd → length kvs ≤ length kvs' →
  (is_Some (assoc key (inorder (PT a kvs cs))) → length kvs' = length kvs) →
  (∀ c, c ∈ cs → dense c) →
  absorbed_more h (PT a kvs cs) key (<[a := nd']> h) (PT a kvs' cs).
Proof.
  intros Ha Hlen Hsame Hdense. split; [|split; [done|split; [done|]]].
  - intros x Hx Hout. assert (x ≠ a) by (intros ->; apply Hout; by left).
    rewrite lookup_insert_ne in Hx by done. done.
  - intros Hk. by apply positions_slots, Hsame.
Qed.

Lemma child_more h h' a kvs cs p c c' key :
  NoDup (addrs (PT a kvs cs)) → cs !! p = Some c →
  assoc key (inorder (PT a kvs cs)) = assoc key (inorder c) →
  (∀ c0, c0 ∈ cs → dense c0) →
  absorbed_more h c key h' c' →
  absorbed_more h (PT a kvs cs) key h' (PT a kvs (<[p := c']> cs)).
Proof.
  intros Hnd Hc Hassoc Hdense (Htight & Hdc & Hlen & Hpos).
  pose proof (lookup_lt_Some _ _ _ Hc) as Hp.
  pose proof (list_elem_of_lookup_2 _ _ _ Hc) as Hcin.
  assert (addrs (PT a kvs (<[p := c']> cs))
          = (a :: concat (addrs <$> take p cs)) ++ addrs c'
              ++ concat (addrs <$> drop (S p) cs)) as Eaddrs.
  { simpl. f_equal. rewrite (concat_middle addrs _ p c') by (by apply list_lookup_insert_eq).
    by rewrite take_insert_ge, drop_insert_lt by lia. }
  assert (addrs (PT a kvs cs)
          = (a :: concat (addrs <$> take p cs)) ++ addrs c
              ++ concat (addrs <$> drop (S p) cs)) as Eaddrs0.
  { simpl. f_equal. by apply concat_middle. }
  split; [|split; [|split; [done|]]].
  - intros x Hx Hout. rewrite Eaddrs in Hout. rewrite Eaddrs0.
    rewrite !elem_of_app in Hout |- *.
    destruct (Htight x Hx) as [Hsome Hxc]; [tauto|]. split; [done|tauto].
  - simpl. intros c0 [j Hj]%list_elem_of_lookup.
    destruct (decide (j = p)) as [->|Hne].
    + rewrite list_lookup_insert_eq in Hj by done. simplify_eq.
      destruct (dense_inv c (Hdense c Hcin)) as [Hcl _].
      apply dense_intro; [lia|done].
    + rewrite list_lookup_insert_ne in Hj by done.
      apply Hdense. by eapply list_elem_of_lookup_2.
  - rewrite Hassoc. intros Hk. rewrite !positions_node, list_fmap_insert, Hpos by done.
    rewrite list_insert_id; [done|]. by rewrite list_lookup_fmap, Hc.
Qed.

Lemma adopt_more fuel n h h1 h2 par i a kvs cs p c l r kv key value :
  rep h par i (PT a kvs cs) → NoDup (addrs (PT a kvs cs)) →
  cs !! p = Some c →
  overflowed h c (Some a) p n key value h1 l r kv →
  overflowed_more h c h1 l r →
  (∀ c0, c0 ∈ cs → dense c0) →
  adopt_local fuel h1 a (root_addr l) (root_addr r) kv.1 kv.2 p = Some h2 →
  (∀ x, is_Some (h2 !! x) →
        x ∉ addrs (PT a (insert_at p kv kvs) (take p cs ++ l :: r :: drop (S p) cs)) →
        is_Some (h !! x) ∧ x ∉ addrs (PT a kvs cs)) ∧
  (∀ c0, c0 ∈ take p cs ++ l :: r :: drop (S p) cs → dense c0).
Proof.
  intros Hrep Hnd Hc Hov (Htight & Hdl & Hdr) Hdense Hadopt.
  pose proof (list_elem_of_lookup_2 _ _ _ Hc) as Hcin.
  destruct (rep_root _ _ _ _ Hrep) as (nd & Ha & Hok). simpl in Ha, Hok.
  destruct Hov as (_ & _ & _ & _ & _ & _ & _ & _ & _ & Hframe & _).
  assert (a ∉ addrs c) as Hac by (by eapply NoDup_addrs_root).
  assert (h1 !! a = Some nd) as Ha1 by (rewrite Hframe; [done|done|eauto]).
  destruct (adopt_local_within _ _ _ _ _ _ _ _ _ Hadopt) as [Hin Hfreed].
  specialize (Hfreed nd (root_addr c) Ha1).
  rewrite (node_ok_child _ _ _ _ _ p (root_addr c) Hok) in Hfreed
    by (by rewrite list_lookup_fmap, Hc).
  specialize (Hfreed eq_refl).
  split.
  - intros x Hx Hout.
    assert (x ≠ root_addr c) as Hxc by (intros ->; rewrite Hfreed in Hx; by destruct Hx).
    simpl in Hout. rewrite concat_adopt in Hout.
    rewrite elem_of_cons, !elem_of_app in Hout.
    destruct (Htight x (Hin x Hx)) as [Hsome Hnc]; [rewrite elem_of_app; tauto|done|].
    split; [done|]. simpl. rewrite (concat_middle addrs cs p c Hc).
    rewrite elem_of_cons, !elem_of_app. tauto.
  - intros c0 [Hc0|Hc0]%elem_of_app; [apply Hdense; by eapply in_take|].
    apply elem_of_cons in Hc0 as [->|Hc0]; [done|].
    apply elem_of_cons in Hc0 as [->|Hc0]; [done|].
    apply Hdense. by eapply in_drop.
Qed.


Lemma insert_node_more n t :
  shape n t → ∀ h par i root up fuel key value,
  rep h par i t → NoDup (addrs t) → ascending (inorder t) → n < fuel →
  (∀ c, c ∈ subtrees t → dense c) →
  (∃ h' t',
      BTreeNode_insert (n + up) fuel h (root_addr t) key value root
      = Some (h', root, assoc key (inorder t)) ∧
      absorbed h t par i n key value h' t' ∧
      absorbed_more h t key h' t')
  ∨ (∃ h1 l r kv,
      BTreeNode_insert (n + up) fuel h (root_addr t) key value root
      = ('(h2, root2) ← promote up h1 (root_addr t)
                          (mkSplit (root_addr l) (root_addr r) kv.1 kv.2) root;
         Some (h2, root2, None)) ∧
      assoc key (inorder t) = None ∧
      overflowed h t par i n key value h1 l r kv ∧
      overflowed_more h t h1 l r).
Proof.
  intros Hsh. pose proof Hsh as Hsh0. revert Hsh0.
  induction Hsh as [a kvs Hk|n a kvs cs Hk Hlen Hsh IH];
    intros Hsh0 h par i root up fuel key value Hrep Hnd Hasc Hfuel Hdense;
    (destruct fuel as [|fuel]; [lia|]);
    destruct (rep_root _ _ _ _ Hrep) as (nd & Ha & Hok); simpl in Ha, Hok;
    cbn [root_addr]; rewrite BTreeNode_insert_eq, Ha; cbn [mbind option_bind];
    (destruct (linear_search_spec nd par i kvs _ key Hok) as (flag & -> & Hres); [lia|]);
    cbn [mbind option_bind];
    (apply search_cases in Hres; [|rewrite length_fmap; lia]);
    destruct Hres as [(p & k & Hp & Hcmp & Hprev & -> & Hidx)
                     |(p & Hp & Hnext & Hprev & -> & Hidx)];
    cbn [negb]; rewrite ?Hidx.
  - (* leaf, key present *)
    apply list_lookup_fmap_Some in Hp as (x & -> & Hx).
    destruct (found_absorbed h par i a kvs [] nd 0 p x key value)
      as (vs & -> & -> & -> & Habs); try done.
    left. eexists _, _. split; [done|]. split; [exact Habs|].
    eapply overwrite_more; [done|by rewrite length_insert|by rewrite length_insert|done].
  - (* leaf, key absent *)
    rewrite (node_ok_leaf _ _ _ _ Hok). rewrite length_fmap in Hp.
    destruct (leaf_insert_local h par i a kvs nd p key value)
      as (nd' & -> & Hok'); [done|done|lia|done|].
    cbn [mbind option_bind]. rewrite leaf_tail. change (0 + up) with up.
    rewrite inorder_leaf in Hasc.
    destruct (leaf_down_facts kvs p key) as [Hab Hbe]; [done..|].
    assert (assoc key (inorder (PT a kvs [])) = None) as Hnone.
    { rewrite inorder_leaf. by eapply assoc_at. }
    destruct (finish_more 0 h (PT a kvs []) (<[a:=nd']> h) a
                (insert_at p (key, value) kvs) [] par i up root key value)
      as [[-> Habs]|(h3 & l & r & kv & -> & Hov & Htb & Hdl & Hdr)]; try done.
    + apply rep_PT with nd'; [by lookups|done|]. by intros j c ?.
    + rewrite insert_at_length. lia.
    + by left.
    + rewrite !inorder_leaf. symmetry. by apply ins_at.
    + intros x Hx. by left.
    + intros x Hx _. rewrite lookup_insert_ne; [done|]. intros ->. apply Hx. by left.
    + intros x Hx Hout. assert (x ≠ a) by (intros ->; apply Hout; by left).
      rewrite lookup_insert_ne in Hx by done. done.
    + left. rewrite Hnone. eexists _, _. split; [done|]. split; [exact Habs|].
      eapply overwrite_more; [done|rewrite insert_at_length; lia| |done].
      rewrite Hnone. by intros [? ?].
    + right. rewrite Hnone. eexists _, _, _, _. split; [done|]. split; [done|].
      split; [exact Hov|]. by split.
  - (* internal, key present *)
    apply list_lookup_fmap_Some in Hp as (x & -> & Hx).
    destruct (found_absorbed h par i a kvs cs nd (S n) p x key value)
      as (vs & -> & -> & -> & Habs); try done.
    left. eexists _, _. split; [done|]. split; [exact Habs|].
    eapply overwrite_more; [done|by rewrite length_insert|by rewrite length_insert|done].
  - (* internal, key absent *)
    rewrite length_fmap in Hp.
    assert (is_Some (cs !! p)) as [c Hc] by (apply lookup_lt_is_Some; lia).
    rewrite (node_ok_internal _ _ _ _ _ Hok) by (by destruct cs).
    rewrite (node_ok_child _ _ _ _ _ p (root_addr c) Hok)
      by (by rewrite list_lookup_fmap, Hc).
    cbn [mbind option_bind mjoin option_join].
    destruct (down_facts a kvs cs p c key value) as (Hcasc & Hassoc & Hins1 & Hins2);
      [done..|].
    pose proof (list_elem_of_lookup_2 _ _ _ Hc) as Hcin.
    replace (S n + up) with (n + S up) by lia.
    destruct (IH c Hcin (Hsh c Hcin) h (Some a) p root (S up) fuel key value)
      as [(h' & c' & -> & Habs & Hmore)|(h1 & l & r & kv & -> & Hnone & Hov & Hmore)].
    { by eapply rep_child. }
    { by eapply NoDup_addrs_child. }
    { done. }
    { lia. }
    { apply dense_inv. by apply Hdense. }
    + left. exists h', (PT a kvs (<[p := c']> cs)). rewrite Hassoc. split; [done|].
      split; [by eapply child_absorbed|]. by eapply child_more.
    + rewrite Hassoc, Hnone.
      destruct (adopt_tree up n h h1 par i a kvs cs p c l r kv key value)
        as (h2 & Hadopt & Hrep2 & Hnd2 & Hnew2 & Hframe2); [done|done|done|lia|done|done|].
      destruct (adopt_more (S up) n h h1 h2 par i a kvs cs p c l r kv key value)
        as [Htight2 Hdense2]; [done..|].
      pose proof Hov as ((snd & Hsnd & _ & Hsp & Hsi) & _ & _ & Hshl & Hshr & _ & _
                         & Hinlr & _).
      assert (promote (S up) h1 (root_addr c)
                (mkSplit (root_addr l) (root_addr r) kv.1 kv.2) root
              = finish up h2 a root) as ->.
      { unfold promote. rewrite Hsnd. cbn [mbind option_bind]. rewrite Hsp, Hsi.
        rewrite adopt_unfold. cbn [sr_l sr_r sr_key sr_value]. by rewrite Hadopt. }
      destruct (finish_more (S n) h (PT a kvs cs) h2 a (insert_at p kv kvs)
                  (take p cs ++ l :: r :: drop (S p) cs) par i up root key value)
        as [[-> Habs]|(h3 & l' & r' & kv' & -> & Hov' & Htb & Hdl & Hdr)]; try done.
      * rewrite insert_at_length. lia.
      * right. exists n. split; [done|]. split.
        -- rewrite length_app, length_take, insert_at_length. simpl.
           rewrite length_drop. lia.
        -- intros c' [Hc'|Hc']%elem_of_app; [apply Hsh; by eapply in_take|].
           apply elem_of_cons in Hc' as [->|Hc']; [done|].
           apply elem_of_cons in Hc' as [->|Hc']; [done|].
           apply Hsh. by eapply in_drop.
      * by apply Hins2.
      * left. eexists _, _. split; [done|]. split; [exact Habs|].
        split; [done|]. split; [done|]. split; [simpl; rewrite insert_at_length; lia|].
        rewrite Hassoc, Hnone. by intros [? ?].
      * right. eexists _, _, _, _. split; [done|]. split; [done|].
        split; [exact Hov'|]. by split.
Qed.


Lemma BTree_insert_more t T n key value :
  tree_rep t T n → tree_tight t T → ascending (inorder T) →
  ∃ t' T' n',
    BTree_insert t key value = Some (t', assoc key (inorder T)) ∧
    tree_rep t' T' n' ∧ tree_tight t' T' ∧
    inorder T' = ins key value (inorder T) ∧
    (is_Some (assoc key (inorder T)) → positions T' = positions T ∧ root t' = root t).
Proof.
  intros Hrep [Htight Hdense] Hasc. pose proof (gas_enough _ _ _ Hrep) as Hgas.
  destruct Hrep as (Hroot & Hrep & Hsh & Hnd).
  rewrite BTree_insert_eq, Hroot.
  destruct (insert_node_more n T Hsh (heap t) None 0 (Some (root_addr T)) (gas t - n)
              (gas t) key value Hrep Hnd Hasc Hgas Hdense)
    as [(h' & T' & Hins & Habs & Hmore)|(h1 & l & r & kv & Hins & Hnone & Hov & Hmore)];
    replace (n + (gas t - n)) with (gas t) in Hins by lia; rewrite Hins.
  - destruct Habs as (Hr' & Hrep' & Hsh' & Hnd' & Hin' & _).
    destruct Hmore as (Ht' & Hd' & _ & Hpos).
    exists (mkTree h' (Some (root_addr T))), T', n. cbn [mbind option_bind].
    split; [done|]. split; [|split; [|split; [done|]]].
    + split; [by rewrite Hr'|]. done.
    + split; [|done]. simpl. intros x Hx.
      destruct (decide (x ∈ addrs T')) as [|Hout]; [done|].
      destruct (Ht' x Hx Hout) as [Hsome Hnot]. destruct Hnot. by apply Htight.
    + intros Hk. split; [by apply Hpos|done].
  - destruct Hov as ((snd & Hsnd & Hsu & Hsp & _) & Hrl & Hrr & Hshl & Hshr & Hndlr
                     & Hstale & Hinlr & _ & _ & Hll & Hlr).
    destruct Hmore as (Ht' & Hdl & Hdr).
    unfold promote. rewrite Hsnd. cbn [mbind option_bind]. rewrite Hsp.
    erewrite destroy_stale by done. cbn [mbind option_bind sr_l sr_r sr_key sr_value].
    destruct (singleton_tree (delete (root_addr T) h1) None 0 None 0 l r kv)
      as (h' & s & -> & Hs & Hrep' & Hkeep); [| |done|].
    { eapply rep_ext; [done|]. intros x Hx. rewrite lookup_delete_ne; [done|].
      intros <-. apply Hstale, elem_of_app. by left. }
    { eapply rep_ext; [done|]. intros x Hx. rewrite lookup_delete_ne; [done|].
      intros <-. apply Hstale, elem_of_app. by right. }
    cbn [mbind option_bind].
    exists (mkTree h' (Some s)), (PT s [kv] [l; r]), (S n).
    rewrite Hnone. split; [done|]. split; [|split; [|split]].
    + split; [done|]. split; [done|]. split.
      * constructor; simpl; [lia|done|].
        intros c [->|[->|[]%elem_of_nil]%elem_of_cons]%elem_of_cons; done.
      * simpl. rewrite app_nil_r. apply NoDup_cons. split; [|done].
        intros Hin. assert (is_Some (delete (root_addr T) h1 !! s)) as [? ?]; [|congruence].
        apply elem_of_app in Hin as [Hin|Hin].
        -- eapply (rep_dom _ _ _ l); [|done]. eapply rep_ext; [done|].
           intros x Hx. rewrite lookup_delete_ne; [done|].
           intros <-. apply Hstale, elem_of_app. by left.
        -- eapply (rep_dom _ _ _ r); [|done]. eapply rep_ext; [done|].
           intros x Hx. rewrite lookup_delete_ne; [done|].
           intros <-. apply Hstale, elem_of_app. by right.
    + split.
      * simpl. rewrite app_nil_r. intros x Hx.
        destruct (decide (x = s)) as [->|Hxs]; [by left|]. right.
        destruct (decide (x ∈ addrs l ++ addrs r)) as [|Hout]; [done|].
        exfalso. rewrite Hkeep in Hx; [|done| |].
        -- destruct (decide (x = root_addr T)) as [->|Hxr];
             [rewrite lookup_delete_eq in Hx; by destruct Hx|].
           rewrite lookup_delete_ne in Hx by done.
           destruct (Ht' x Hx Hout Hxr) as [Hsome Hnot]. apply Hnot. by apply Htight.
        -- intros ->. apply Hout, elem_of_app. left. apply addrs_root.
        -- intros ->. apply Hout, elem_of_app. right. apply addrs_root.
      * simpl. intros c [->|[->|[]%elem_of_nil]%elem_of_cons]%elem_of_cons; done.
    + by rewrite inorder_two.
    + by intros [? ?].
Qed.

Lemma BTree_insert_empty_more t key value :
  root t = None → heap t = ∅ →
  ∃ t' a, BTree_insert t key value = Some (t', None) ∧
          tree_rep t' (PT a [(key, value)] []) 0 ∧
          tree_tight t' (PT a [(key, value)] []).
Proof.
  intros Hroot Hempty.
  destruct (BTree_insert_empty t key value Hroot) as (t' & a & Hins & Hrep).
  exists t', a. split; [done|]. split; [done|]. split.
  - rewrite BTree_insert_eq, Hroot in Hins. unfold alloc in Hins. rewrite Hempty in Hins.
    apply bind_Some in Hins as (h1 & H1 & Hins).
    apply bind_Some in Hins as (h2 & H2 & Hins).
    apply bind_Some in Hins as (h3 & H3 & Hins). simplify_eq.
    destruct Hrep as (Hr & _). simpl in Hr. simplify_eq. simpl.
    intros x Hx. apply list_elem_of_singleton.
    apply (update_within _ _ _ _ H3), (update_within _ _ _ _ H2),
      (update_within _ _ _ _ H1) in Hx.
    destruct (decide (x = fresh (dom (∅ : gmap addr BTreeNode)))) as [|Hne]; [done|].
    rewrite lookup_insert_ne, lookup_empty in Hx by done. by destruct Hx.
  - simpl. by intros c ?%elem_of_nil.
Qed.

Lemma BTree_insert_inv_more t l key value :
  tree_inv_more t l → ascending l →
  ∃ t', BTree_insert t key value = Some (t', assoc key l) ∧
        tree_inv_more t' (ins key value l).
Proof.
  unfold tree_inv_more. intros Hinv Hasc. destruct (root t) as [r|] eqn:Hroot.
  - destruct Hinv as (n & T & Hrep & Htight & <-).
    destruct (BTree_insert_more t T n key value Hrep Htight Hasc)
      as (t' & T' & n' & Hins & Hrep' & Htight' & Hin' & _).
    exists t'. split; [done|]. pose proof Hrep' as (Hroot' & ?).
    rewrite Hroot'. exists n', T'. by split.
  - destruct Hinv as [-> Hempty].
    destruct (BTree_insert_empty_more t key value Hroot Hempty)
      as (t' & a & Hins & Hrep & Htight).
    exists t'. split; [done|]. pose proof Hrep as (Hroot' & ?).
    rewrite Hroot'. eexists 0, _. by split.
Qed.

Lemma run_inv_more ops : ∀ t l,
  tree_inv_more t l → ascending l →
  ∃ t', run ops t = Some t' ∧
        tree_inv_more t' (foldl (λ acc kv, ins kv.1 kv.2 acc) l ops).
Proof.
  induction ops as [|[k v] ops IH]; intros t l Hinv Hasc; simpl.
  - eauto.
  - destruct (BTree_insert_inv_more t l k v Hinv Hasc) as (t' & -> & Hinv').
    cbn [mbind option_bind]. apply IH; [done|]. by apply ins_ascending.
Qed.

Lemma run_more ops :
  ∃ t, run ops BTree_empty = Some t ∧
       match root t with
       | Some _ => ∃ n T, tree_rep t T n ∧ tree_tight t T ∧
                          inorder T = model ops ∧ ascending (inorder T)
       | None => ops = [] ∧ heap t = ∅
       end.
Proof.
  destruct (run_inv_more ops BTree_empty []) as (t & Hrun & Hinv); [done|constructor|].
  destruct (run_model ops) as (t0 & Hrun0 & _ & Hasc). simplify_eq.
  exists t. split; [done|]. unfold tree_inv_more in Hinv. fold (model ops) in Hinv.
  destruct (root t).
  - destruct Hinv as (n & T & Hrep & Htight & Hin). exists n, T. by rewrite Hin.
  - destruct Hinv as [Hnil Hempty]. split; [by apply model_nil|done].
Qed.


(** *** The destructor *)

Lemma destroy_tree n t :
  shape n t → ∀ h par i fuel, rep h par i t → NoDup (addrs t) → n < fuel →
  ∃ h', destroy fuel h (Some (root_addr t)) = Some h' ∧
        ∀ x, h' !! x = if decide (x ∈ addrs t) then None else h !! x.
Proof.
  induction 1 as [a kvs Hk|n a kvs cs Hk Hlen Hsh IH]; intros h par i fuel Hrep Hnd Hfuel;
    (destruct fuel as [|fuel]; [lia|]);
    destruct (rep_root _ _ _ _ Hrep) as (nd & Ha & Hok); simpl in Ha, Hok;
    cbn [root_addr destroy]; rewrite Ha; cbn [mbind option_bind].
  - rewrite (node_ok_leaf _ _ _ _ Hok). cbn [andb mbind option_bind]. rewrite Ha.
    cbn [mbind option_bind]. eexists. split; [done|]. intros x. simpl.
    destruct (decide (x = a)) as [->|Hne].
    + rewrite lookup_delete_eq. by rewrite decide_True by (by left).
    + rewrite lookup_delete_ne by done. rewrite decide_False; [done|].
      by intros ->%list_elem_of_singleton.
  - rewrite (node_ok_internal _ _ _ _ _ Hok) by (by destruct cs).
    pose proof (ok_usage _ _ _ _ _ Hok) as Hu.
    assert (negb (usage nd =? 0) = true) as ->.
    { apply negb_true_iff, Nat.eqb_neq. lia. }
    cbn [andb]. rewrite Hu, <-Hlen.
    assert (∀ m j hj, j + m = length cs →
              (∀ x, hj !! x = if decide (x ∈ concat (addrs <$> take j cs))
                              then None else h !! x) →
              ∃ h', foldl (λ acc i, hh ← acc; c ← children nd !! i; destroy fuel hh c)
                          (Some hj) (seq j m) = Some h' ∧
                    ∀ x, h' !! x = if decide (x ∈ concat (addrs <$> cs))
                                   then None else h !! x) as Hloop.
    { induction m as [|m IHm]; intros j hj Hj Hhj.
      - exists hj. split; [done|]. rewrite take_ge in Hhj by lia. done.
      - assert (is_Some (cs !! j)) as [c Hc] by (apply lookup_lt_is_Some; lia).
        pose proof (list_elem_of_lookup_2 _ _ _ Hc) as Hcin.
        cbn [seq foldl mbind option_bind].
        rewrite (node_ok_child _ _ _ _ _ j (root_addr c) Hok)
          by (by rewrite list_lookup_fmap, Hc).
        cbn [mbind option_bind].
        assert (∀ x, x ∈ addrs c → x ∉ concat (addrs <$> take j cs)) as Hdisj.
        { intros x Hx Hin.
          apply elem_of_concat in Hin as (ll & Hx' & (c' & -> & Hc')%list_elem_of_fmap).
          apply list_elem_of_lookup in Hc' as [j' Hj'].
          apply lookup_take_Some in Hj' as [Hj' ?].
          assert (j' = j); [|lia].
          by eapply (NoDup_addrs_disjoint a kvs cs). }
        destruct (IH c Hcin hj (Some a) j fuel) as (h1 & -> & Hh1).
        { eapply rep_ext; [by eapply rep_child|]. intros x Hx.
          rewrite Hhj. by rewrite decide_False by (by apply Hdisj). }
        { by eapply NoDup_addrs_child. }
        { lia. }
        apply IHm; [lia|]. intros x. rewrite Hh1, Hhj.
        rewrite (take_S_r cs j c Hc), fmap_app, concat_app. simpl. rewrite app_nil_r.
        destruct (decide (x ∈ addrs c)) as [Hx|Hx].
        + rewrite decide_True; [done|]. apply elem_of_app. by right.
        + destruct (decide (x ∈ concat (addrs <$> take j cs))) as [Hx'|Hx'].
          * rewrite decide_True; [done|]. apply elem_of_app. by left.
          * rewrite decide_False; [done|]. by intros [?|?]%elem_of_app. }
    destruct (Hloop (length cs) 0 h) as (h' & -> & Hh'); [lia| |].
    { intros x. rewrite take_0. destruct (decide _) as [Hx|]; [|done].
      simpl in Hx. by apply elem_of_nil in Hx. }
    cbn [mbind option_bind].
    assert (a ∉ concat (addrs <$> cs)) as Hna.
    { simpl in Hnd. by apply NoDup_cons in Hnd as [? _]. }
    rewrite Hh', decide_False, Ha by done. cbn [mbind option_bind].
    eexists. split; [done|]. intros x. simpl.
    destruct (decide (x = a)) as [->|Hne].
    + rewrite lookup_delete_eq. by rewrite decide_True by (by left).
    + rewrite lookup_delete_ne, Hh' by done.
      destruct (decide (x ∈ concat (addrs <$> cs))) as [Hx|Hx].
      * rewrite decide_True; [done|]. by right.
      * rewrite decide_False; [done|]. by intros [?|?]%elem_of_cons.
Qed.

(** After any sequence of inserts, destroying the tree releases every
    node that is allocated, each one once: the destructor runs to its end
    and leaves the store empty.  The inserts leave no superseded node
    behind, and the zeroed [usage] of a split node keeps its release from
    taking the children that moved to the two halves. *)
Theorem destructor_releases_all (ops : list (K * V)) :
  ∃ t, run ops BTree_empty = Some t ∧ BTree_destroy t = Some ∅.
Proof.
  destruct (run_more ops) as (t & Hrun & Hinv). exists t. split; [done|].
  unfold BTree_destroy. destruct (root t) as [r|] eqn:Hroot.
  - destruct Hinv as (n & T & Hrep & [Htight _] & _).
    pose proof (gas_enough _ _ _ Hrep) as Hgas.
    destruct Hrep as (Hr & Hrep & Hsh & Hnd). rewrite Hroot in Hr. simplify_eq.
    destruct (destroy_tree n T Hsh (heap t) None 0 (gas t) Hrep Hnd Hgas)
      as (h' & -> & Hh'). f_equal. apply map_eq. intros x.
    rewrite Hh', lookup_empty. destruct (decide (x ∈ addrs T)) as [|Hout]; [done|].
    destruct (heap t !! x) eqn:E; [|done]. destruct Hout. apply Htight. by eauto.
  - destruct Hinv as [_ ->]. by destruct (gas t).
Qed.


(** *** Occupancy and height *)

Lemma at_depth_dense n t :
  shape n t → ∀ h par i d a, rep h par i t → dense t →
  at_depth h (root_addr t) d a →
  ∃ nd, h !! a = Some nd ∧ B - 1 ≤ usage nd.
Proof.
  induction 1 as [a kvs Hk|n a kvs cs Hk Hlen Hsh IH]; intros h par i d b Hrep Hdense Hd;
    destruct (rep_root _ _ _ _ Hrep) as (nd & Ha & Hok); simpl in Ha, Hok;
    pose proof (ok_usage _ _ _ _ _ Hok) as Hu;
    destruct (dense_inv _ Hdense) as [Hdk Hdc]; simpl in Hdk, Hdc;
    inversion Hd as [|? nd' j c d' ? Ha' Hint Hj Hc Hd']; simplify_eq/=.
  - exists nd. split; [done|lia].
  - by rewrite (node_ok_leaf _ _ _ _ Hok) in Hint.
  - exists nd. split; [done|lia].
  - assert (is_Some (cs !! j)) as [c' Hc'] by (apply lookup_lt_is_Some; lia).
    rewrite (node_ok_child _ _ _ _ _ j (root_addr c') Hok) in Hc
      by (by rewrite list_lookup_fmap, Hc').
    simplify_eq. pose proof (list_elem_of_lookup_2 _ _ _ Hc') as Hcin.
    eapply (IH c' Hcin h (Some a) j d' b); [by eapply rep_child|by apply Hdc|done].
Qed.

Lemma at_depth_below n t :
  shape n t → ∀ h par i d a, rep h par i t → (∀ c, c ∈ subtrees t → dense c) →
  at_depth h (root_addr t) (S d) a →
  ∃ nd, h !! a = Some nd ∧ B - 1 ≤ usage nd.
Proof.
  destruct 1 as [a kvs Hk|n a kvs cs Hk Hlen Hsh]; intros h par i d b Hrep Hdense Hd;
    destruct (rep_root _ _ _ _ Hrep) as (nd & Ha & Hok); simpl in Ha, Hok;
    pose proof (ok_usage _ _ _ _ _ Hok) as Hu;
    inversion Hd as [|? nd' j c d' ? Ha' Hint Hj Hc Hd']; simplify_eq/=.
  - by rewrite (node_ok_leaf _ _ _ _ Hok) in Hint.
  - assert (is_Some (cs !! j)) as [c' Hc'] by (apply lookup_lt_is_Some; lia).
    rewrite (node_ok_child _ _ _ _ _ j (root_addr c') Hok) in Hc
      by (by rewrite list_lookup_fmap, Hc').
    simplify_eq. pose proof (list_elem_of_lookup_2 _ _ _ Hc') as Hcin.
    eapply (at_depth_dense n c' (Hsh c' Hcin) h (Some a) j d b);
      [by eapply rep_child|by apply Hdense|done].
Qed.

(** After any sequence of inserts every node other than the root holds at
    least [B-1] keys. *)
Theorem nodes_half_full (ops : list (K * V)) :
  ∃ t, run ops BTree_empty = Some t ∧
       ∀ r d a, root t = Some r → at_depth (heap t) r (S d) a →
         ∃ nd, heap t !! a = Some nd ∧ B - 1 ≤ usage nd.
Proof.
  destruct (run_more ops) as (t & Hrun & Hinv). exists t. split; [done|].
  intros r d a Hroot Hd. rewrite Hroot in Hinv.
  destruct Hinv as (n & T & (Hr & Hrep & Hsh & _) & [_ Hdense] & _).
  rewrite Hroot in Hr. simplify_eq. by eapply at_depth_below.
Qed.

Lemma interleave_length {X} (cs : list (list X)) ks :
  length (interleave cs ks) = length (concat cs) + length ks.
Proof.
  revert ks. induction cs as [|c cs IH]; intros ks; [done|].
  destruct ks as [|k ks]; simpl; rewrite !length_app; simpl; rewrite IH; simpl; lia.
Qed.

Lemma concat_length_lower {X Y} (f : X → list Y) (cs : list X) M :
  (∀ c, c ∈ cs → M ≤ S (length (f c))) →
  length cs * M ≤ length (concat (f <$> cs)) + length cs.
Proof.
  induction cs as [|c cs IH]; intros Hall; [done|].
  rewrite fmap_cons. cbn [concat length]. rewrite length_app, Nat.mul_succ_l.
  pose proof (Hall c ltac:(by left)).
  pose proof (IH (λ c' Hc', Hall c' ltac:(by right))). lia.
Qed.

Lemma dense_count n t :
  shape n t → dense t → B ^ S n ≤ S (length (inorder t)).
Proof.
  induction 1 as [a kvs Hk|n a kvs cs Hk Hlen Hsh IH]; intros Hdense;
    destruct (dense_inv _ Hdense) as [Hdk Hdc]; simpl in Hdk, Hdc.
  - rewrite inorder_leaf. simpl. lia.
  - unfold inorder; fold inorder. rewrite interleave_length.
    pose proof (concat_length_lower inorder cs (B ^ S n)
                  (λ c Hc, IH c Hc (Hdc c Hc))) as Hsum.
    assert (B * B ^ S n ≤ length cs * B ^ S n) as Hmul
      by (apply Nat.mul_le_mono_r; lia).
    change (B ^ S (S n)) with (B * B ^ S n). lia.
Qed.

Lemma root_count n t :
  shape n t → (∀ c, c ∈ subtrees t → dense c) → 2 * B ^ n ≤ S (length (inorder t)).
Proof.
  destruct 1 as [a kvs Hk|n a kvs cs Hk Hlen Hsh]; intros Hdc; simpl in Hdc.
  - rewrite inorder_leaf. simpl. lia.
  - unfold inorder; fold inorder. rewrite interleave_length.
    pose proof (concat_length_lower inorder cs (B ^ S n)
                  (λ c Hc, dense_count n c (Hsh c Hc) (Hdc c Hc))) as Hsum.
    assert (2 * B ^ S n ≤ length cs * B ^ S n) as Hmul
      by (apply Nat.mul_le_mono_r; lia).
    lia.
Qed.

(** The height is logarithmic in the number of keys: a tree of height [d]
    (the number of child links from the root down to a leaf) holds at
    least [2 B^d - 1] keys. *)
Theorem height_logarithmic (ops : list (K * V)) :
  ∃ t it L,
    run ops BTree_empty = Some t ∧ BTree_begin t = Some it ∧
    (∀ steps, length L < steps → walk steps t it = Some L) ∧
    ∀ d, BTree_height t = Some d → 2 * B ^ d ≤ S (length L).
Proof.
  destruct (run_more ops) as (t & Hrun & Hinv). exists t.
  destruct (root t) as [r|] eqn:Hroot.
  - destruct Hinv as (n & T & Hrep & [_ Hdense] & Hin & _).
    assert (tree_inv t (inorder T)) as Hti.
    { unfold tree_inv. rewrite Hroot. by exists n, T. }
    destruct (traverse_inv t (inorder T) Hti) as (it & Hbegin & Hwalk).
    exists it, (inorder T). split; [done|]. split; [done|]. split; [done|].
    intros d Hd. rewrite (height_rep _ _ _ Hrep) in Hd. simplify_eq.
    destruct Hrep as (_ & _ & Hsh & _). by apply root_count.
  - exists BTree_end, []. unfold BTree_begin, BTree_height. rewrite Hroot.
    split; [done|]. split; [done|]. split; [|done].
    intros [|steps] ?; [simpl in *; lia|done].
Qed.

(** *** An insert that finds its key *)




(** *** The nodes of a reached tree *)

Lemma zipcat_elem {X} (css : list (list X)) (ks : list X) m y :
  ks !! m = Some y → m < length css → y ∈ zipcat css ks.
Proof.
  intros Hy Hm. destruct (lookup_lt_is_Some_2 css m Hm) as [c Hc].
  unfold zipcat. apply elem_of_concat. exists (c ++ [y]). split.
  - apply elem_of_app. right. by apply list_elem_of_singleton.
  - apply list_elem_of_lookup. exists m. by rewrite lookup_zip_with, Hc; simpl; rewrite Hy.
Qed.

Lemma inorder_split_at a kvs cs p x :
  cs = [] ∨ length cs = S (length kvs) → kvs !! p = Some x →
  ∃ pre post,
    inorder (PT a kvs cs) = pre ++ x :: post ∧
    (∀ y, y ∈ take p kvs → y ∈ pre) ∧
    (∀ c y, cs !! p = Some c → y ∈ inorder c → y ∈ pre) ∧
    (∀ c y, cs !! S p = Some c → y ∈ inorder c → y ∈ post).
Proof.
  intros Hcs Hx. pose proof (lookup_lt_Some _ _ _ Hx) as Hp.
  destruct Hcs as [->|Hlen].
  - exists (take p kvs), (drop (S p) kvs). rewrite inorder_leaf.
    split; [by rewrite take_drop_middle|]. split; [done|]. split; by intros c y ?.
  - assert (is_Some (cs !! p)) as [cp Hcp] by (apply lookup_lt_is_Some; lia).
    exists (zipcat (take p (inorder <$> cs)) (take p kvs) ++ inorder cp),
           (interleave (inorder <$> drop (S p) cs) (drop (S p) kvs)).
    split; [|split; [|split]].
    + unfold inorder; fold inorder.
      rewrite (interleave_at _ _ p) by (rewrite ?length_fmap; lia).
      rewrite <-fmap_drop, (drop_S _ _ _ Hcp), (drop_S _ _ _ Hx), fmap_cons.
      cbn [interleave]. by rewrite <-app_assoc.
    + intros y [m Hm]%list_elem_of_lookup. apply elem_of_app. left.
      apply lookup_take_Some in Hm as [Hm ?].
      eapply (zipcat_elem _ _ m); [by rewrite lookup_take_lt|].
      rewrite length_take, length_fmap. lia.
    + intros c y Hc Hy. simplify_eq. apply elem_of_app. by right.
    + intros c y Hc Hy. rewrite (drop_S _ _ _ Hc), fmap_cons, interleave_cons.
      apply elem_of_app. by left.
Qed.

Lemma node_key nd par i kvs cas j k :
  node_ok nd par i kvs cas → j < usage nd → keys nd !! j = Some k →
  ∃ x, kvs !! j = Some x ∧ x.1 = k.
Proof.
  intros Hok Hj Hk. rewrite (ok_usage _ _ _ _ _ Hok) in Hj.
  rewrite <-(lookup_take_lt _ (length kvs)) in Hk by done.
  rewrite (ok_keys _ _ _ _ _ Hok), list_lookup_fmap in Hk.
  destruct (kvs !! j) as [x|]; simplify_eq/=. by exists x.
Qed.

Lemma at_depth_facts n t :
  shape n t → ∀ h par i d b, rep h par i t → ascending (inorder t) →
  at_depth h (root_addr t) d b →
  ∃ bn, h !! b = Some bn ∧
    (∀ j1 j2 k1 k2, j1 < j2 → j2 < usage bn →
       keys bn !! j1 = Some k1 → keys bn !! j2 = Some k2 → before k1 k2) ∧
    (IsInternal bn = true → ∀ j, j ≤ usage bn →
       ∃ c cn, children bn !! j = Some (Some c) ∧ h !! c = Some cn ∧
               parent cn = Some b ∧ parent_idx cn = j) ∧
    (∀ j k, j < usage bn → keys bn !! j = Some k → k ∈ (inorder t).*1) ∧
    (∀ j c d' e en m k,
       j ≤ usage bn → children bn !! j = Some (Some c) → IsInternal bn = true →
       at_depth h c d' e → h !! e = Some en → m < usage en → keys en !! m = Some k →
       (∀ kj, j < usage bn → keys bn !! j = Some kj → before k kj) ∧
       (∀ kp, 0 < j → keys bn !! (j - 1) = Some kp → before kp k)).
Proof.
  induction 1 as [a kvs Hk|n a kvs cs Hk Hlen Hsh IH]; intros h par i d b Hrep Hasc Hd;
    destruct (rep_root _ _ _ _ Hrep) as (nd & Ha & Hok); simpl in Ha, Hok;
    pose proof (ok_usage _ _ _ _ _ Hok) as Hu;
    inversion Hd as [|? nd' j c d' ? Ha' Hint Hj Hc Hd']; simplify_eq/=.
  - (* a leaf *)
    exists nd. split; [done|]. split; [|split; [|split]].
    + intros j1 j2 k1 k2 Hlt Hj2 H1 H2.
      destruct (node_key _ _ _ _ _ j1 k1 Hok) as (x1 & Hx1 & <-); [lia|done|].
      destruct (node_key _ _ _ _ _ j2 k2 Hok) as (x2 & Hx2 & <-); [lia|done|].
      destruct (inorder_split_at b kvs [] j2 x2) as (pre & post & E & Hpre & _);
        [by left|done|].
      rewrite E in Hasc. apply ascending_app in Hasc as (_ & _ & Hord).
      apply (Hord x1 x2); [|by left]. apply Hpre.
      apply list_elem_of_lookup. exists j1. by rewrite lookup_take_lt.
    + by rewrite (node_ok_leaf _ _ _ _ Hok).
    + intros j k Hj Hkj.
      destruct (node_key _ _ _ _ _ j k Hok) as (x & Hx & <-); [done..|].
      apply list_elem_of_fmap_2. rewrite inorder_leaf. by eapply list_elem_of_lookup_2.
    + intros j c d' e en m k _ _ Hint. by rewrite (node_ok_leaf _ _ _ _ Hok) in Hint.
  - by rewrite (node_ok_leaf _ _ _ _ Hok) in Hint.
  - (* an internal node *)
    exists nd. split; [done|]. split; [|split; [|split]].
    + intros j1 j2 k1 k2 Hlt Hj2 H1 H2.
      destruct (node_key _ _ _ _ _ j1 k1 Hok) as (x1 & Hx1 & <-); [lia|done|].
      destruct (node_key _ _ _ _ _ j2 k2 Hok) as (x2 & Hx2 & <-); [lia|done|].
      destruct (inorder_split_at b kvs cs j2 x2) as (pre & post & E & Hpre & _);
        [by right|done|].
      rewrite E in Hasc. apply ascending_app in Hasc as (_ & _ & Hord).
      apply (Hord x1 x2); [|by left]. apply Hpre.
      apply list_elem_of_lookup. exists j1. by rewrite lookup_take_lt.
    + intros _ j Hj.
      assert (is_Some (cs !! j)) as [c Hc] by (apply lookup_lt_is_Some; lia).
      destruct (rep_root _ _ _ _ (rep_child _ _ _ _ _ _ _ _ Hrep Hc)) as (cn & Hcn & Hcok).
      exists (root_addr c), cn.
      split; [by apply (node_ok_child _ _ _ _ _ j (root_addr c) Hok);
              rewrite list_lookup_fmap, Hc|].
      split; [done|]. by destruct Hcok.
    + intros j k Hj Hkj.
      destruct (node_key _ _ _ _ _ j k Hok) as (x & Hx & <-); [done..|].
      destruct (inorder_split_at b kvs cs j x) as (pre & post & E & _);
        [by right|done|].
      apply list_elem_of_fmap_2. rewrite E. apply elem_of_app. right. by left.
    + intros j c d' e en m k Hj Hc _ Hd' He Hm Hkm.
      assert (is_Some (cs !! j)) as [c' Hc'] by (apply lookup_lt_is_Some; lia).
      rewrite (node_ok_child _ _ _ _ _ j (root_addr c') Hok) in Hc
        by (by rewrite list_lookup_fmap, Hc').
      simplify_eq. pose proof (list_elem_of_lookup_2 _ _ _ Hc') as Hcin.
      destruct (inorder_child b kvs cs j c' Hlen Hc') as (pre0 & post0 & _ & _ & E0 & _).
      assert (ascending (inorder c')) as Hcasc.
      { rewrite E0 in Hasc. apply ascending_app in Hasc as (_ & Hasc & _).
        by apply ascending_app in Hasc as (Hasc & _). }
      destruct (IH c' Hcin h (Some b) j d' e (rep_child _ _ _ _ _ _ _ _ Hrep Hc') Hcasc Hd')
        as (en' & He' & _ & _ & Hkeys & _).
      simplify_eq. apply Hkeys in Hkm; [|done].
      apply list_elem_of_fmap in Hkm as (y & -> & Hy). split.
      * intros kj Hlt Hkj.
        destruct (node_key _ _ _ _ _ j kj Hok) as (x & Hx & <-); [done..|].
        destruct (inorder_split_at b kvs cs j x) as (pre & post & E & _ & Hpre & _);
          [by right|done|].
        rewrite E in Hasc. apply ascending_app in Hasc as (_ & _ & Hord).
        apply (Hord y x); [by eapply Hpre|by left].
      * intros kp Hpos Hkp.
        destruct (node_key _ _ _ _ _ (j - 1) kp Hok) as (x & Hx & <-); [lia|done|].
        destruct (inorder_split_at b kvs cs (j - 1) x) as (pre & post & E & _ & _ & Hpost);
          [by right|done|].
        rewrite E in Hasc. apply ascending_app in Hasc as (_ & Hasc & _).
        apply ascending_cons in Hasc as [Hbelow _].
        eapply Forall_forall in Hbelow; [done|].
        eapply Hpost; [|done]. by replace (S (j - 1)) with j by lia.
  - (* below a child *)
    assert (is_Some (cs !! j)) as [c' Hc'] by (apply lookup_lt_is_Some; lia).
    rewrite (node_ok_child _ _ _ _ _ j (root_addr c') Hok) in Hc
      by (by rewrite list_lookup_fmap, Hc').
    simplify_eq. pose proof (list_elem_of_lookup_2 _ _ _ Hc') as Hcin.
    destruct (inorder_child a kvs cs j c' Hlen Hc') as (pre0 & post0 & _ & _ & E0 & _).
    assert (ascending (inorder c')) as Hcasc.
    { rewrite E0 in Hasc. apply ascending_app in Hasc as (_ & Hasc & _).
      by apply ascending_app in Hasc as (Hasc & _). }
    destruct (IH c' Hcin h (Some a) j d' b (rep_child _ _ _ _ _ _ _ _ Hrep Hc') Hcasc Hd')
      as (bn & Hb & Hord & Hlinks & Hkeys & Hsep).
    exists bn. split; [done|]. split; [done|]. split; [done|]. split; [|done].
    intros m k Hm Hkm. specialize (Hkeys m k Hm Hkm).
    rewrite E0, !fmap_app, !elem_of_app. auto.
Qed.

(** After any sequence of inserts the links of the tree agree with its
    shape: the root has no parent, and an internal node reached from the
    root has at each of its [usage + 1] child slots an allocated child
    whose parent pointer and index-in-parent lead back to that slot. *)
Theorem links_consistent (ops : list (K * V)) :
  ∃ t, run ops BTree_empty = Some t ∧
       ∀ r, root t = Some r →
         (∃ rn, heap t !! r = Some rn ∧ parent rn = None) ∧
         ∀ d b bn j, at_depth (heap t) r d b → heap t !! b = Some bn →
           IsInternal bn = true → j ≤ usage bn →
           ∃ c cn, children bn !! j = Some (Some c) ∧ heap t !! c = Some cn ∧
                   parent cn = Some b ∧ parent_idx cn = j.
Proof.
  destruct (run_rep ops) as (t & Hrun & Hinv). exists t. split; [done|].
  intros r Hroot. rewrite Hroot in Hinv.
  destruct Hinv as (n & T & (Hr & Hrep & Hsh & _) & _ & Hasc).
  rewrite Hroot in Hr. simplify_eq. split.
  - destruct (rep_root _ _ _ _ Hrep) as (rn & Hrn & Hok). exists rn.
    split; [done|]. by destruct Hok.
  - intros d b bn j Hd Hb Hint Hj.
    destruct (at_depth_facts n T Hsh (heap t) None 0 d b Hrep Hasc Hd)
      as (bn' & Hb' & _ & Hlinks & _). simplify_eq. by apply Hlinks.
Qed.



(** *** The flag of [linear_search] *)

(** [linear_search] on a node, whose array of keys has the declared
    [2B-1] slots: it fails its assertion when the field [usage] is [2B]
    or more; otherwise it returns [FOUND | p] for the first slot [p] whose
    key compares equal, or [GO_DOWN | p] for the first slot whose key is
    greater ([p = usage] when there is none), all keys before [p] being
    smaller, and the two masks give [p] back from the flag. *)
Theorem linear_search_flag (nd : BTreeNode) (key : K) :
  length (keys nd) = 2 * B - 1 →
  (2 * B ≤ usage nd → linear_search nd key = None) ∧
  (usage nd < 2 * B →
   ∃ flag p, linear_search nd key = Some flag ∧ p ≤ usage nd ∧
     (∀ j k, j < p → keys nd !! j = Some k → (0 < comp key k)%Z) ∧
     ((∃ k, p < usage nd ∧ keys nd !! p = Some k ∧ comp key k = 0%Z ∧
            flag = Z.lor FOUND (Z.of_nat p) ∧
            Z.land flag FOUND ≠ 0%Z ∧ Z.land flag FOUND_MASK = Z.of_nat p)
      ∨ ((∀ k, keys nd !! p = Some k → p < usage nd → (comp key k < 0)%Z) ∧
         flag = Z.lor GO_DOWN (Z.of_nat p) ∧
         Z.land flag FOUND = 0%Z ∧ Z.land flag GO_DOWN_MASK = Z.of_nat p))).
Proof.
  intros Hslots. unfold linear_search. split.
  - intros Hbig. by rewrite decide_False by lia.
  - intros Hsmall. rewrite decide_True by done.
    assert (usage nd ≤ length (keys nd)) as Hlen by lia.
    destruct (linear_search_from_spec nd key (take (usage nd) (keys nd)) 0 (usage nd))
      as (flag & Hflag & Hres); [done|done|done|intros; lia|].
    assert (length (take (usage nd) (keys nd)) = usage nd) as Hl
      by (rewrite length_take; lia).
    assert (∀ j k, j < usage nd →
              take (usage nd) (keys nd) !! j = Some k ↔ keys nd !! j = Some k) as Hlk.
    { intros j k Hj. by rewrite lookup_take_lt. }
    destruct Hres as [p k Hk Hcmp Hprev|p Hp Hnext Hprev].
    + pose proof (lookup_lt_Some _ _ _ Hk) as Hpl. rewrite Hl in Hpl.
      exists (Z.lor FOUND (Z.of_nat p)), p. split; [done|]. split; [lia|]. split.
      { intros j k' Hj Hk'. apply (Hprev j); [done|]. apply Hlk; [lia|done]. }
      left. exists k. split; [done|]. split; [by apply Hlk|]. split; [done|].
      split; [done|]. rewrite flag_found_found, flag_found_mask by lia. done.
    + rewrite Hl in Hp.
      exists (Z.lor GO_DOWN (Z.of_nat p)), p. split; [done|]. split; [done|]. split.
      { intros j k' Hj Hk'. apply (Hprev j); [done|]. apply Hlk; [lia|done]. }
      right. split.
      { intros k Hk Hlt. apply Hnext. by apply Hlk. }
      split; [done|]. rewrite flag_godown_found, flag_godown_mask by lia. done.
Qed.

End btree.

(** ** The comparators *)

Lemma wrap_in_range (w x : Z) : (0 < w)%Z → Comparator.in_range w x → Comparator.wrap w x = x.
Proof.
  unfold Comparator.in_range, Comparator.wrap. intros Hw Hx.
  assert (2 ^ w = 2 * 2 ^ (w - 1))%Z as Hpow.
  { replace w with (Z.succ (w - 1)) at 1 by lia. apply Z.pow_succ_r. lia. }
  rewrite Z.mod_small by lia. lia.
Qed.

Lemma default_compare_else_sign (a b : Z) :
  ((Comparator.default_compare_else a b < 0)%Z ↔ (a < b)%Z) ∧
  (Comparator.default_compare_else a b = 0%Z ↔ a = b) ∧
  ((0 < Comparator.default_compare_else a b)%Z ↔ (b < a)%Z).
Proof.
  unfold Comparator.default_compare_else.
  destruct (Z.ltb_spec a b), (Z.ltb_spec b a); lia.
Qed.

Lemma default_compare_else_contract : Contract Comparator.default_compare_else.
Proof.
  split.
  - intros a b. apply default_compare_else_sign.
  - intros a b. destruct (default_compare_else_sign a b) as (-> & _ & _).
    by destruct (default_compare_else_sign b a) as (_ & _ & ->).
  - intros a b c.
    destruct (default_compare_else_sign a b) as (-> & _ & _).
    destruct (default_compare_else_sign b c) as (-> & _ & _).
    destruct (default_compare_else_sign a c) as (-> & _ & _). lia.
Qed.

(** C8: the three-way branch of the default comparator reports the order of
    any two keys.  The subtracting branch, on signed keys of [w] bits,
    reports it whenever the difference of the keys is a value of [int];
    that is so for every pair of keys of a type narrower than [int], and
    fails for wider types (see the counterexample below). *)
Theorem C8_default_compare (w a b : Z) :
  (0 < w)%Z → Comparator.in_range w a → Comparator.in_range w b →
  (((Comparator.default_compare_else a b < 0)%Z ↔ (a < b)%Z) ∧
   (Comparator.default_compare_else a b = 0%Z ↔ a = b) ∧
   ((0 < Comparator.default_compare_else a b)%Z ↔ (b < a)%Z)) ∧
  (Comparator.in_range 32 (a - b) →
   ((Comparator.default_compare_signed w a b < 0)%Z ↔ (a < b)%Z) ∧
   (Comparator.default_compare_signed w a b = 0%Z ↔ a = b) ∧
   ((0 < Comparator.default_compare_signed w a b)%Z ↔ (b < a)%Z)) ∧
  ((w < 32)%Z → Comparator.in_range 32 (a - b)).
Proof.
  intros Hw Ha Hb. split; [apply default_compare_else_sign|]. split.
  - intros Hd. unfold Comparator.default_compare_signed.
    rewrite (wrap_in_range (Z.max w 32)); [|lia|].
    + rewrite wrap_in_range by (done || lia). lia.
    + unfold Comparator.in_range in *.
      assert (2 ^ (32 - 1) ≤ 2 ^ (Z.max w 32 - 1))%Z
        by (apply Z.pow_le_mono_r; lia). lia.
  - intros Hlt. unfold Comparator.in_range in *.
    assert (2 ^ (w - 1) ≤ 2 ^ 30)%Z by (apply Z.pow_le_mono_r; lia).
    change (2 ^ (32 - 1))%Z with (2 * 2 ^ 30)%Z. lia.
Qed.

Lemma C8_default_compare_witness :
  (0 < 64)%Z ∧ Comparator.in_range 64 5 ∧ Comparator.in_range 64 3 ∧
  Comparator.in_range 32 (5 - 3) ∧
  ((0 < Comparator.default_compare_signed 64 5 3)%Z ↔ (3 < 5)%Z).
Proof.
  assert (Comparator.in_range 64 5) as H5 by (unfold Comparator.in_range; simpl; lia).
  assert (Comparator.in_range 64 3) as H3 by (unfold Comparator.in_range; simpl; lia).
  assert (Comparator.in_range 32 (5 - 3)) as Hd by (unfold Comparator.in_range; simpl; lia).
  split; [lia|]. split; [exact H5|]. split; [exact H3|]. split; [exact Hd|].
  apply (C8_default_compare 64 5 3 ltac:(lia) H5 H3). exact Hd.
Defined.

(** The subtracting branch on inputs whose difference is not a value of
    [int]: two distinct 64-bit keys compare equal, the largest 32-bit key
    compares below [-1], and the [double] keys 0.5 (mantissa [2^52],
    exponent [-53]) and 0.0 compare equal.  In a tree over 64-bit keys with this comparator the
    second of two distinct keys overwrites the first. *)
Lemma C8_subtraction_loses_order :
  (Comparator.in_range 64 (2 ^ 32) ∧ Comparator.in_range 64 0 ∧
   Comparator.default_compare_signed 64 (2 ^ 32) 0 = 0%Z) ∧
  (Comparator.in_range 32 2147483647 ∧ Comparator.in_range 32 (-1) ∧
   Comparator.default_compare_signed 32 2147483647 (-1) = (-2147483648)%Z) ∧
  (SpecFloat.valid_binary 53 1024 (SpecFloat.S754_finite false 4503599627370496 (-53))
     = true ∧
   Comparator.default_compare_float 53 1024
     (SpecFloat.S754_finite false 4503599627370496 (-53)) (SpecFloat.S754_zero false)
   = Some 0%Z) ∧
  ∃ t it,
    run 2 (Comparator.default_compare_signed 64) 0%Z 0%Z
        [(0, 1); (2 ^ 32, 2)]%Z BTree_empty = Some t ∧
    BTree_begin t = Some it ∧
    walk 3 t it = Some [(0, 2)%Z].
Proof.
  split; [|split; [|split]].
  - unfold Comparator.in_range. simpl. split; [lia|]. split; [lia|]. by vm_compute.
  - unfold Comparator.in_range. simpl. split; [lia|]. split; [lia|]. by vm_compute.
  - by vm_compute.
  - eexists _, _. split; [by vm_compute|]. split; [by vm_compute|]. by vm_compute.
Qed.

(** ** Instances: [B = 2], integer keys and values *)

#[local] Abbreviation cmp := Comparator.default_compare_else.
#[local] Abbreviation ops5 := [(5, 50); (3, 30); (8, 80); (3, 31); (1, 10)]%Z.

(** An internal node at capacity with its four leaves. *)
#[local] Abbreviation full_node :=
  (mkNode true [10; 20; 30]%Z [1; 2; 3]%Z
          [Some 2; Some 3; Some 4; Some 5]%positive None 3 0).
#[local] Abbreviation leaf_under p j k :=
  (mkNode false [k; 0; 0]%Z [k; 0; 0]%Z [] (Some p) 1 j).
#[local] Abbreviation full_store :=
  (<[1 := full_node]> (<[2 := leaf_under 1 0 5]> (<[3 := leaf_under 1 1 15]>
     (<[4 := leaf_under 1 2 25]> (<[5 := leaf_under 1 3 35]>
       (∅ : gmap addr (@BTreeNode Z Z)))))))%positive.

(** A leaf at capacity below a parent with room. *)
#[local] Abbreviation full_leaf :=
  (mkNode false [5; 10; 15]%Z [1; 2; 3]%Z [] (Some 1%positive) 3 0).
#[local] Abbreviation parent_node :=
  (mkNode true [20; 0; 0]%Z [4; 0; 0]%Z [Some 2; Some 3; None; None]%positive None 1 0).
#[local] Abbreviation family_store :=
  (<[1 := parent_node]> (<[2 := full_leaf]> (<[3 := leaf_under 1 1 30]>
     (∅ : gmap addr (@BTreeNode Z Z)))))%positive.

(** The standing assumption [2 <= B] is needed: with [B = 1], which the
    program's [static_assert(B > 0)] admits, a node has one slot; the first
    insert fills the root leaf, which is never split, and the second key
    falls outside its arrays. *)
Lemma one_slot_tree_overruns :
  (∃ t nd a, run 1 cmp 0%Z 0%Z [(1, 10)]%Z BTree_empty = Some t ∧ root t = Some a ∧
             heap t !! a = Some nd ∧ usage nd = 2 * 1 - 1) ∧
  run 1 cmp 0%Z 0%Z [(1, 10); (2, 20)]%Z BTree_empty = None.
Proof.
  split; [|by vm_compute].
  eexists _, _, _. split; [by vm_compute|]. split; [by vm_compute|].
  split; [by vm_compute|]. reflexivity.
Qed.




(** [value] is read after the slots have moved: in the call above the
    leaf first shifts its three pairs by one slot, so that the slot which
    [value] refers to holds 200 when it is read, and key 5 is stored with
    200, not with the 300 that the reference held when the call was
    made. *)
Lemma insert_reads_value_after_shift :
  ∃ (t t' : BTree) (it' : iterator),
    run 3 cmp 0%Z 0%Z [(10, 100); (20, 200); (30, 300)]%Z BTree_empty = Some t ∧
    read_value (heap t) (slot 1%positive 2) = Some 300%Z ∧
    BTree_insert_ref 3 cmp 0%Z 0%Z t (object 5%Z) (slot 1%positive 2) = Some (t', None) ∧
    BTree_begin t' = Some it' ∧
    walk 5 t' it' = Some [(5, 200); (10, 100); (20, 200); (30, 300)]%Z ∧
    ∃ t'' it'',
      BTree_insert 3 cmp 0%Z 0%Z t 5%Z 300%Z = Some (t'', None) ∧
      BTree_begin t'' = Some it'' ∧
      walk 5 t'' it'' = Some [(5, 300); (10, 100); (20, 200); (30, 300)]%Z.
Proof.
  eexists _, _, _. split; [by vm_compute|]. split; [by vm_compute|].
  split; [by vm_compute|]. split; [by vm_compute|]. split; [by vm_compute|].
  eexists _, _. split; [by vm_compute|]. split; [by vm_compute|]. by vm_compute.
Qed.

Lemma C4_split_at_capacity_witness :
  full_store !! 1%positive = Some full_node ∧
  usage full_node = 2 * 2 - 1 ∧
  ∃ (h' : gmap addr BTreeNode) (l r : addr) (key value : Z) (lnd rnd : BTreeNode),
    split 2 0%Z 0%Z full_store 1%positive = Some (h', mkSplit l r key value) ∧
    full_store !! l = None ∧ full_store !! r = None ∧ l ≠ r ∧
    h' !! l = Some lnd ∧ h' !! r = Some rnd ∧
    usage lnd = 2 - 1 ∧ usage rnd = 2 - 1 ∧
    IsInternal lnd = IsInternal full_node ∧ IsInternal rnd = IsInternal full_node ∧
    take (2 - 1) (keys lnd) = take (2 - 1) (keys full_node) ∧
    take (2 - 1) (values lnd) = take (2 - 1) (values full_node) ∧
    take (2 - 1) (keys rnd) = drop 2 (keys full_node) ∧
    take (2 - 1) (values rnd) = drop 2 (values full_node) ∧
    keys full_node !! (2 - 1) = Some key ∧ values full_node !! (2 - 1) = Some value ∧
    (IsInternal full_node = true →
       take 2 (children lnd) = take 2 (children full_node) ∧
       take 2 (children rnd) = drop 2 (children full_node) ∧
       ∀ j c, j < 2 →
         (children full_node !! j = Some (Some c) →
            ∃ cn, h' !! c = Some cn ∧ parent cn = Some l ∧ parent_idx cn = j) ∧
         (children full_node !! (2 + j) = Some (Some c) →
            ∃ cn, h' !! c = Some cn ∧ parent cn = Some r ∧ parent_idx cn = j)).
Proof.
  split; [reflexivity|]. split; [reflexivity|].
  apply (C4_split_at_capacity 2 cmp 0%Z 0%Z ltac:(lia) ltac:(lia)
           default_compare_else_contract full_store 1%positive full_node
           [2; 3; 4; 5]%positive);
    try reflexivity.
  - intros c Hc. repeat (apply elem_of_cons in Hc as [->|Hc]; [by eexists|]).
    by apply elem_of_nil in Hc.
  - apply (bool_decide_unpack _). reflexivity.
Defined.

Lemma C5_split_counts_witness :
  family_store !! 2%positive = Some full_leaf ∧
  usage full_leaf = 2 * 2 - 1 ∧
  parent full_leaf = Some 1%positive ∧
  family_store !! 1%positive = Some parent_node ∧
  ∃ (h1 : gmap addr BTreeNode) (l r : addr) (key value : Z) (lnd rnd : BTreeNode)
    (h2 : gmap addr BTreeNode) (pnd' : BTreeNode),
    split 2 0%Z 0%Z family_store 2%positive = Some (h1, mkSplit l r key value) ∧
    family_store !! l = None ∧ family_store !! r = None ∧ l ≠ r ∧
    h1 !! l = Some lnd ∧ h1 !! r = Some rnd ∧
    usage lnd = 2 - 1 ∧ usage rnd = 2 - 1 ∧
    take (2 - 1) (keys lnd) ++ key :: take (2 - 1) (keys rnd) = keys full_leaf ∧
    take (2 - 1) (values lnd) ++ value :: take (2 - 1) (values rnd) = values full_leaf ∧
    adopt_local 1 h1 1%positive l r key value (parent_idx full_leaf) = Some h2 ∧
    h2 !! 1%positive = Some pnd' ∧
    usage pnd' = S (usage parent_node) ∧
    take (usage pnd') (keys pnd')
      = insert_at (parent_idx full_leaf) key (take (usage parent_node) (keys parent_node)) ∧
    take (usage pnd') (values pnd')
      = insert_at (parent_idx full_leaf) value
          (take (usage parent_node) (values parent_node)) ∧
    take (S (usage parent_node)) (children parent_node) = Some <$> [2; 3]%positive ∧
    take (S (usage pnd')) (children pnd')
      = Some <$> (take (parent_idx full_leaf) [2; 3]%positive
                    ++ l :: r :: drop (S (parent_idx full_leaf)) [2; 3]%positive) ∧
    h2 !! 2%positive = None.
Proof.
  split; [reflexivity|]. split; [reflexivity|]. split; [reflexivity|].
  split; [reflexivity|].
  apply (C5_split_counts 2 cmp 0%Z 0%Z ltac:(lia) ltac:(lia)
           default_compare_else_contract family_store 2%positive full_leaf []
           1%positive parent_node None 0 [(20, 4)]%Z [2; 3]%positive 0);
    try reflexivity.
  - intros c Hc. by apply elem_of_nil in Hc.
  - by constructor.
  - simpl. lia.
  - intros c Hc. repeat (apply elem_of_cons in Hc as [->|Hc]; [by eexists|]).
    by apply elem_of_nil in Hc.
  - apply (bool_decide_unpack _). reflexivity.
Defined.

Lemma C6_leaves_level_witness :
  2 ≤ 2 ∧ (2 * Z.of_nat 2 < 65536)%Z ∧ Contract cmp ∧
  ∃ (t t' : BTree) (old : option Z),
    run 2 cmp 0%Z 0%Z [(1, 10); (2, 20)]%Z BTree_empty = Some t ∧
    BTree_insert 2 cmp 0%Z 0%Z t 3%Z 30%Z = Some (t', old) ∧
    (∀ r, root t = Some r →
       ∃ d, BTree_height t = Some d ∧
            ∀ a da nd, at_depth (heap t) r da a → heap t !! a = Some nd →
                       IsInternal nd = false → da = d) ∧
    (root t = None ∨ BTree_height t' = BTree_height t ∨
     (BTree_height t' = S <$> BTree_height t ∧
      ∃ r' nd' l r ln rn,
        root t' = Some r' ∧ heap t' !! r' = Some nd' ∧
        IsInternal nd' = true ∧ usage nd' = 1 ∧ parent nd' = None ∧
        take 2 (children nd') = [Some l; Some r] ∧
        heap t' !! l = Some ln ∧ heap t' !! r = Some rn ∧
        usage ln = 2 - 1 ∧ usage rn = 2 - 1)).
Proof.
  split; [lia|]. split; [lia|]. split; [exact default_compare_else_contract|].
  apply (C6_leaves_level 2 cmp 0%Z 0%Z);
    [lia|lia|exact default_compare_else_contract].
Defined.

Lemma C7_predecessor_of_successor_witness :
  2 ≤ 2 ∧ (2 * Z.of_nat 2 < 65536)%Z ∧ Contract cmp ∧
  ∃ (t : BTree) (it0 : iterator) (P : list iterator),
    run 2 cmp 0%Z 0%Z ops5 BTree_empty = Some t ∧ BTree_begin t = Some it0 ∧
    (∀ steps, length P < steps → walk_positions steps t it0 = Some P) ∧
    (∀ k, k ∈ ops5.*1 → ∃ it v, it ∈ P ∧ deref (heap t) it = Some (k, v)) ∧
    (∀ r d a nd i, root t = Some r → at_depth (heap t) r d a → heap t !! a = Some nd →
       i < usage nd → mkIter i (Some a) ∈ P) ∧
    ∀ j it, S j < length P → P !! j = Some it →
      ∃ it' it'', iter_next t it = Some it' ∧ P !! S j = Some it' ∧
                  iter_prev t it' = Some it'' ∧ it'' = it ∧
                  iterator_eq it'' it = true.
Proof.
  split; [lia|]. split; [lia|]. split; [exact default_compare_else_contract|].
  apply (C7_predecessor_of_successor 2 cmp 0%Z 0%Z);
    [lia|lia|exact default_compare_else_contract].
Defined.

(** Stepping back from the first position gives an iterator that compares
    equal to [end()]: after the single insert of key 1 the tree is one
    leaf, [begin()] is its slot 0, and [predecessor(0)] climbs to the root,
    finds no parent and returns index 0 with no node. *)
Lemma C9_before_begin_equals_end :
  ∃ (t : BTree) (it s : iterator),
    run 2 cmp 0%Z 0%Z [(1, 10)]%Z BTree_empty = Some t ∧
    BTree_begin t = Some it ∧
    iter_prev t it = Some s ∧
    s = mkIter 0 None ∧
    iterator_eq BTree_end s = true ∧ iterator_neq BTree_end s = false.
Proof.
  eexists _, _, _. split; [by vm_compute|]. split; [by vm_compute|].
  split; [by vm_compute|]. split; [reflexivity|]. split; reflexivity.
Qed.

Lemma C9_iterator_equality_witness :
  2 ≤ 2 ∧ (2 * Z.of_nat 2 < 65536)%Z ∧ Contract cmp ∧
  (∀ a b, iterator_eq a b = true ↔ idx a = idx b ∧ node a = node b) ∧
  (∀ a b, iterator_neq a b = negb (iterator_eq a b)) ∧
  (∀ s, iterator_eq BTree_end s = true ↔ s = BTree_end) ∧
  ∃ (t : BTree) (it0 : iterator) (P : list iterator),
    run 2 cmp 0%Z 0%Z ops5 BTree_empty = Some t ∧ BTree_begin t = Some it0 ∧
    (∀ steps, length P < steps → walk_positions steps t it0 = Some P) ∧
    (∀ it, it ∈ P → iterator_eq BTree_end it = false) ∧
    (∀ it, head P = Some it →
       iter_prev t it = Some BTree_end ∧
       ∀ s, iter_prev t it = Some s → iterator_eq BTree_end s = true).
Proof.
  split; [lia|]. split; [lia|]. split; [exact default_compare_else_contract|].
  apply (C9_iterator_equality 2 cmp 0%Z 0%Z);
    [lia|lia|exact default_compare_else_contract].
Defined.

Lemma C10_below_capacity_witness :
  2 ≤ 2 ∧ (2 * Z.of_nat 2 < 65536)%Z ∧ Contract cmp ∧
  ∃ t : BTree,
    run 2 cmp 0%Z 0%Z ops5 BTree_empty = Some t ∧
    ∀ r d a, root t = Some r → at_depth (heap t) r d a →
      ∃ nd, heap t !! a = Some nd ∧ 1 ≤ usage nd ≤ 2 * 2 - 2.
Proof.
  split; [lia|]. split; [lia|]. split; [exact default_compare_else_contract|].
  apply (C10_below_capacity 2 cmp 0%Z 0%Z);
    [lia|lia|exact default_compare_else_contract].
Defined.

(** ** Further instances *)

Lemma traversal_latest_values_witness :
  2 ≤ 2 ∧ (2 * Z.of_nat 2 < 65536)%Z ∧ Contract cmp ∧
  ∃ (t : BTree) (it : iterator) (L : list (Z * Z)),
    run_ref 2 cmp 0%Z 0%Z ((λ kv, (object kv.1, object kv.2)) <$> ops5) BTree_empty
    = Some t ∧
    BTree_begin t = Some it ∧
    (∀ steps, length L < steps → walk steps t it = Some L) ∧
    ∀ k v, (k, v) ∈ L ↔ latest cmp k ops5 = Some v.
Proof.
  split; [lia|]. split; [lia|]. split; [exact default_compare_else_contract|].
  apply (traversal_latest_values 2 cmp 0%Z 0%Z);
    [lia|lia|exact default_compare_else_contract].
Defined.


Lemma min_max_key_traversal_witness :
  2 ≤ 2 ∧ (2 * Z.of_nat 2 < 65536)%Z ∧ Contract cmp ∧
  ∃ (t : BTree) (it : iterator) (L : list (Z * Z)),
    run 2 cmp 0%Z 0%Z ops5 BTree_empty = Some t ∧ BTree_begin t = Some it ∧
    (∀ steps, length L < steps → walk steps t it = Some L) ∧
    BTree_min_key t = head L.*1 ∧ BTree_max_key t = last L.*1 ∧
    (ops5 = [] → BTree_min_key t = None ∧ BTree_max_key t = None).
Proof.
  split; [lia|]. split; [lia|]. split; [exact default_compare_else_contract|].
  apply (min_max_key_traversal 2 cmp 0%Z 0%Z);
    [lia|lia|exact default_compare_else_contract].
Defined.

Lemma begin_is_end_iff_empty_witness :
  2 ≤ 2 ∧ (2 * Z.of_nat 2 < 65536)%Z ∧ Contract cmp ∧
  ∃ (t : BTree) (it : iterator),
    run 2 cmp 0%Z 0%Z ops5 BTree_empty = Some t ∧ BTree_begin t = Some it ∧
    (iterator_eq it BTree_end = true ↔ ops5 = []) ∧
    (iterator_neq it BTree_end = false ↔ ops5 = []).
Proof.
  split; [lia|]. split; [lia|]. split; [exact default_compare_else_contract|].
  apply (begin_is_end_iff_empty 2 cmp 0%Z 0%Z);
    [lia|lia|exact default_compare_else_contract].
Defined.

Lemma successor_of_predecessor_witness :
  2 ≤ 2 ∧ (2 * Z.of_nat 2 < 65536)%Z ∧ Contract cmp ∧
  ∃ (t : BTree) (it0 : iterator) (P : list iterator),
    run 2 cmp 0%Z 0%Z ops5 BTree_empty = Some t ∧ BTree_begin t = Some it0 ∧
    (∀ steps, length P < steps → walk_positions steps t it0 = Some P) ∧
    (∀ k, k ∈ ops5.*1 → ∃ it v, it ∈ P ∧ deref (heap t) it = Some (k, v)) ∧
    (∀ r d a nd i, root t = Some r → at_depth (heap t) r d a → heap t !! a = Some nd →
       i < usage nd → mkIter i (Some a) ∈ P) ∧
    (∀ j it, P !! S j = Some it →
       ∃ it' it'', iter_prev t it = Some it' ∧ P !! j = Some it' ∧
                   iter_next t it' = Some it'' ∧ it'' = it ∧
                   iterator_eq it'' it = true) ∧
    (∀ it, last P = Some it → iter_next t it = Some BTree_end).
Proof.
  split; [lia|]. split; [lia|]. split; [exact default_compare_else_contract|].
  apply (successor_of_predecessor 2 cmp 0%Z 0%Z);
    [lia|lia|exact default_compare_else_contract].
Defined.

(** ** One slot per node *)

(** With [B = 1], which [static_assert(B > 0)] admits, the first insert
    leaves a root leaf that is at capacity and was never split; a second
    insert succeeds only when its key compares equal to the first one, and
    otherwise falls outside the one-slot arrays, whatever the keys, the
    values and the comparator. *)
Theorem one_slot_second_insert {K V : Type} (comp : K → K → Z) (dK : K) (dV : V)
    (k1 k2 : K) (v1 v2 : V) :
  ∃ t a nd,
    run 1 comp dK dV [(k1, v1)] BTree_empty = Some t ∧
    root t = Some a ∧ heap t !! a = Some nd ∧
    IsInternal nd = false ∧ usage nd = 2 * 1 - 1 ∧
    (comp k2 k1 ≠ 0%Z → BTree_insert 1 comp dK dV t k2 v2 = None) ∧
    (comp k2 k1 = 0%Z →
     ∃ t', BTree_insert 1 comp dK dV t k2 v2 = Some (t', Some v1)).
Proof.
  set (nd := mkNode false [k1] [v1] [] None 1 0).
  exists (mkTree {[ 1%positive := nd ]} (Some 1%positive)), 1%positive, nd.
  split; [by vm_compute|]. split; [done|]. split; [done|]. split; [done|].
  split; [done|].
  assert (∀ fuel root, BTreeNode_insert 1 comp dK dV 2 (S fuel) {[ 1%positive := nd ]}
            1%positive k2 v2 root
          = if (comp k2 k1 <? 0)%Z then None
            else if (comp k2 k1 =? 0)%Z
                 then Some (<[1%positive := set_values [v2] nd]> {[ 1%positive := nd ]},
                            root, Some v1)
                 else None) as Hins.
  { intros fuel root. rewrite BTreeNode_insert_eq, lookup_singleton_eq.
    cbn [mbind option_bind]. unfold linear_search. cbn [usage nd].
    rewrite decide_True by lia.
    cbn [linear_search_from keys nd lookup list_lookup mbind option_bind].
    destruct (comp k2 k1 <? 0)%Z.
    - cbn [mbind option_bind]. vm_compute. reflexivity.
    - destruct (comp k2 k1 =? 0)%Z.
      + cbn [mbind option_bind]. vm_compute. reflexivity.
      + cbn [mbind option_bind]. vm_compute. reflexivity. }
  split.
  - intros Hne. rewrite BTree_insert_eq. cbn [root heap mbind option_bind].
    replace (gas _) with 2 by done. rewrite Hins.
    destruct (Z.ltb_spec (comp k2 k1) 0); [done|].
    destruct (Z.eqb_spec (comp k2 k1) 0); done.
  - intros Heq. eexists. rewrite BTree_insert_eq. cbn [root heap mbind option_bind].
    replace (gas _) with 2 by done. rewrite Hins, Heq. reflexivity.
Qed.

(** ** The demonstration in [main] *)

(** The keys of [main] are the values [rand()] returns, integers from 0
    to [RAND_MAX], which for a 32-bit [int] is at most [2^31 - 1]. *)
#[local] Abbreviation rand_int := (dsig (λ z : Z, (0 ≤ z < 2 ^ 31)%Z)).
#[local] Abbreviation cmp_int :=
  (λ a b : rand_int, Comparator.default_compare_signed 32 (`a) (`b)).

Lemma default_compare_signed_rand (a b : rand_int) : cmp_int a b = (`a - `b)%Z.
Proof.
  destruct a as [x Hx], b as [y Hy]. simpl.
  apply bool_decide_unpack in Hx as Hx'. apply bool_decide_unpack in Hy as Hy'.
  unfold Comparator.default_compare_signed.
  assert (Comparator.in_range 32 (x - y)) as Hr.
  { unfold Comparator.in_range. change (2 ^ (32 - 1))%Z with 2147483648%Z.
    change (2 ^ 31)%Z with 2147483648%Z in Hx', Hy'. lia. }
  change (Z.max 32 32) with 32%Z.
  by rewrite !(wrap_in_range 32 (x - y)) by (done || lia).
Qed.

Lemma cmp_int_contract : Contract cmp_int.
Proof.
  split.
  - intros a b. rewrite default_compare_signed_rand. split.
    + intros Heq. apply (sig_eq_pi _). lia.
    + intros ->. lia.
  - intros a b. rewrite !default_compare_signed_rand. lia.
  - intros a b c. rewrite !default_compare_signed_rand. lia.
Qed.

(** [main] inserts the values [rs] that [rand()] returns, each as key and
    as value, into a [BTree<int, int>] (so [B = 6] and the subtracting
    comparator), sorts them and drops the repetitions, and asserts that
    the traversal of the tree yields the same vector.  The assertion
    holds for every outcome of [rand()]: the traversal yields the one
    strictly ascending list [a] of the values. *)
Theorem main_assertion (rs : list rand_int) (d : rand_int) (a : list Z) :
  StronglySorted Z.lt a → (∀ z, z ∈ a ↔ z ∈ proj1_sig <$> rs) →
  ∃ t it L,
    run 6 cmp_int d d ((λ k, (k, k)) <$> rs) BTree_empty = Some t ∧
    BTree_begin t = Some it ∧
    (∀ steps, length L < steps → walk steps t it = Some L) ∧
    proj1_sig <$> L.*1 = a.
Proof.
  intros Hsorted Hsame.
  destruct (run_model 6 cmp_int d d ltac:(lia) ltac:(lia) cmp_int_contract
              ((λ k, (k, k)) <$> rs)) as (t & Hrun & Hinv & Hasc).
  destruct (traverse_inv 6 ltac:(lia) ltac:(lia) t _ Hinv) as (it & Hbegin & Hwalk).
  exists t, it, (model cmp_int ((λ k, (k, k)) <$> rs)).
  split; [done|]. split; [done|]. split; [done|].
  set (L := model cmp_int ((λ k, (k, k)) <$> rs)) in *.
  assert (StronglySorted Z.lt (proj1_sig <$> L.*1)) as HL.
  { unfold ascending in Hasc. revert Hasc. generalize (L.*1). intros ks.
    induction 1 as [|k ks' _ IH Hall]; [constructor|].
    rewrite fmap_cons. constructor; [done|]. apply Forall_fmap.
    eapply Forall_impl; [done|]. intros k'. unfold before.
    rewrite default_compare_signed_rand. simpl. lia. }
  assert (∀ l, StronglySorted Z.lt l → NoDup l) as Hnd.
  { induction 1 as [|z l _ IH Hall]; [constructor|]. apply NoDup_cons. split; [|done].
    intros Hin. eapply Forall_forall in Hall; [|done]. lia. }
  symmetry. eapply (StronglySorted_unique_strong Z.lt); [|done|done|].
  { intros x1 x2 _ _ ? ?. lia. }
  apply NoDup_Permutation; [by apply Hnd|by apply Hnd|].
  intros z. rewrite Hsame. unfold L. split.
  - intros (k & -> & Hk)%list_elem_of_fmap. apply list_elem_of_fmap_2.
    apply (model_keys 6 cmp_int ltac:(lia) ltac:(lia) cmp_int_contract).
    rewrite <-list_fmap_compose. simpl. by rewrite list_fmap_id.
  - intros (k & -> & Hk)%list_elem_of_fmap. apply list_elem_of_fmap_2.
    apply (proj1 (model_keys 6 cmp_int ltac:(lia) ltac:(lia) cmp_int_contract _ _)) in Hk.
    rewrite <-list_fmap_compose in Hk. simpl in Hk. by rewrite list_fmap_id in Hk.
Qed.

Lemma rand_value_1 : (0 ≤ 1 < 2 ^ 31)%Z.
Proof. done. Qed.

Lemma rand_value_3 : (0 ≤ 3 < 2 ^ 31)%Z.
Proof. done. Qed.

Lemma main_assertion_witness :
  StronglySorted Z.lt [1; 3]%Z ∧
  ∃ (t : BTree) (it : iterator) (L : list (rand_int * rand_int)),
    run 6 cmp_int (dexist 1%Z rand_value_1 : rand_int) (dexist 1%Z rand_value_1 : rand_int)
        ((λ k : rand_int, (k, k)) <$>
           [(dexist 3%Z rand_value_3 : rand_int); (dexist 1%Z rand_value_1 : rand_int);
            (dexist 3%Z rand_value_3 : rand_int)])
        BTree_empty = Some t ∧
    BTree_begin t = Some it ∧
    (∀ steps, length L < steps → walk steps t it = Some L) ∧
    proj1_sig <$> L.*1 = [1; 3]%Z.
Proof.
  assert (StronglySorted Z.lt [1; 3]%Z) as Hsorted.
  { repeat constructor. }
  split; [exact Hsorted|].
  apply (main_assertion _ _ [1; 3]%Z Hsorted).
  intros z. simpl. rewrite !elem_of_cons, !elem_of_nil. tauto.
Defined.

(** ** Instances of the further properties *)

Lemma destructor_releases_all_witness :
  2 ≤ 2 ∧ (2 * Z.of_nat 2 < 65536)%Z ∧ Contract cmp ∧
  ∃ t : BTree, run 2 cmp 0%Z 0%Z ops5 BTree_empty = Some t ∧ BTree_destroy t = Some ∅.
Proof.
  split; [lia|]. split; [lia|]. split; [exact default_compare_else_contract|].
  apply (destructor_releases_all 2 cmp 0%Z 0%Z);
    [lia|lia|exact default_compare_else_contract].
Defined.

Lemma nodes_half_full_witness :
  2 ≤ 2 ∧ (2 * Z.of_nat 2 < 65536)%Z ∧ Contract cmp ∧
  ∃ t : BTree,
    run 2 cmp 0%Z 0%Z ops5 BTree_empty = Some t ∧
    ∀ r d a, root t = Some r → at_depth (heap t) r (S d) a →
      ∃ nd, heap t !! a = Some nd ∧ 2 - 1 ≤ usage nd.
Proof.
  split; [lia|]. split; [lia|]. split; [exact default_compare_else_contract|].
  apply (nodes_half_full 2 cmp 0%Z 0%Z);
    [lia|lia|exact default_compare_else_contract].
Defined.

Lemma height_logarithmic_witness :
  2 ≤ 2 ∧ (2 * Z.of_nat 2 < 65536)%Z ∧ Contract cmp ∧
  ∃ (t : BTree) (it : iterator) (L : list (Z * Z)),
    run 2 cmp 0%Z 0%Z ops5 BTree_empty = Some t ∧ BTree_begin t = Some it ∧
    (∀ steps, length L < steps → walk steps t it = Some L) ∧
    ∀ d, BTree_height t = Some d → 2 * 2 ^ d ≤ S (length L).
Proof.
  split; [lia|]. split; [lia|]. split; [exact default_compare_else_contract|].
  apply (height_logarithmic 2 cmp 0%Z 0%Z);
    [lia|lia|exact default_compare_else_contract].
Defined.


Lemma links_consistent_witness :
  2 ≤ 2 ∧ (2 * Z.of_nat 2 < 65536)%Z ∧ Contract cmp ∧
  ∃ t : BTree,
    run 2 cmp 0%Z 0%Z ops5 BTree_empty = Some t ∧
    ∀ r, root t = Some r →
      (∃ rn, heap t !! r = Some rn ∧ parent rn = None) ∧
      ∀ d b bn j, at_depth (heap t) r d b → heap t !! b = Some bn →
        IsInternal bn = true → j ≤ usage bn →
        ∃ c cn, children bn !! j = Some (Some c) ∧ heap t !! c = Some cn ∧
                parent cn = Some b ∧ parent_idx cn = j.
Proof.
  split; [lia|]. split; [lia|]. split; [exact default_compare_else_contract|].
  apply (links_consistent 2 cmp 0%Z 0%Z);
    [lia|lia|exact default_compare_else_contract].
Defined.


(** A leaf with three keys at [B = 2], and the same leaf with the field
    [usage] at 4. *)
Lemma linear_search_flag_witness :
  length (keys full_leaf) = 2 * 2 - 1 ∧
  linear_search 2 cmp (set_usage 4 full_leaf) 10%Z = None ∧
  ∃ (flag : Z) (p : nat),
    linear_search 2 cmp full_leaf 10%Z = Some flag ∧ p ≤ usage full_leaf ∧
    (∀ j k, j < p → keys full_leaf !! j = Some k → (0 < cmp 10%Z k)%Z) ∧
    ((∃ k, p < usage full_leaf ∧ keys full_leaf !! p = Some k ∧ cmp 10%Z k = 0%Z ∧
           flag = Z.lor FOUND (Z.of_nat p) ∧
           Z.land flag FOUND ≠ 0%Z ∧ Z.land flag FOUND_MASK = Z.of_nat p)
     ∨ ((∀ k, keys full_leaf !! p = Some k → p < usage full_leaf → (cmp 10%Z k < 0)%Z) ∧
        flag = Z.lor GO_DOWN (Z.of_nat p) ∧
        Z.land flag FOUND = 0%Z ∧ Z.land flag GO_DOWN_MASK = Z.of_nat p)).
Proof.
  assert (length (keys full_leaf) = 2 * 2 - 1) as Hslots by reflexivity.
  split; [exact Hslots|]. split.
  - apply (linear_search_flag 2 cmp ltac:(lia) ltac:(lia) (set_usage 4 full_leaf)
             10%Z Hslots).
    simpl. lia.
  - apply (linear_search_flag 2 cmp ltac:(lia) ltac:(lia) full_leaf 10%Z Hslots).
    simpl. lia.
Defined.
